(** * fatresize: the FAT16/FAT32 resizer front end (src/fatresize.c)

    A shallow embedding of the command-line front end of fatresize and
    the properties of its size parser, exception handler, boundary
    snapper, device-name analysis and resize sequence.

    Conventions.
    - [PedSector] is C's [long long]; sector arithmetic is written with
      its two's-complement wrap-around ([wrap64]).
    - C strings are [string]s without NUL characters.
    - [exit] and a failed [PED_ASSERT] end the process; functions that
      can end it return an [outcome]. *)

From Stdlib Require Import ZArith List String Ascii Bool Lia.
Import ListNotations.

Open Scope string_scope.
Open Scope Z_scope.

(* ================================================================== *)
(** ** C integers *)

Module CInt.

Definition LLONG_MAX : Z := 9223372036854775807.
Definition LLONG_MIN : Z := -9223372036854775808.
Definition INT_MAX : Z := 2147483647.
Definition INT_MIN : Z := -2147483648.

(** Value of a 64-bit signed integer after an operation whose
    mathematical result is [z]. *)
Definition wrap64 (z : Z) : Z := (z + 2 ^ 63) mod 2 ^ 64 - 2 ^ 63.

(** Conversion to [int] (32 bits, two's complement). *)
Definition wrap32 (z : Z) : Z := (z + 2 ^ 31) mod 2 ^ 32 - 2 ^ 31.

Definition add64 (a b : Z) : Z := wrap64 (a + b).
Definition sub64 (a b : Z) : Z := wrap64 (a - b).
Definition mul64 (a b : Z) : Z := wrap64 (a * b).

Definition in_llong (z : Z) : Prop := LLONG_MIN <= z <= LLONG_MAX.

End CInt.
Import CInt.

(** How a function that may end the process finishes. *)
Inductive outcome (A : Type) : Type :=
| Ret (a : A)            (* returns to its caller *)
| Exit (code : Z)        (* exit(code), e.g. through usage() *)
| Abort.                 (* a PED_ASSERT failed: ped_assert() aborts *)
Arguments Ret {A} a.
Arguments Exit {A} code.
Arguments Abort {A}.

(* ================================================================== *)
(** ** The C library functions the program calls *)

Module Libc.

Definition ERANGE : Z := 34.

Definition code (c : ascii) : Z := Z.of_N (N_of_ascii c).

Definition isdigit (c : ascii) : bool := (48 <=? code c) && (code c <=? 57).

(** [isspace] in the C locale: space, \t, \n, \v, \f, \r. *)
Definition isspace (c : ascii) : bool :=
  (code c =? 32) || ((9 <=? code c) && (code c <=? 13)).

(** [tolower] in the C locale. *)
Definition tolower (c : ascii) : ascii :=
  if (65 <=? code c) && (code c <=? 90)
  then ascii_of_N (N_of_ascii c + 32) else c.

(** [strncmp (a, b, n) == 0]. *)
Fixpoint strncmp_eq (a b : string) (n : nat) {struct n} : bool :=
  match n with
  | O => true
  | S n' =>
      match a, b with
      | EmptyString, EmptyString => true
      | String x a', String y b' =>
          if Ascii.eqb x y then strncmp_eq a' b' n' else false
      | _, _ => false
      end
  end.

(** [strcmp (a, b) == 0]. *)
Definition strcmp_eq (a b : string) : bool := String.eqb a b.

(** [strcasecmp (a, b) == 0]. *)
Fixpoint strcasecmp_eq (a b : string) : bool :=
  match a, b with
  | EmptyString, EmptyString => true
  | String x a', String y b' =>
      if Ascii.eqb (tolower x) (tolower y) then strcasecmp_eq a' b' else false
  | _, _ => false
  end.

Definition strlen (s : string) : Z := Z.of_nat (String.length s).

Fixpoint skip_space (s : string) : string :=
  match s with
  | String c r => if isspace c then skip_space r else s
  | EmptyString => s
  end.

Definition digit_val (c : ascii) : Z := code c - 48.

(** Reads the longest run of decimal digits, accumulating its value. *)
Fixpoint scan_digits (acc : Z) (s : string) : Z * string :=
  match s with
  | String c r =>
      if isdigit c then scan_digits (10 * acc + digit_val c) r else (acc, s)
  | EmptyString => (acc, s)
  end.

Definition starts_with_digit (s : string) : bool :=
  match s with
  | String c _ => isdigit c
  | EmptyString => false
  end.

(** The sign and digits part shared by [strtoll] and [strtol]: the
    mathematical value read and the rest of the text, or [None] when no
    digit follows the optional sign. *)
Definition scan_integer (s : string) : option (Z * string) :=
  let s1 := skip_space s in
  let '(neg, s2) :=
    match s1 with
    | String "-" r => (true, r)
    | String "+" r => (false, r)
    | _ => (false, s1)
    end in
  if starts_with_digit s2 then
    let '(v, rest) := scan_digits 0 s2 in
    Some (if neg then - v else v, rest)
  else None.

(** [strtoll (s, &end, 10)] from an [errno] of [errno]: the value, the
    text [end] points to, and [errno] afterwards.  Out-of-range values
    are clamped and set [errno] to [ERANGE]; [errno] is otherwise left
    as it was. *)
Definition strtoll (errno : Z) (s : string) : Z * string * Z :=
  match scan_integer s with
  | Some (v, rest) =>
      if LLONG_MAX <? v then (LLONG_MAX, rest, ERANGE)
      else if v <? LLONG_MIN then (LLONG_MIN, rest, ERANGE)
      else (v, rest, errno)
  | None => (0, s, errno)
  end.

(** [atoi (s)], as [(int) strtol (s, NULL, 10)] with a 64-bit [long]. *)
Definition atoi (s : string) : Z :=
  match scan_integer s with
  | Some (v, _) =>
      wrap32 (if LLONG_MAX <? v then LLONG_MAX
              else if v <? LLONG_MIN then LLONG_MIN else v)
  | None => 0
  end.

(** Texts made of decimal digits only, and their value. *)
Fixpoint all_digits (s : string) : bool :=
  match s with
  | String c r => isdigit c && all_digits r
  | EmptyString => true
  end.

Fixpoint decimal_value (acc : Z) (s : string) : Z :=
  match s with
  | String c r => decimal_value (10 * acc + digit_val c) r
  | EmptyString => acc
  end.

End Libc.
Import Libc.

(* ================================================================== *)
(** ** Size parser: [get_size] *)

Module SizeParser.

Definition MAX_SIZE_STR : string := "max".

(** The [switch] on the first suffix character with its fall-through:
    [G] runs the [M] and [k] multiplications too. *)
Definition scale (c : ascii) (size prefix_kind : Z) : outcome Z :=
  if Ascii.eqb c "G" then
    Ret (mul64 (mul64 (mul64 size prefix_kind) prefix_kind) prefix_kind)
  else if Ascii.eqb c "M" then
    Ret (mul64 (mul64 size prefix_kind) prefix_kind)
  else if Ascii.eqb c "k" then
    Ret (mul64 size prefix_kind)
  else Exit 1.

(** [get_size (s)] called with [errno] holding [errno]. *)
Definition get_size (errno : Z) (s : string) : outcome Z :=
  if strncmp_eq s MAX_SIZE_STR (String.length MAX_SIZE_STR) then Ret LLONG_MAX
  else
    let '(size, suffix, errno') := strtoll errno s in
    if (size <=? 0) || (errno' =? ERANGE) then Exit 1
    else
      match suffix with
      | EmptyString => Ret size
      | String c _ =>
          if (strlen suffix =? 2)
             && match String.get 1 suffix with
                | Some c1 => Ascii.eqb c1 "i"
                | None => false
                end
          then scale c size 1024
          else if 1 <? strlen suffix then Exit 1
          else scale c size 1000
      end.

(** The suffixes the usage text lists: k, M, G, ki, Mi, Gi. *)
Definition unit_suffix (s : string) : bool :=
  existsb (String.eqb s) ["k"; "M"; "G"; "ki"; "Mi"; "Gi"].

End SizeParser.
Import SizeParser.

(* ================================================================== *)
(** ** libparted: geometries, partitions, exception options *)

Module Parted.

Definition PedSector : Type := Z.

(** [PedGeometry] (parted/geom.h); the [dev] field is left out, every
    geometry of a run belongs to the one device. *)
Record PedGeometry : Type := mkGeom {
  geom_start : PedSector;
  geom_length : PedSector;
  geom_end : PedSector
}.

(** Modelled from the spec: [ped_geometry_test_sector_inside] of
    libparted, "lies within the side's allowed range": the sector is
    between the range's start and end, both included. *)
Definition ped_geometry_test_sector_inside (g : PedGeometry) (s : PedSector)
  : bool :=
  (geom_start g <=? s) && (s <=? geom_end g).

(** Modelled from the spec: [ped_geometry_set] of libparted, which
    rewrites a geometry to [{start, length}] with
    [length = end - start + 1].  Its guards are those of libparted
    (geom.c): a negative start fails a PED_ASSERT, a length below one is
    refused (returns 0, geometry untouched). *)
Definition ped_geometry_set (g : PedGeometry) (start length : PedSector)
  : outcome (Z * PedGeometry) :=
  if start <? 0 then Abort
  else if length <? 1 then Ret (0, g)
  else Ret (1, mkGeom start length (sub64 (add64 start length) 1)).

(** Modelled from the spec: [ped_geometry_init] and [ped_geometry_new]
    of libparted on a fresh geometry; [None] stands for the 0 / NULL
    they return when [ped_geometry_set] refuses. *)
Definition ped_geometry_init (start length : PedSector)
  : outcome (option PedGeometry) :=
  match ped_geometry_set (mkGeom 0 0 0) start length with
  | Ret (0, _) => Ret None
  | Ret (_, g) => Ret (Some g)
  | Exit c => Exit c
  | Abort => Abort
  end.

Definition ped_geometry_new := ped_geometry_init.

Definition ped_geometry_duplicate (g : PedGeometry)
  : outcome (option PedGeometry) :=
  ped_geometry_new (geom_start g) (geom_length g).

(** A partition of the table: its geometry, whether it is the extended
    partition (a container of logical ones), its number and the name of
    its file system type when it has one. *)
Record PedPartition : Type := mkPart {
  part_geom : PedGeometry;
  part_extended : bool;
  part_num : Z;
  part_fs_type : option string
}.

(** The partition list of a [PedDisk], in the order
    [ped_disk_next_partition] walks it. *)
Definition PedDisk : Type := list PedPartition.

(** Modelled from the spec: [ped_disk_get_partition_by_sector] of
    libparted, "locate the partition containing" a sector: the first
    partition of the walk that holds the sector and is not the extended
    container; NULL when there is none. *)
Fixpoint ped_disk_get_partition_by_sector (disk : PedDisk) (sect : PedSector)
  : option PedPartition :=
  match disk with
  | [] => None
  | walk :: rest =>
      if ped_geometry_test_sector_inside (part_geom walk) sect
         && negb (part_extended walk)
      then Some walk
      else ped_disk_get_partition_by_sector rest sect
  end.

(** [PedExceptionType] (parted/exception.h). *)
Inductive PedExceptionType : Type :=
| PED_EXCEPTION_INFORMATION
| PED_EXCEPTION_WARNING
| PED_EXCEPTION_ERROR
| PED_EXCEPTION_FATAL
| PED_EXCEPTION_BUG
| PED_EXCEPTION_NO_FEATURE.

(** [PedExceptionOption] (parted/exception.h): a bit mask. *)
Definition PedExceptionOption : Type := Z.
Definition PED_EXCEPTION_UNHANDLED : PedExceptionOption := 0.
Definition PED_EXCEPTION_FIX : PedExceptionOption := 1.
Definition PED_EXCEPTION_YES : PedExceptionOption := 2.
Definition PED_EXCEPTION_NO : PedExceptionOption := 4.
Definition PED_EXCEPTION_OK : PedExceptionOption := 8.
Definition PED_EXCEPTION_RETRY : PedExceptionOption := 16.
Definition PED_EXCEPTION_IGNORE : PedExceptionOption := 32.
Definition PED_EXCEPTION_CANCEL : PedExceptionOption := 64.
Definition PED_EXCEPTION_IGNORE_CANCEL : PedExceptionOption :=
  PED_EXCEPTION_IGNORE + PED_EXCEPTION_CANCEL.
Definition PED_EXCEPTION_OPTION_FIRST : PedExceptionOption := PED_EXCEPTION_FIX.
Definition PED_EXCEPTION_OPTION_LAST : PedExceptionOption :=
  PED_EXCEPTION_CANCEL.

Record PedException : Type := mkException {
  ex_message : string;
  ex_type : PedExceptionType;
  ex_options : PedExceptionOption
}.

Definition option_strings : list string :=
  ["Fix"; "Yes"; "No"; "OK"; "Retry"; "Ignore"; "Cancel"].

(** [ped_exception_get_option_string]: the name table indexed by the
    position of the flag.  Flags above the seven defined ones have no
    name in the table; they get the empty text here. *)
Definition ped_exception_get_option_string (opt : PedExceptionOption)
  : string :=
  nth (Z.to_nat (Z.log2 opt)) option_strings "".

End Parted.
Import Parted.

(* ================================================================== *)
(** ** Exception handler: [option_get_next], [ask_for_option],
       [fatresize_handler] *)

Module Mediator.

(** Iterations granted to a loop over the bits of an [int]; a loop that
    needs more does not end ([None]). *)
Definition int_bits : nat := 32.

(** The [for (; i <= options; i <<= 1)] loop of [option_get_next]. *)
Fixpoint option_scan (fuel : nat) (options i : PedExceptionOption)
  : option PedExceptionOption :=
  match fuel with
  | O => None
  | S fuel' =>
      if i <=? options then
        if negb (Z.land options i =? 0) then Some i
        else option_scan fuel' options (Z.shiftl i 1)
      else Some 0
  end.

Definition option_get_next (options current : PedExceptionOption)
  : option PedExceptionOption :=
  let i := if current =? 0 then PED_EXCEPTION_OPTION_FIRST
           else Z.shiftl current 1 in
  option_scan int_bits options i.

(** First inner loop of [ask_for_option]: the prompt it prints, one
    name per offered option, a newline before the first and a slash
    between the others. *)
Fixpoint prompt_from (fuel : nat) (options opt : PedExceptionOption) (i : Z)
  : option string :=
  match fuel with
  | O => None
  | S fuel' =>
      if opt =? 0 then Some ""
      else
        match option_get_next options opt with
        | None => None
        | Some opt' =>
            match prompt_from fuel' options opt' (i + 1) with
            | None => None
            | Some rest =>
                Some ((if 0 <? i then "/" else String "010" "")
                      ++ ped_exception_get_option_string opt ++ rest)
            end
        end
  end.

(** Second inner loop: the first offered option whose name is the
    buffer, whatever the case of the letters; 0 when the loop ends
    without one. *)
Fixpoint match_from (fuel : nat) (options opt : PedExceptionOption)
  (buffer : string) : option PedExceptionOption :=
  match fuel with
  | O => None
  | S fuel' =>
      if opt =? 0 then Some 0
      else if strcasecmp_eq buffer (ped_exception_get_option_string opt)
      then Some opt
      else
        match option_get_next options opt with
        | None => None
        | Some opt' => match_from fuel' options opt' buffer
        end
  end.

(** [buffer[line_len-1] = 0]: the line without its last character. *)
Fixpoint chop (line : string) : string :=
  match line with
  | EmptyString => EmptyString
  | String c EmptyString => EmptyString
  | String c r => String c (chop r)
  end.

(** [ask_for_option] over the lines still to come on stdin, each as
    [getline] hands it over (with its newline); the end of the list is
    the end of input.  Returns the option and the lines left unread;
    [None] when an option loop does not end. *)
Fixpoint ask_for_option (ex : PedException) (stdin : list string)
  : option (PedExceptionOption * list string) :=
  match option_get_next (ex_options ex) 0 with
  | None => None
  | Some first =>
      match prompt_from int_bits (ex_options ex) first 0 with
      | None => None
      | Some _ =>
          match stdin with
          | [] => Some (PED_EXCEPTION_CANCEL, [])
          | line :: rest =>
              match match_from int_bits (ex_options ex) first (chop line) with
              | None => None
              | Some opt =>
                  if opt =? 0 then ask_for_option ex rest
                  else Some (opt, rest)
              end
          end
      end
  end.

(** [fatresize_handler] under [opts.force_yes]; writes to stdout and
    stderr are left out. *)
Definition fatresize_handler (force_yes : Z) (ex : PedException)
  (stdin : list string) : option (PedExceptionOption * list string) :=
  match ex_type ex with
  | PED_EXCEPTION_INFORMATION
  | PED_EXCEPTION_WARNING =>
      if negb (force_yes =? 0) then
        if ex_options ex =? PED_EXCEPTION_IGNORE_CANCEL
        then Some (PED_EXCEPTION_IGNORE, stdin)
        else
          match option_get_next (ex_options ex) 0 with
          | None => None
          | Some opt =>
              match option_get_next (ex_options ex) opt with
              | None => None
              | Some next =>
                  if next =? 0 then Some (opt, stdin)
                  else Some (PED_EXCEPTION_UNHANDLED, stdin)
              end
          end
      else ask_for_option ex stdin
  | _ => Some (PED_EXCEPTION_CANCEL, stdin)
  end.

(** The option sets events offer: masks of the seven defined flags. *)
Definition all_options : list PedExceptionOption :=
  [PED_EXCEPTION_FIX; PED_EXCEPTION_YES; PED_EXCEPTION_NO; PED_EXCEPTION_OK;
   PED_EXCEPTION_RETRY; PED_EXCEPTION_IGNORE; PED_EXCEPTION_CANCEL].

Definition defined_options (options : PedExceptionOption) : Prop :=
  0 <= options < 2 * PED_EXCEPTION_OPTION_LAST.

(** The options a mask offers, in ascending order of their flags. *)
Definition offers (options opt : PedExceptionOption) : bool :=
  negb (Z.land options opt =? 0).

Definition offered (options : PedExceptionOption)
  : list PedExceptionOption :=
  filter (offers options) all_options.

(** The offered option a line of input names, if any: its text without
    the newline equals the name of the option, letter case aside. *)
Definition names (buffer : string) (opt : PedExceptionOption) : bool :=
  strcasecmp_eq buffer (ped_exception_get_option_string opt).

Definition chosen (options : PedExceptionOption) (line : string)
  : option PedExceptionOption :=
  find (names (chop line)) (offered options).

(** The options the loops of [ask_for_option] go through from [opt]. *)
Fixpoint enum_from (fuel : nat) (options opt : PedExceptionOption)
  : option (list PedExceptionOption) :=
  match fuel with
  | O => None
  | S fuel' =>
      if opt =? 0 then Some []
      else
        match option_get_next options opt with
        | None => None
        | Some opt' => option_map (cons opt) (enum_from fuel' options opt')
        end
  end.

(** The prompt as the spec words it: lines are read until one names
    an offered option; CANCEL at the end of input.  Gives the option
    and the lines left unread. *)
Fixpoint prompt_outcome (options : PedExceptionOption) (stdin : list string)
  : PedExceptionOption * list string :=
  match stdin with
  | [] => (PED_EXCEPTION_CANCEL, [])
  | line :: rest =>
      match chosen options line with
      | Some opt => (opt, rest)
      | None => prompt_outcome options rest
      end
  end.

Definition info_or_warning (t : PedExceptionType) : bool :=
  match t with
  | PED_EXCEPTION_INFORMATION | PED_EXCEPTION_WARNING => true
  | _ => false
  end.

End Mediator.
Import Mediator.

(* ================================================================== *)
(** ** Boundary snapper: [snap], [try_snap], [snap_to_boundaries] *)

Module Snapper.

(** [snap (&sector, new_sector, range)]: the returned int and the value
    of [*sector] afterwards.  FAT_ASSERT runs PED_ASSERT first, which
    aborts on a false condition. *)
Definition snap (sector new_sector : PedSector) (range : PedGeometry)
  : outcome (Z * PedSector) :=
  if negb (ped_geometry_test_sector_inside range sector) then Abort
  else if negb (ped_geometry_test_sector_inside range new_sector)
  then Ret (0, sector)
  else Ret (1, new_sector).

(** [try_snap (&sector, range, ...)]: [args] are the variable
    arguments as the caller wrote them, the closing -1 included. *)
Fixpoint try_snap (sector : PedSector) (range : PedGeometry)
  (args : list PedSector) : outcome PedSector :=
  match args with
  | [] => Ret sector
  | new_sector :: more =>
      if new_sector =? -1 then Ret sector
      else
        match snap sector new_sector range with
        | Ret (r, sector') =>
            if negb (r =? 0) then Ret sector'
            else try_snap sector' range more
        | Exit c => Exit c
        | Abort => Abort
        end
  end.

(** The replacements [snap_to_boundaries] hands to [try_snap] for the
    start and for the end: the old start or end first when there is an
    old geometry, then the boundaries of the partition the sector lies
    in, then the closing -1. *)
Definition start_args (old_geom : option PedGeometry)
  (start_part : PedPartition) : list PedSector :=
  match old_geom with
  | Some old =>
      [geom_start old; geom_start (part_geom start_part);
       add64 (geom_end (part_geom start_part)) 1; -1]
  | None =>
      [geom_start (part_geom start_part);
       add64 (geom_end (part_geom start_part)) 1; -1]
  end.

Definition end_args (old_geom : option PedGeometry)
  (end_part : PedPartition) : list PedSector :=
  match old_geom with
  | Some old =>
      [geom_end old; geom_end (part_geom end_part);
       sub64 (geom_start (part_geom end_part)) 1; -1]
  | None =>
      [geom_end (part_geom end_part);
       sub64 (geom_start (part_geom end_part)) 1; -1]
  end.

(** [snap_to_boundaries]: the value of [*new_geom] when it returns. *)
Definition snap_to_boundaries (new_geom : PedGeometry)
  (old_geom : option PedGeometry) (disk : PedDisk)
  (start_range end_range : PedGeometry) : outcome PedGeometry :=
  let start := geom_start new_geom in
  let end_ := geom_end new_geom in
  let start_part := ped_disk_get_partition_by_sector disk start in
  let end_part := ped_disk_get_partition_by_sector disk end_ in
  match start_part with
  | None => Abort
  | Some start_part =>
      match end_part with
      | None => Ret new_geom
      | Some end_part =>
          match try_snap start start_range
                  (start_args old_geom start_part) with
          | Ret start' =>
              match try_snap end_ end_range (end_args old_geom end_part) with
              | Ret end' =>
                  if negb (start' <=? end') then Abort
                  else
                    match ped_geometry_set new_geom start'
                            (add64 (sub64 end' start') 1) with
                    | Ret (_, g) => Ret g
                    | Exit c => Exit c
                    | Abort => Abort
                    end
              | Exit c => Exit c
              | Abort => Abort
              end
          | Exit c => Exit c
          | Abort => Abort
          end
      end
  end.

(** The value of [*new_geom] once a call of [snap_to_boundaries] is
    over: the function writes it in its last step only, so a call that
    stops on an assertion leaves it as it was. *)
Definition range_after (new_geom : PedGeometry) (o : outcome PedGeometry)
  : PedGeometry :=
  match o with
  | Ret g => g
  | _ => new_geom
  end.

(** The replacements [try_snap] looks at: its arguments up to the
    first -1. *)
Fixpoint candidates (args : list PedSector) : list PedSector :=
  match args with
  | [] => []
  | a :: more => if a =? -1 then [] else a :: candidates more
  end.

(** A geometry as libparted keeps it: a start that is not negative, at
    least one sector, [end = start + length - 1], all within
    [long long]. *)
Definition geom_ok (g : PedGeometry) : Prop :=
  0 <= geom_start g /\ 1 <= geom_length g <= LLONG_MAX /\
  geom_end g = geom_start g + geom_length g - 1 /\
  geom_end g <= LLONG_MAX.

(** Sectors are [long long] values. *)
Definition geom_typed (g : PedGeometry) : Prop :=
  in_llong (geom_start g) /\ in_llong (geom_end g).

Definition disk_typed (disk : PedDisk) : Prop :=
  forall p : PedPartition, In p disk -> geom_typed (part_geom p).

(** Short name for the range test. *)
Abbreviation inside := ped_geometry_test_sector_inside.

(** No two partitions that hold data share a sector. *)
Definition disk_disjoint (disk : PedDisk) : Prop :=
  forall (p q : PedPartition) (s : PedSector),
    In p disk -> In q disk ->
    part_extended p = false -> part_extended q = false ->
    ped_geometry_test_sector_inside (part_geom p) s = true ->
    ped_geometry_test_sector_inside (part_geom q) s = true ->
    part_geom p = part_geom q.

End Snapper.
Import Snapper.

(* ================================================================== *)
(** ** Device name analysis: [get_partnum], [get_device] *)

Module Device.

(** The global [opts]. *)
Record options : Type := mkOpts {
  fullpath : option string;
  device : option string;
  pnum : Z;
  size : PedSector;
  verbose : Z;
  progress : Z;
  info : Z;
  force_yes : Z
}.

Definition set_device (o : options) (fp dv : option string) : options :=
  mkOpts fp dv (pnum o) (size o) (verbose o) (progress o) (info o)
         (force_yes o).

Definition set_pnum (o : options) (n : Z) : options :=
  mkOpts (fullpath o) (device o) n (size o) (verbose o) (progress o) (info o)
         (force_yes o).

Definition NUL : ascii := zero.

(** The character [dev[p]]: a character of the text, or the NUL that
    ends it; nothing is known of the bytes around the text. *)
Definition char_at (dev : string) (p : Z) : option ascii :=
  if p <? 0 then None
  else
    match String.get (Z.to_nat p) dev with
    | Some c => Some c
    | None => if p =? strlen dev then Some NUL else None
    end.

(** [while ( *p && isdigit ( *p) && *p != '/') p--;] from [p]; [None]
    when the loop reads outside the text. *)
Fixpoint scan_back (fuel : nat) (dev : string) (p : Z) : option Z :=
  match fuel with
  | O => None
  | S fuel' =>
      match char_at dev p with
      | None => None
      | Some c =>
          if negb (Ascii.eqb c NUL) && isdigit c && negb (Ascii.eqb c "/")
          then scan_back fuel' dev (p - 1)
          else Some p
      end
  end.

(** The text a pointer [dev + n] denotes, and the first [n] characters
    of [dev]. *)
Fixpoint string_from (n : nat) (s : string) : string :=
  match n, s with
  | O, _ => s
  | S n', String _ r => string_from n' r
  | S _, EmptyString => EmptyString
  end.

Fixpoint string_take (n : nat) (s : string) : string :=
  match n, s with
  | O, _ => EmptyString
  | S n', String c r => String c (string_take n' r)
  | S _, EmptyString => EmptyString
  end.

Definition get_partnum (dev : string) : option Z :=
  match scan_back (S (String.length dev)) dev (strlen dev - 1) with
  | None => None
  | Some p =>
      let pnum := atoi (string_from (Z.to_nat (p + 1)) dev) in
      Some (if negb (pnum =? 0) then pnum else 1)
  end.

(** What [stat] says of a path that exists. *)
Inductive file_type : Type := S_IFBLK | S_IFCHR | S_IFREG | S_IFOTHER.

Definition S_ISBLK (t : file_type) : bool :=
  match t with S_IFBLK => true | _ => false end.
Definition S_ISCHR (t : file_type) : bool :=
  match t with S_IFCHR => true | _ => false end.

(** The buffer [devname], [malloc (len)] with [len = strlen (dev)]:
    the characters written from its start, and whether a NUL written
    inside the [len] bytes ends them.  The NUL that line 194 writes at
    index [p - dev + 1] is inside when the path has trailing digits and
    at index [len], outside the allocation, when it has none; the
    [strcpy] of line 203 always writes its NUL at index [len]. *)
Record buffer : Type := mkBuffer {
  buf_text : string;
  buf_terminated : bool
}.

Section GetDevice.

(** [stat (path)]: [None] for -1.  [probe path]: whether
    [probe_device] finds a device at the path. *)
Variable stat : string -> option file_type.
Variable probe : string -> bool.

(** What a read of the name finds after the [len] bytes of [devname],
    up to the first NUL, at a line of the source: 201 and 204 for the
    two calls of [probe_device], 554 for [main] reading [opts.device].
    A NUL written outside the allocation is not a byte of the buffer,
    and nothing is known of what is read there later. *)
Variable beyond : Z -> string.

(** The name a read of the buffer at [line] gives. *)
Definition c_string (b : buffer) (line : Z) : string :=
  if buf_terminated b then buf_text b
  else (buf_text b ++ beyond line)%string.

(** Lines 192-198: the path up to [p] copied into [devname], that is
    the path without its trailing digits, and without the [p] before
    them when a digit precedes it. *)
Definition strip_partition (dev : string) (p : Z) : buffer :=
  let devname :=
    mkBuffer (string_take (Z.to_nat (p + 1)) dev) (p + 1 <? strlen dev) in
  if (2 <? p)
     && match char_at (buf_text devname) p with
        | Some c => Ascii.eqb c "p"
        | None => false
        end
     && match char_at (buf_text devname) (p - 1) with
        | Some c => isdigit c
        | None => false
        end
  then mkBuffer (string_take (Z.to_nat p) (buf_text devname)) true
  else devname.

(** [get_device (dev)]: the returned int and [opts] afterwards, with
    [opts.device] as line 554 reads it. *)
Definition get_device (dev : string) (o : options) : option (Z * options) :=
  let o := set_device o (Some dev) None in
  match stat dev with
  | None => Some (0, o)
  | Some st =>
      if negb (S_ISBLK st && negb (S_ISCHR st)) then
        if negb (probe dev) then Some (0, o)
        else Some (1, set_device o (Some dev) (Some dev))
      else
        match scan_back (S (String.length dev)) dev (strlen dev - 1) with
        | None => None
        | Some p =>
            let devname := strip_partition dev p in
            if negb (probe (c_string devname 201)) then
              let devname := mkBuffer dev false in
              if negb (probe (c_string devname 204)) then Some (0, o)
              else Some (1, set_device o (Some dev)
                              (Some (c_string devname 554)))
            else if pnum o <? 0 then
              match get_partnum dev with
              | None => None
              | Some n =>
                  Some (1, set_device (set_pnum o n) (Some dev)
                             (Some (c_string devname 554)))
              end
            else Some (1, set_device o (Some dev)
                            (Some (c_string devname 554)))
        end
  end.

End GetDevice.

End Device.
Import Device.

(* ================================================================== *)
(** ** The resize sequence: [main] after the option loop *)

Module Orchestrator.

(** [PedDevice] fields [main] reads that stay fixed during a run. *)
Record PedDevice : Type := mkDevice {
  dev_sector_size : Z;
  dev_length : PedSector;
  dev_is_file : bool      (* type == PED_DEVICE_FILE *)
}.

(** Calls into libparted that a run makes, with what they returned. *)
Inductive event : Type :=
| ev_exception_set_handler
| ev_timer_new
| ev_device_get (path : string) (ok : bool)
| ev_device_open (ok : bool)
| ev_disk_new (ok : bool)
| ev_disk_get_partition (num : Z) (ok : bool)
| ev_partition_is_busy (busy : bool)
| ev_exception_throw (type : PedExceptionType) (options : PedExceptionOption)
| ev_disk_destroy
| ev_file_system_open (geom : PedGeometry) (ok : bool)
| ev_file_system_get_resize_constraint (ok : bool)
| ev_constraint_destroy
| ev_unit_format (sector : PedSector) (text : string)
| ev_unit_parse (text : string) (ok : bool)
| ev_constraint_new (range_start range_end : PedGeometry)
| ev_constraint_intersect (ok : bool)
| ev_disk_set_partition_geom (start end_ : PedSector) (ok : bool)
| ev_file_system_resize (geom : PedGeometry) (ok : bool)
| ev_partition_set_system
| ev_file_system_close
| ev_disk_commit (ok : bool)
| ev_device_close.

(** How a run ends. *)
Inductive status : Type :=
| Exited (code : Z)     (* return from main, or exit() *)
| Aborted               (* a PED_ASSERT failed *)
| Undefined.            (* an uninitialised local was used *)

Inductive res (A : Type) : Type :=
| Val (a : A)
| Halt (s : status).
Arguments Val {A} a.
Arguments Halt {A} s.

(** The services of libparted, acting on the state [World] of the
    machine (devices, tables, file systems, standard input). *)
Set Implicit Arguments.
Record Services (World Disk Part Fs Constraint : Type) : Type := mkServices {
  ped_device_get : string -> World -> option PedDevice * World;
  ped_device_open : PedDevice -> World -> bool * World;
  ped_device_close : PedDevice -> World -> World;
  dev_boot_dirty : PedDevice -> World -> bool;
  ped_disk_new : PedDevice -> World -> option Disk * World;
  ped_disk_get_partition : Disk -> Z -> World -> option Part * World;
  ped_disk_destroy : Disk -> World -> World;
  ped_disk_commit : Disk -> World -> bool * World;
  disk_partitions : Disk -> World -> PedDisk;
  partition_fs_type : Part -> World -> option string;
  partition_geom : Part -> World -> PedGeometry;
  ped_partition_is_busy : Part -> World -> bool * World;
  ped_partition_set_system : Part -> Fs -> World -> World;
  ped_disk_set_partition_geom :
    Disk -> Part -> Constraint -> PedSector -> PedSector -> World
    -> bool * World;
  ped_exception_throw :
    PedExceptionType -> PedExceptionOption -> World -> World;
  ped_file_system_open : PedGeometry -> World -> option Fs * World;
  ped_file_system_close : Fs -> World -> World;
  ped_file_system_get_resize_constraint :
    Fs -> World -> option Constraint * World;
  ped_file_system_resize : Fs -> PedGeometry -> bool -> World -> bool * World;
  constraint_max_size : Constraint -> World -> PedSector;
  ped_constraint_new :
    PedGeometry -> PedGeometry -> PedSector -> PedSector -> World
    -> option Constraint * World;
  ped_constraint_intersect :
    option Constraint -> option Constraint -> World
    -> option Constraint * World;
  ped_constraint_destroy : option Constraint -> World -> World;
  ped_unit_format : PedDevice -> PedSector -> World -> string * World;
  ped_unit_parse :
    string -> PedDevice -> World -> option (PedSector * PedGeometry) * World
}.
Unset Implicit Arguments.

Section Run.

Context {World Disk Part Fs Constraint : Type}.
Variable lib : Services World Disk Part Fs Constraint.

(** A step of the run: from a state of the world to a value or the end
    of the run, the state afterwards and the calls made. *)
Definition M (A : Type) : Type := World -> res A * World * list event.

Definition ret {A} (a : A) : M A := fun w => (Val a, w, []).

Definition bind {A B} (m : M A) (k : A -> M B) : M B :=
  fun w =>
    match m w with
    | (Val a, w1, t1) =>
        let '(r, w2, t2) := k a w1 in (r, w2, (t1 ++ t2)%list)
    | (Halt s, w1, t1) => (Halt s, w1, t1)
    end.

Notation "x <- m ;; k" := (bind m (fun x => k))
  (at level 61, m at next level, right associativity).
Notation "' pat <- m ;; k" :=
  (bind m (fun x => match x with pat => k end))
  (at level 61, pat pattern, m at next level, right associativity).
Notation "m ;;; k" := (bind m (fun _ => k))
  (at level 61, right associativity).

(** [return code;] in [main]. *)
Definition halt {A} (code : Z) : M A := fun w => (Halt (Exited code), w, []).

Definition stop {A} (s : status) : M A := fun w => (Halt s, w, []).

(** A call that returns a value, and one that returns nothing. *)
Definition call {A} (f : World -> A * World) (ev : A -> event) : M A :=
  fun w => let '(a, w1) := f w in (Val a, w1, [ev a]).

Definition call_ (f : World -> World) (ev : event) : M unit :=
  fun w => (Val tt, f w, [ev]).

Definition read {A} (f : World -> A) : M A := fun w => (Val (f w), w, []).

(** The result of a libparted function that is modelled in [Parted]. *)
Definition pure {A} (o : outcome A) : M A :=
  match o with
  | Ret a => ret a
  | Exit c => halt c
  | Abort => stop Aborted
  end.

(** A pointer local of [main]: [None] until it is assigned. *)
Definition deref {A} (p : option A) : M A :=
  match p with
  | Some a => ret a
  | None => stop Undefined
  end.

Definition is_some {A} (o : option A) : bool :=
  match o with Some _ => true | None => false end.

(** [partition_warn_busy]. *)
Definition partition_warn_busy (part : Part) : M Z :=
  busy <- call (ped_partition_is_busy lib part) ev_partition_is_busy ;;
  if busy then
    call_ (ped_exception_throw lib PED_EXCEPTION_ERROR PED_EXCEPTION_CANCEL)
          (ev_exception_throw PED_EXCEPTION_ERROR PED_EXCEPTION_CANCEL) ;;;
    ret 0
  else ret 1.

(** [constraint_from_start_end]. *)
Definition constraint_from_start_end (dev : PedDevice)
  (range_start range_end : PedGeometry) : M (option Constraint) :=
  call (ped_constraint_new lib range_start range_end 1 (dev_length dev))
       (fun _ => ev_constraint_new range_start range_end).

(** [constraint_intersect_and_destroy]. *)
Definition constraint_intersect_and_destroy (a b : option Constraint)
  : M (option Constraint) :=
  result <- call (ped_constraint_intersect lib a b)
                 (fun r => ev_constraint_intersect (is_some r)) ;;
  call_ (ped_constraint_destroy lib a) ev_constraint_destroy ;;;
  call_ (ped_constraint_destroy lib b) ev_constraint_destroy ;;;
  ret result.

(** Lines 553-593: the device, the table and partition when a
    partition number is set, and the geometry to resize. *)
Definition open_target (opts : options)
  : M (PedDevice * option Disk * option Part * PedGeometry) :=
  match device opts with
  | None => halt 1
  | Some path =>
      if (size opts =? 0) && (info opts =? 0) then halt 1
      else
        call_ (fun w => w) ev_exception_set_handler ;;;
        (if negb (progress opts =? 0)
         then call_ (fun w => w) ev_timer_new else ret tt) ;;;
        dev <- call (ped_device_get lib path)
                    (fun r => ev_device_get path (is_some r)) ;;
        match dev with
        | None => halt 1
        | Some dev =>
            opened <- call (ped_device_open lib dev) ev_device_open ;;
            if negb opened then halt 1
            else if 0 <? pnum opts then
              disk <- call (ped_disk_new lib dev)
                           (fun r => ev_disk_new (is_some r)) ;;
              match disk with
              | None => halt 1
              | Some disk =>
                  part <- call (ped_disk_get_partition lib disk (pnum opts))
                            (fun r => ev_disk_get_partition (pnum opts)
                                        (is_some r)) ;;
                  match part with
                  | None => halt 1
                  | Some part =>
                      fs_type <- read (partition_fs_type lib part) ;;
                      match fs_type with
                      | None => halt 1
                      | Some name =>
                          if negb (strncmp_eq name "fat" 3) then
                            call_ (ped_exception_throw lib PED_EXCEPTION_ERROR
                                     PED_EXCEPTION_CANCEL)
                                  (ev_exception_throw PED_EXCEPTION_ERROR
                                     PED_EXCEPTION_CANCEL) ;;;
                            halt 1
                          else
                            free <- partition_warn_busy part ;;
                            if free =? 0 then
                              call_ (ped_disk_destroy lib disk)
                                    ev_disk_destroy ;;;
                              halt 1
                            else
                              part_geom <- read (partition_geom lib part) ;;
                              ret (dev, Some disk, Some part, part_geom)
                      end
                  end
              end
            else
              g <- pure (ped_geometry_init 0 (dev_length dev)) ;;
              match g with
              | None => halt 1
              | Some part_geom => ret (dev, None, None, part_geom)
              end
        end
  end.

(** Lines 598-623: information mode and the size [max]; returns
    [opts.size] as later lines see it. *)
Definition query_size (opts : options) (dev : PedDevice)
  (part_geom : PedGeometry) : M PedSector :=
  if negb (info opts =? 0) || (size opts =? LLONG_MAX) then
    fs <- call (ped_file_system_open lib part_geom)
               (fun r => ev_file_system_open part_geom (is_some r)) ;;
    match fs with
    | None => halt 1
    | Some fs =>
        constraint <- call (ped_file_system_get_resize_constraint lib fs)
                        (fun r => ev_file_system_get_resize_constraint
                                    (is_some r)) ;;
        match constraint with
        | None => halt 1
        | Some constraint =>
            if negb (info opts =? 0) then
              call_ (ped_constraint_destroy lib (Some constraint))
                    ev_constraint_destroy ;;;
              halt 0
            else
              max_size <- read (constraint_max_size lib constraint) ;;
              call_ (ped_constraint_destroy lib (Some constraint))
                    ev_constraint_destroy ;;;
              ret (mul64 max_size (dev_sector_size dev))
        end
    end
  else ret (size opts).

(** Lines 632-645: the proposed new end and the range for the end. *)
Definition end_range (dev : PedDevice) (part_geom : PedGeometry)
  (size : PedSector) : M (PedSector * PedGeometry) :=
  let end_ := add64 (geom_start part_geom)
                    (Z.quot size (dev_sector_size dev)) in
  old_str <- call (ped_unit_format lib dev (geom_end part_geom))
                  (ev_unit_format (geom_end part_geom)) ;;
  def_str <- call (ped_unit_format lib dev end_) (ev_unit_format end_) ;;
  if strcmp_eq old_str def_str then
    range_end <- pure (ped_geometry_new (geom_end part_geom) 1) ;;
    match range_end with
    | None => halt 1
    | Some range_end => ret (end_, range_end)
    end
  else
    parsed <- call (ped_unit_parse lib def_str dev)
                   (fun r => ev_unit_parse def_str (is_some r)) ;;
    match parsed with
    | None => halt 1
    | Some (end', range_end) => ret (end', range_end)
    end.

(** Lines 647-659: the old geometry, the new one, and its snapping. *)
Definition plan_geometry (disk : option Disk) (part_geom : PedGeometry)
  (start end_ : PedSector) (range_start range_end : PedGeometry)
  : M PedGeometry :=
  old_geom <- pure (ped_geometry_duplicate part_geom) ;;
  match old_geom with
  | None => halt 1
  | Some _ =>
      g <- pure (ped_geometry_init start (add64 (sub64 end_ start) 1)) ;;
      match g with
      | None => halt 1
      | Some new_geom =>
          disk <- deref disk ;;
          table <- read (disk_partitions lib disk) ;;
          pure (snap_to_boundaries new_geom (Some part_geom) table
                  range_start range_end)
      end
  end.

(** Lines 661-673: the file system and the constraint of the resize. *)
Definition build_constraint (dev : PedDevice) (part : option Part)
  (range_start range_end : PedGeometry) : M (Fs * Constraint) :=
  part <- deref part ;;
  geom <- read (partition_geom lib part) ;;
  fs <- call (ped_file_system_open lib geom)
             (fun r => ev_file_system_open geom (is_some r)) ;;
  match fs with
  | None => halt 1
  | Some fs =>
      a <- call (ped_file_system_get_resize_constraint lib fs)
                (fun r => ev_file_system_get_resize_constraint (is_some r)) ;;
      b <- constraint_from_start_end dev range_start range_end ;;
      constraint <- constraint_intersect_and_destroy a b ;;
      match constraint with
      | None => halt 1
      | Some constraint => ret (fs, constraint)
      end
  end.

(** Lines 675-720: partition geometry, file system resize, commit. *)
Definition apply_resize (opts : options) (dev : PedDevice)
  (disk : option Disk) (part : option Part) (fs : Fs)
  (constraint : Constraint) (new_geom : PedGeometry) : M unit :=
  (if 0 <? pnum opts then
     disk <- deref disk ;;
     part <- deref part ;;
     ok <- call (ped_disk_set_partition_geom lib disk part constraint
                   (geom_start new_geom) (geom_end new_geom))
                (ev_disk_set_partition_geom (geom_start new_geom)
                   (geom_end new_geom)) ;;
     if negb ok then
       call_ (ped_file_system_close lib fs) ev_file_system_close ;;;
       call_ (ped_constraint_destroy lib (Some constraint))
             ev_constraint_destroy ;;;
       halt 1
     else ret tt
   else ret tt) ;;;
  resized <- call (ped_file_system_resize lib fs new_geom
                     (negb (progress opts =? 0)))
                  (ev_file_system_resize new_geom) ;;
  if negb resized then halt 1
  else
    (if 0 <? pnum opts then
       part <- deref part ;;
       call_ (ped_partition_set_system lib part fs) ev_partition_set_system
     else ret tt) ;;;
    call_ (ped_file_system_close lib fs) ev_file_system_close ;;;
    call_ (ped_constraint_destroy lib (Some constraint))
          ev_constraint_destroy ;;;
    (if 0 <? pnum opts then
       disk <- deref disk ;;
       committed <- call (ped_disk_commit lib disk) ev_disk_commit ;;
       if negb committed then halt 1
       else call_ (ped_disk_destroy lib disk) ev_disk_destroy
     else ret tt) ;;;
    dirty <- read (dev_boot_dirty lib dev) ;;
    (if dirty && negb (dev_is_file dev) then
       call_ (ped_exception_throw lib PED_EXCEPTION_WARNING PED_EXCEPTION_OK)
             (ev_exception_throw PED_EXCEPTION_WARNING PED_EXCEPTION_OK)
     else ret tt) ;;;
    call_ (ped_device_close lib dev) ev_device_close ;;;
    halt 0.

(** Lines 536-673: all that comes before the first change on disk;
    the two arguments of [constraint_intersect_and_destroy] are
    evaluated in the order written. *)
Definition resize_plan (opts : options)
  : M (PedDevice * option Disk * option Part * Fs * Constraint * PedGeometry)
  :=
  '(dev, disk, part, part_geom) <- open_target opts ;;
  size <- query_size opts dev part_geom ;;
  let start := geom_start part_geom in
  range_start <- pure (ped_geometry_new start 1) ;;
  match range_start with
  | None => halt 1
  | Some range_start =>
      '(end_, range_end) <- end_range dev part_geom size ;;
      new_geom <- plan_geometry disk part_geom start end_
                    range_start range_end ;;
      '(fs, constraint) <- build_constraint dev part range_start range_end ;;
      ret (dev, disk, part, fs, constraint, new_geom)
  end.


(** [main] from line 536 on, with [opts] as the option loop left it. *)
Definition main (opts : options) : M unit :=
  '(dev, disk, part, fs, constraint, new_geom) <- resize_plan opts ;;
  apply_resize opts dev disk part fs constraint new_geom.

(** The end of a run from a state of the world, and the calls made. *)
Definition run_status (opts : options) (w : World) : res unit :=
  fst (fst (main opts w)).

Definition run_trace (opts : options) (w : World) : list event :=
  snd (main opts w).

(** A step that only makes calls of a given kind. *)
Definition emits_only {A} (P : event -> bool) (m : M A) : Prop :=
  forall w : World, forallb P (snd (m w)) = true.

End Run.

(** Kinds of calls. *)
Definition is_commit (e : event) : bool :=
  match e with ev_disk_commit _ => true | _ => false end.

Definition is_resize_ok (e : event) : bool :=
  match e with ev_file_system_resize _ true => true | _ => false end.

Definition is_set_geom_ok (e : event) : bool :=
  match e with ev_disk_set_partition_geom _ _ true => true | _ => false end.





(** Calls that change neither the partition table nor the file
    system: all but the three above. *)
Definition quiet (e : event) : bool :=
  negb (is_commit e || is_resize_ok e || is_set_geom_ok e).

(** A stand-in for libparted: one device of 1048576 sectors of 512
    bytes whose table is the state of the world, every call
    succeeding; sectors are displayed in units of 131072. *)
Definition mock_device : PedDevice := mkDevice 512 1048576 false.

Definition mock_format (s : PedSector) : string :=
  string_of_list_ascii (repeat "#"%char (Z.to_nat (s / 131072))).

Definition mock_parse (text : string) : PedSector * PedGeometry :=
  let s := 131072 * strlen text in
  (s, mkGeom (s - 65536) 131072 (s + 65535)).

Definition mock_services
  : Services PedDisk unit PedPartition PedGeometry unit :=
  {| ped_device_get := fun _ w => (Some mock_device, w);
     ped_device_open := fun _ w => (true, w);
     ped_device_close := fun _ w => w;
     dev_boot_dirty := fun _ _ => false;
     ped_disk_new := fun _ w => (Some tt, w);
     ped_disk_get_partition := fun _ n w =>
       (find (fun p => part_num p =? n) w, w);
     ped_disk_destroy := fun _ w => w;
     ped_disk_commit := fun _ w => (true, w);
     disk_partitions := fun _ w => w;
     partition_fs_type := fun p _ => part_fs_type p;
     partition_geom := fun p _ => part_geom p;
     ped_partition_is_busy := fun _ w => (false, w);
     ped_partition_set_system := fun _ _ w => w;
     ped_disk_set_partition_geom := fun _ _ _ _ _ w => (true, w);
     ped_exception_throw := fun _ _ w => w;
     ped_file_system_open := fun g w => (Some g, w);
     ped_file_system_close := fun _ w => w;
     ped_file_system_get_resize_constraint := fun _ w => (Some tt, w);
     ped_file_system_resize := fun _ _ _ w => (true, w);
     constraint_max_size := fun _ _ => 1048576;
     ped_constraint_new := fun _ _ _ _ w => (Some tt, w);
     ped_constraint_intersect := fun a b w =>
       (match a, b with Some _, Some _ => Some tt | _, _ => None end, w);
     ped_constraint_destroy := fun _ w => w;
     ped_unit_format := fun _ s w => (mock_format s, w);
     ped_unit_parse := fun text _ w => (Some (mock_parse text), w) |}.

Definition mock_table : PedDisk :=
  [mkPart (mkGeom 2048 1046528 1048575) false 1 (Some "fat32")].

Definition mock_opts (bytes : PedSector) : options :=
  mkOpts (Some "/dev/sdz1") (Some "/dev/sdz") 1 bytes 0 0 0 0.

(** Every commit of a trace comes after a file system resize that
    succeeded; [resized] tells whether one came before the trace. *)
Fixpoint commit_guarded (resized : bool) (tr : list event) : bool :=
  match tr with
  | [] => true
  | e :: rest =>
      (if is_commit e then resized else true)
      && commit_guarded (resized || is_resize_ok e) rest
  end.

End Orchestrator.
Import Orchestrator.

(* ================================================================== *)
(** ** Progress display: [resize_handler] *)

Module Progress.

(** [TimerContext]. *)
Record TimerContext : Type := mkTimerContext {
  last_update : Z;
  predicted_time_left : Z
}.

(** [PedTimer] (parted/timer.h): the [time_t] fields and the state
    name; [frac], a float, and the handler fields are left out. *)
Record PedTimer : Type := mkTimer {
  timer_start : Z;
  timer_now : Z;
  timer_predicted_end : Z;
  timer_state_name : option string
}.

(** What a call writes to stdout: nothing, a dot, or the line with the
    state name and the minutes and seconds left (the percentage, a
    float, is left out). *)
Inductive drawn : Type :=
| draw_nothing
| draw_dot
| draw_line (state_name : option string) (minutes seconds : Z).

(** [resize_handler (timer, ctx)] under [opts.verbose]: the context
    afterwards and what is written. *)
Definition resize_handler (verbose : Z) (timer : PedTimer)
  (tctx : TimerContext) : TimerContext * drawn :=
  if verbose =? -1 then (tctx, draw_nothing)
  else if verbose <? 3 then (tctx, draw_dot)
  else
    let tctx' :=
      if negb (last_update tctx =? timer_now timer)
         && (timer_start timer <? timer_now timer)
      then mkTimerContext (timer_now timer)
             (sub64 (timer_predicted_end timer) (timer_now timer))
      else tctx in
    (tctx',
     draw_line (timer_state_name timer)
       (Z.quot (predicted_time_left tctx') 60)
       (Z.rem (predicted_time_left tctx') 60)).

End Progress.
Import Progress.

(* ================================================================== *)
(** ** The option loop of [main] *)

Module CommandLine.

(** What [getopt_long] returns for one element of the command line
    with the option string [-hfin:s:vpq]: 1 for an argument that is
    not an option, the letter of an option, or another value (the
    question mark of an unknown option or of a missing argument). *)
Inductive getopt_result : Type :=
| got_argument (optarg : string)
| got_n (optarg : string)
| got_f
| got_i
| got_p
| got_s (optarg : string)
| got_v
| got_q
| got_h
| got_other.

Definition set_size (o : options) (n : PedSector) : options :=
  mkOpts (fullpath o) (device o) (pnum o) n (verbose o) (progress o) (info o)
         (force_yes o).

Definition set_verbose (o : options) (v : Z) : options :=
  mkOpts (fullpath o) (device o) (pnum o) (size o) v (progress o) (info o)
         (force_yes o).

Definition set_progress (o : options) (v : Z) : options :=
  mkOpts (fullpath o) (device o) (pnum o) (size o) (verbose o) v (info o)
         (force_yes o).

Definition set_info (o : options) (v : Z) : options :=
  mkOpts (fullpath o) (device o) (pnum o) (size o) (verbose o) (progress o) v
         (force_yes o).

Definition set_force_yes (o : options) (v : Z) : options :=
  mkOpts (fullpath o) (device o) (pnum o) (size o) (verbose o) (progress o)
         (info o) v.

(** [opts] after [memset] and [opts.pnum = -1]. *)
Definition initial_opts : options := mkOpts None None (-1) 0 0 0 0 0.

Section OptionLoop.

(** The file system and the devices as [get_device] sees them, and
    what the calls of [get_device] and [atoi] leave in [errno]. *)
Variable stat : string -> option file_type.
Variable probe : string -> bool.
Variable beyond : Z -> string.
Variable errno_after_device : string -> Z -> Z.
Variable errno_after_atoi : string -> Z -> Z.

(** One turn of the [switch (opt)]: [opts] and [errno] afterwards, or
    the end of the process. *)
Definition option_case (item : getopt_result) (st : options * Z)
  : res (options * Z) :=
  let '(o, errno) := st in
  match item with
  | got_argument optarg =>
      match device o with
      | None =>
          match get_device stat probe beyond optarg o with
          | Some (_, o') => Val (o', errno_after_device optarg errno)
          | None => Halt Undefined
          end
      | Some _ => Halt (Exited 1)
      end
  | got_n optarg => Val (set_pnum o (atoi optarg), errno_after_atoi optarg errno)
  | got_f => Val (set_force_yes o 1, errno)
  | got_i => Val (set_info o 1, errno)
  | got_p => Val (set_progress o 1, errno)
  | got_s optarg =>
      match get_size errno optarg with
      | Ret n => Val (set_size o n, errno)
      | Exit c => Halt (Exited c)
      | Abort => Halt Aborted
      end
  | got_v => Val (set_verbose o (wrap32 (verbose o + 1)), errno)
  | got_q => Val (set_verbose o (-1), errno)
  | got_h | got_other => Halt (Exited 0)
  end.

(** The [while ((opt = getopt_long (...)) != -1)] loop. *)
Fixpoint option_loop (items : list getopt_result) (st : options * Z)
  : res (options * Z) :=
  match items with
  | [] => Val st
  | item :: rest =>
      match option_case item st with
      | Val st' => option_loop rest st'
      | Halt s => Halt s
      end
  end.

(** Lines 482-534: [main] up to the end of the option loop. *)
Definition parse_command_line (argc : Z) (items : list getopt_result)
  (errno : Z) : res (options * Z) :=
  if argc <? 2 then Halt (Exited 0)
  else option_loop items (initial_opts, errno).

End OptionLoop.

(** The options that only set a flag or the verbosity. *)
Definition is_flag (item : getopt_result) : bool :=
  match item with
  | got_f | got_i | got_p | got_v | got_q => true
  | _ => false
  end.

Definition is_got_v (item : getopt_result) : bool :=
  match item with got_v => true | _ => false end.

Definition is_got_q (item : getopt_result) : bool :=
  match item with got_q => true | _ => false end.

(** The number of [-v] after the last [-q], and whether there is a
    [-q], read from the end of the command line. *)
Fixpoint verbose_tail (items : list getopt_result) : Z * bool :=
  match items with
  | [] => (0, false)
  | item :: rest =>
      let '(n, quiet_seen) := verbose_tail rest in
      if quiet_seen then (n, true)
      else if is_got_q item then (n, true)
      else if is_got_v item then (n + 1, false)
      else (n, false)
  end.

End CommandLine.
Import CommandLine.

(* ================================================================== *)
(** ** Kinds of calls and ends of a run *)

Module RunFacts.

(** Calls that change the partition table, the file system or the
    partition type, whatever they return. *)
Definition mutating (e : event) : bool :=
  match e with
  | ev_disk_set_partition_geom _ _ _
  | ev_file_system_resize _ _
  | ev_partition_set_system
  | ev_disk_commit _ => true
  | _ => false
  end.

Definition is_device_close (e : event) : bool :=
  match e with ev_device_close => true | _ => false end.

Definition is_commit_ok (e : event) : bool :=
  match e with ev_disk_commit true => true | _ => false end.

Definition is_intersect_ok (e : event) : bool :=
  match e with ev_constraint_intersect true => true | _ => false end.

Definition is_fs_open (e : event) : bool :=
  match e with ev_file_system_open _ _ => true | _ => false end.

Definition is_free (e : event) : bool :=
  match e with ev_partition_is_busy false => true | _ => false end.

(** Every call of the kind [target] in a trace comes after a call of
    the kind [guard]; [seen] tells whether one came before the trace. *)
Fixpoint preceded (guard target : event -> bool) (seen : bool)
  (tr : list event) : bool :=
  match tr with
  | [] => true
  | e :: rest =>
      (if target e then seen else true)
      && preceded guard target (seen || guard e) rest
  end.

Definition exited_0 (s : status) : bool :=
  match s with Exited 0 => true | _ => false end.

Definition exited_0_or_1 (s : status) : bool :=
  match s with Exited 0 | Exited 1 => true | _ => false end.

(** A run that failed, or that used a local it had not assigned. *)
Definition failed_or_undefined (s : status) : bool :=
  match s with Exited 1 | Aborted | Undefined => true | _ => false end.

(** What holds of every run, as one test on the way it ends and on
    the calls it made.  Without [-i]: an exit with 0 comes with a
    resize that succeeded, the close of the device and, for a
    partition, a geometry change and a commit that succeeded; without
    a partition number the run fails or uses the unassigned [disk],
    and changes nothing before.  With [-i]: the run exits with 0 or 1 and changes nothing.
    In all cases: the device is closed on an exit with 0 only, a change
    comes after a constraint intersection that succeeded and, for a
    partition, the file system is opened after the busy test said
    free. *)
Definition run_check (opts : options) (s : res unit) (tr : list event)
  : bool :=
  match s with
  | Val _ => false
  | Halt st =>
      (if info opts =? 0 then
         (if exited_0 st then
            existsb is_resize_ok tr && existsb is_device_close tr
            && (if 0 <? pnum opts
                then existsb is_set_geom_ok tr && existsb is_commit_ok tr
                else true)
          else true)
         && (if 0 <? pnum opts then true
             else negb (existsb mutating tr) && failed_or_undefined st)
       else exited_0_or_1 st && negb (existsb mutating tr))
      && (if existsb is_device_close tr
          then exited_0 st && existsb is_resize_ok tr
          else true)
      && preceded is_intersect_ok mutating false tr
      && (if 0 <? pnum opts then preceded is_free is_fs_open false tr
          else true)
  end.

(** Options for the stand-in device: information mode on partition 1,
    and a resize of the whole device. *)
Definition mock_info_opts : options :=
  mkOpts (Some "/dev/sdz1") (Some "/dev/sdz") 1 0 0 0 1 0.

Definition mock_whole_opts : options :=
  mkOpts (Some "/dev/sdz") (Some "/dev/sdz") (-1) 268435456 0 0 0 0.

End RunFacts.
Import RunFacts.

(* ================================================================== *)
(** * Properties *)

(** ** Wrap-around arithmetic *)

Lemma wrap64_id (z : Z) : in_llong z -> wrap64 z = z.
Proof.
  unfold in_llong, LLONG_MIN, LLONG_MAX, wrap64. intros H.
  rewrite Z.mod_small; lia.
Qed.

Lemma wrap64_in_llong (z : Z) : in_llong (wrap64 z).
Proof.
  unfold in_llong, LLONG_MIN, LLONG_MAX, wrap64.
  pose proof (Z.mod_pos_bound (z + 2 ^ 63) (2 ^ 64) ltac:(lia)). lia.
Qed.

Lemma wrap64_mod (z : Z) : wrap64 z mod 2 ^ 64 = z mod 2 ^ 64.
Proof.
  unfold wrap64.
  rewrite Zminus_mod, Z.mod_mod by lia.
  rewrite <- Zminus_mod. f_equal. lia.
Qed.

Lemma wrap64_eq (a b : Z) : a mod 2 ^ 64 = b mod 2 ^ 64 -> wrap64 a = wrap64 b.
Proof.
  intros H. unfold wrap64.
  rewrite (Zplus_mod a), (Zplus_mod b), H. reflexivity.
Qed.

Lemma wrap64_add_l (a b : Z) : wrap64 (wrap64 a + b) = wrap64 (a + b).
Proof.
  apply wrap64_eq. rewrite Zplus_mod, wrap64_mod, <- Zplus_mod. reflexivity.
Qed.

Lemma wrap64_sub_l (a b : Z) : wrap64 (wrap64 a - b) = wrap64 (a - b).
Proof.
  apply wrap64_eq. rewrite Zminus_mod, wrap64_mod, <- Zminus_mod. reflexivity.
Qed.

Lemma mul64_exact (a b : Z) : in_llong (a * b) -> mul64 a b = a * b.
Proof. apply wrap64_id. Qed.

(** ** Size parser *)

Arguments code : simpl never.
Arguments digit_val : simpl never.
Arguments isdigit : simpl never.
Arguments isspace : simpl never.
Arguments wrap64 : simpl never.
Arguments wrap32 : simpl never.

Lemma isdigit_code (c : ascii) : isdigit c = true -> 48 <= code c <= 57.
Proof. unfold isdigit. intros H. apply andb_prop in H. lia. Qed.

Lemma eqb_code_neq (c d : ascii) : code c <> code d -> Ascii.eqb c d = false.
Proof.
  intros H. apply Ascii.eqb_neq. intros ->. apply H. reflexivity.
Qed.

Lemma isdigit_not_space (c : ascii) : isdigit c = true -> isspace c = false.
Proof.
  intros H. apply isdigit_code in H. unfold isspace.
  apply orb_false_iff. split; [lia|]. apply andb_false_iff. lia.
Qed.

Lemma scan_digits_app (ds suffix : string) (acc : Z) :
  all_digits ds = true -> starts_with_digit suffix = false ->
  scan_digits acc (ds ++ suffix) = (decimal_value acc ds, suffix).
Proof.
  revert acc. induction ds as [|c ds IH]; intros acc Hd Hs;
    cbn [all_digits append scan_digits decimal_value] in *.
  - destruct suffix as [|c r]; [reflexivity|].
    cbn [starts_with_digit scan_digits] in Hs |- *. rewrite Hs. reflexivity.
  - apply andb_prop in Hd. destruct Hd as [Hc Hd].
    rewrite Hc. apply IH; assumption.
Qed.

Lemma decimal_value_lower (ds : string) (acc : Z) :
  all_digits ds = true -> 0 <= acc -> acc <= decimal_value acc ds.
Proof.
  revert acc. induction ds as [|c ds IH]; intros acc Hd Ha;
    cbn [all_digits decimal_value] in *.
  - lia.
  - apply andb_prop in Hd. destruct Hd as [Hc Hd].
    apply isdigit_code in Hc. unfold digit_val in *.
    specialize (IH (10 * acc + (code c - 48)) Hd ltac:(lia)). lia.
Qed.

(** The integer scan on a run of digits followed by a suffix. *)
Lemma scan_integer_digits (ds suffix : string) :
  all_digits ds = true -> ds <> "" -> starts_with_digit suffix = false ->
  scan_integer (ds ++ suffix) = Some (decimal_value 0 ds, suffix).
Proof.
  intros Hd Hne Hs. destruct ds as [|c ds]; [congruence|].
  pose proof Hd as Hd'. simpl in Hd'. apply andb_prop in Hd'.
  destruct Hd' as [Hc _].
  unfold scan_integer.
  change ((String c ds ++ suffix)%string) with (String c (ds ++ suffix)).
  cbn [skip_space]. rewrite (isdigit_not_space c Hc).
  assert (Hm : Ascii.eqb c "-" = false)
    by (apply eqb_code_neq; apply isdigit_code in Hc;
        change (code "-") with 45; lia).
  assert (Hp : Ascii.eqb c "+" = false)
    by (apply eqb_code_neq; apply isdigit_code in Hc;
        change (code "+") with 43; lia).
  assert (Hsplit :
    match String c (ds ++ suffix) with
    | String "-" r => (true, r)
    | String "+" r => (false, r)
    | _ => (false, String c (ds ++ suffix))
    end = (false, String c (ds ++ suffix))).
  { apply Ascii.eqb_neq in Hm, Hp.
    destruct c as [[] [] [] [] [] [] [] []]; try reflexivity; congruence. }
  rewrite Hsplit. cbn [starts_with_digit]. rewrite Hc.
  change (String c (ds ++ suffix)) with ((String c ds ++ suffix)%string).
  rewrite scan_digits_app by assumption. reflexivity.
Qed.

Lemma strtoll_digits (errno : Z) (ds suffix : string) :
  all_digits ds = true -> ds <> "" -> starts_with_digit suffix = false ->
  decimal_value 0 ds <= LLONG_MAX ->
  strtoll errno (ds ++ suffix) = (decimal_value 0 ds, suffix, errno).
Proof.
  intros Hd Hne Hs Hmax. unfold strtoll.
  rewrite scan_integer_digits by assumption.
  pose proof (decimal_value_lower ds 0 Hd ltac:(lia)) as Hlow.
  destruct (LLONG_MAX <? decimal_value 0 ds) eqn:E1; [lia|].
  destruct (decimal_value 0 ds <? LLONG_MIN) eqn:E2;
    [unfold LLONG_MIN in E2; lia|].
  reflexivity.
Qed.

Lemma not_max_digits (ds suffix : string) :
  all_digits ds = true -> ds <> "" ->
  strncmp_eq (ds ++ suffix) MAX_SIZE_STR (String.length MAX_SIZE_STR) = false.
Proof.
  intros Hd Hne. destruct ds as [|c ds]; [congruence|].
  simpl in Hd. apply andb_prop in Hd. destruct Hd as [Hc _].
  cbn. rewrite eqb_code_neq; [reflexivity|].
  apply isdigit_code in Hc. change (code "m") with 109. lia.
Qed.

(** [get_size] on digits followed by a suffix, up to the unit switch. *)
Lemma get_size_digits (errno : Z) (ds suffix : string) :
  errno <> ERANGE ->
  all_digits ds = true -> starts_with_digit suffix = false ->
  0 < decimal_value 0 ds <= LLONG_MAX ->
  get_size errno (ds ++ suffix) =
  match suffix with
  | EmptyString => Ret (decimal_value 0 ds)
  | String c _ =>
      if (strlen suffix =? 2)
         && match String.get 1 suffix with
            | Some c1 => Ascii.eqb c1 "i"
            | None => false
            end
      then scale c (decimal_value 0 ds) 1024
      else if 1 <? strlen suffix then Exit 1
      else scale c (decimal_value 0 ds) 1000
  end.
Proof.
  intros He Hd Hs Hv.
  assert (Hne : ds <> "") by (intros ->; simpl in Hv; lia).
  unfold get_size. rewrite not_max_digits by assumption.
  rewrite strtoll_digits by (assumption || lia).
  destruct (decimal_value 0 ds <=? 0) eqn:E1; [lia|].
  destruct (errno =? ERANGE) eqn:E2; [lia|].
  reflexivity.
Qed.

(** Without overflow the cascade is the product by 1000 or 1024, once
    for [k], twice for [M] and three times for [G]. *)
Lemma scale_exact (c : ascii) (size k : Z) :
  0 < size -> 0 < k -> size * k * k * k <= LLONG_MAX ->
  scale c size k =
  if Ascii.eqb c "G" then Ret (size * k * k * k)
  else if Ascii.eqb c "M" then Ret (size * k * k)
  else if Ascii.eqb c "k" then Ret (size * k)
  else Exit 1.
Proof.
  intros Hs Hk Hmax. unfold scale.
  assert (H1 : in_llong (size * k))
    by (unfold in_llong, LLONG_MIN, LLONG_MAX in *; nia).
  assert (H2 : in_llong (size * k * k))
    by (unfold in_llong, LLONG_MIN, LLONG_MAX in *; nia).
  assert (H3 : in_llong (size * k * k * k))
    by (unfold in_llong, LLONG_MIN, LLONG_MAX in *; nia).
  rewrite (mul64_exact size k H1), (mul64_exact (size * k) k H2),
    (mul64_exact (size * k * k) k H3).
  reflexivity.
Qed.

Lemma append_empty_r (s : string) : (s ++ "")%string = s.
Proof. induction s as [|c s IH]; simpl; [reflexivity | now rewrite IH]. Qed.

(** The unit ladder, for a call entered with [errno] not at ERANGE:
    a positive integer with an optional suffix becomes bytes by the
    cascade of multiplications; a bare integer is returned as it is;
    [k], [M], [G] multiply once, twice and three times by 1000, and
    [ki], [Mi], [Gi] by 1024. *)
Lemma get_size_ladder_clean_errno (errno : Z) (Herrno : errno <> ERANGE) :
  get_size errno "10k" = Ret 10000 /\
  get_size errno "10ki" = Ret 10240 /\
  get_size errno "1Gi" = Ret 1073741824 /\
  forall ds : string,
    all_digits ds = true ->
    0 < decimal_value 0 ds <= LLONG_MAX ->
    let n := decimal_value 0 ds in
    get_size errno ds = Ret n /\
    get_size errno (ds ++ "k") = Ret (mul64 n 1000) /\
    get_size errno (ds ++ "M") = Ret (mul64 (mul64 n 1000) 1000) /\
    get_size errno (ds ++ "G") =
      Ret (mul64 (mul64 (mul64 n 1000) 1000) 1000) /\
    get_size errno (ds ++ "ki") = Ret (mul64 n 1024) /\
    get_size errno (ds ++ "Mi") = Ret (mul64 (mul64 n 1024) 1024) /\
    get_size errno (ds ++ "Gi") =
      Ret (mul64 (mul64 (mul64 n 1024) 1024) 1024).
Proof.
  assert (Hex : forall ds suffix, all_digits ds = true ->
            starts_with_digit suffix = false ->
            0 < decimal_value 0 ds <= LLONG_MAX ->
            get_size errno (ds ++ suffix) = _)
    by (intros ds suffix; apply get_size_digits; assumption).
  split; [exact (Hex "10" "k" eq_refl eq_refl ltac:(cbv; split; congruence))|].
  split; [exact (Hex "10" "ki" eq_refl eq_refl ltac:(cbv; split; congruence))|].
  split; [exact (Hex "1" "Gi" eq_refl eq_refl ltac:(cbv; split; congruence))|].
  intros ds Hd Hv n.
  split.
  { rewrite <- (append_empty_r ds) at 1. apply (Hex ds "" Hd eq_refl Hv). }
  split; [exact (Hex ds "k" Hd eq_refl Hv)|].
  split; [exact (Hex ds "M" Hd eq_refl Hv)|].
  split; [exact (Hex ds "G" Hd eq_refl Hv)|].
  split; [exact (Hex ds "ki" Hd eq_refl Hv)|].
  split; [exact (Hex ds "Mi" Hd eq_refl Hv)|].
  exact (Hex ds "Gi" Hd eq_refl Hv).
Qed.

(** C8. The size parser follows the unit ladder only when [errno] is
    not ERANGE on entry: [get_size] tests [errno] after [strtoll]
    without having cleared it before.  Entered with [errno] at 0,
    ["10k"] is 10000, ["10ki"] is 10240, ["1Gi"] is 1073741824 and
    ["10"] is 10; entered with the ERANGE an earlier call left (the
    [atoi] of a [-n] beyond [long]), the same texts leave through
    [usage (1)]. *)
Theorem get_size_unit_ladder :
  (get_size 0 "10k" = Ret 10000 /\
   get_size 0 "10ki" = Ret 10240 /\
   get_size 0 "1Gi" = Ret 1073741824 /\
   get_size 0 "10" = Ret 10) /\
  (get_size ERANGE "10k" = Exit 1 /\
   get_size ERANGE "10ki" = Exit 1 /\
   get_size ERANGE "1Gi" = Exit 1 /\
   get_size ERANGE "10" = Exit 1).
Proof.
  repeat match goal with |- _ /\ _ => split end; vm_compute; reflexivity.
Qed.

(** C7. The size parser answers the MAX sentinel for ["max"] and also
    for every text that only begins with ["max"], such as ["maxfoo"]:
    the comparison looks at the first three characters only and such a
    text never reaches the numeric parsing. *)
Theorem get_size_max_by_prefix (errno : Z) :
  get_size errno "max" = Ret LLONG_MAX /\
  get_size errno "maxfoo" = Ret LLONG_MAX /\
  forall rest : string, get_size errno ("max" ++ rest) = Ret LLONG_MAX.
Proof.
  split; [reflexivity|]. split; [reflexivity|]. intros rest. reflexivity.
Qed.

(** What the size parser refuses. *)

Lemma get_size_digits_any_errno (errno : Z) (ds suffix : string) :
  all_digits ds = true -> starts_with_digit suffix = false ->
  0 < decimal_value 0 ds <= LLONG_MAX ->
  get_size errno (ds ++ suffix) =
  if errno =? ERANGE then Exit 1 else get_size 0 (ds ++ suffix).
Proof.
  intros Hd Hs Hv.
  assert (Hne : ds <> "") by (intros ->; simpl in Hv; lia).
  destruct (errno =? ERANGE) eqn:E.
  - unfold get_size. rewrite not_max_digits by assumption.
    rewrite strtoll_digits by (assumption || lia).
    rewrite E, orb_true_r. reflexivity.
  - apply Z.eqb_neq in E.
    rewrite (get_size_digits errno) by assumption.
    rewrite (get_size_digits 0) by (assumption || discriminate).
    reflexivity.
Qed.

(** Zero magnitude: digits of value zero, whatever follows them. *)
Lemma get_size_rejects_zero (errno : Z) (ds suffix : string) :
  all_digits ds = true -> ds <> "" -> starts_with_digit suffix = false ->
  decimal_value 0 ds = 0 ->
  get_size errno (ds ++ suffix) = Exit 1.
Proof.
  intros Hd Hne Hs Hv. unfold get_size.
  rewrite not_max_digits by assumption.
  rewrite strtoll_digits by (assumption || (rewrite Hv; unfold LLONG_MAX; lia)).
  rewrite Hv. reflexivity.
Qed.

(** Negative magnitude: a minus sign before the digits. *)
Lemma get_size_rejects_negative (errno : Z) (ds suffix : string) :
  all_digits ds = true -> ds <> "" -> starts_with_digit suffix = false ->
  get_size errno (String "-" ds ++ suffix) = Exit 1.
Proof.
  intros Hd Hne Hs.
  pose proof (decimal_value_lower ds 0 Hd ltac:(lia)) as Hlow.
  unfold get_size.
  change (strncmp_eq (String "-" ds ++ suffix) MAX_SIZE_STR
            (String.length MAX_SIZE_STR)) with false.
  cbv iota.
  assert (Hscan : scan_integer (String "-" ds ++ suffix)
                  = Some (- decimal_value 0 ds, suffix)).
  { unfold scan_integer.
    change (skip_space (String "-" ds ++ suffix))
      with (String "-" (ds ++ suffix)).
    cbv iota beta.
    destruct ds as [|c ds]; [congruence|].
    pose proof Hd as Hd'. cbn [all_digits] in Hd'.
    apply andb_prop in Hd'. destruct Hd' as [Hc _].
    change ((String c ds ++ suffix)%string) with (String c (ds ++ suffix)).
    cbn [starts_with_digit]. rewrite Hc.
    change (String c (ds ++ suffix)) with ((String c ds ++ suffix)%string).
    rewrite scan_digits_app by assumption. reflexivity. }
  unfold strtoll. rewrite Hscan.
  destruct (LLONG_MAX <? - decimal_value 0 ds) eqn:E1;
    [unfold LLONG_MAX in E1; lia|].
  destruct (- decimal_value 0 ds <? LLONG_MIN) eqn:E2; [reflexivity|].
  destruct (- decimal_value 0 ds <=? 0) eqn:E3; [reflexivity | lia].
Qed.

(** Overflow of the integer itself: [strtoll] reports ERANGE. *)
Lemma get_size_rejects_overflow (errno : Z) (ds suffix : string) :
  all_digits ds = true -> starts_with_digit suffix = false ->
  LLONG_MAX < decimal_value 0 ds ->
  get_size errno (ds ++ suffix) = Exit 1.
Proof.
  intros Hd Hs Hv.
  assert (Hne : ds <> "")
    by (intros ->; cbn in Hv; unfold LLONG_MAX in Hv; lia).
  unfold get_size. rewrite not_max_digits by assumption.
  unfold strtoll. rewrite scan_integer_digits by assumption.
  destruct (LLONG_MAX <? decimal_value 0 ds) eqn:E1; [|lia].
  change (ERANGE =? ERANGE) with true. rewrite orb_true_r. reflexivity.
Qed.

(** A suffix that is not one of k, M, G, ki, Mi, Gi. *)
Lemma get_size_rejects_suffix (errno : Z) (ds suffix : string) :
  all_digits ds = true -> starts_with_digit suffix = false ->
  0 < decimal_value 0 ds <= LLONG_MAX ->
  suffix <> "" -> unit_suffix suffix = false ->
  get_size errno (ds ++ suffix) = Exit 1.
Proof.
  intros Hd Hs Hv Hne Hu.
  rewrite get_size_digits_any_errno by assumption.
  destruct (errno =? ERANGE); [reflexivity|].
  rewrite get_size_digits by (assumption || discriminate).
  destruct suffix as [|c r]; [congruence|].
  unfold unit_suffix in Hu. cbn [existsb] in Hu.
  repeat (apply orb_false_iff in Hu; destruct Hu as [? Hu]).
  destruct r as [|c1 r].
  - cbn. unfold scale.
    destruct (Ascii.eqb_spec c "G") as [->|]; [discriminate|].
    destruct (Ascii.eqb_spec c "M") as [->|]; [discriminate|].
    destruct (Ascii.eqb_spec c "k") as [->|]; [discriminate|].
    reflexivity.
  - destruct r as [|c2 r].
    + cbn. destruct (Ascii.eqb_spec c1 "i") as [->|]; [|reflexivity].
      unfold scale.
      destruct (Ascii.eqb_spec c "G") as [->|]; [discriminate|].
      destruct (Ascii.eqb_spec c "M") as [->|]; [discriminate|].
      destruct (Ascii.eqb_spec c "k") as [->|]; [discriminate|].
      reflexivity.
    + unfold strlen. cbn [String.length].
      destruct (Z.eqb_spec (Z.of_nat (S (S (S (String.length r))))) 2);
        [lia|].
      destruct (Z.ltb_spec 1 (Z.of_nat (S (S (S (String.length r))))));
        [|lia].
      reflexivity.
Qed.

Lemma get_size_rejects_examples (errno : Z) :
  get_size errno "0" = Exit 1 /\ get_size errno "-5" = Exit 1 /\
  get_size errno "10x" = Exit 1 /\ get_size errno "10kik" = Exit 1.
Proof.
  split; [exact (get_size_rejects_zero errno "0" "" eq_refl
                   ltac:(discriminate) eq_refl eq_refl)|].
  split; [exact (get_size_rejects_negative errno "5" "" eq_refl
                   ltac:(discriminate) eq_refl)|].
  split.
  - apply (get_size_rejects_suffix errno "10" "x"); try reflexivity;
      try discriminate. cbv. split; congruence.
  - apply (get_size_rejects_suffix errno "10" "kik"); try reflexivity;
      try discriminate. cbv. split; congruence.
Qed.

(** C9. An overflow produced by the suffix multiplications is not
    refused: [get_size] multiplies without a check, so ["10000000000G"]
    (ten thousand million times 1000, three times over) comes back as
    the wrapped negative number -8446744073709551616 and
    ["9223372036854775807k"] as -1000, where an InvalidSize failure is
    due.  The other refusals hold: see [get_size_rejects_zero],
    [get_size_rejects_negative], [get_size_rejects_suffix],
    [get_size_rejects_overflow] and [get_size_rejects_examples]. *)
Theorem get_size_suffix_overflow_unchecked :
  get_size 0 "10000000000G" = Ret (-8446744073709551616) /\
  get_size 0 "9223372036854775807k" = Ret (-1000) /\
  LLONG_MAX < 10000000000 * 1000 * 1000 * 1000.
Proof.
  split; [vm_compute; reflexivity|].
  split; [vm_compute; reflexivity|].
  unfold LLONG_MAX. lia.
Qed.

(** ** Exception handler *)

(** A property checked on every number below [n] holds of each. *)
Lemma forall_below (P : Z -> bool) (n : nat) :
  forallb P (map Z.of_nat (seq 0 n)) = true ->
  forall z : Z, 0 <= z < Z.of_nat n -> P z = true.
Proof.
  intros H z Hz. rewrite forallb_forall in H. apply H.
  apply in_map_iff. exists (Z.to_nat z). split; [lia|].
  apply in_seq. lia.
Qed.

(** The two calls of [option_get_next] under the force-yes policy, on
    each mask of defined flags. *)
Lemma force_choice_table (options : PedExceptionOption) :
  defined_options options ->
  exists opt next : PedExceptionOption,
    option_get_next options 0 = Some opt /\
    option_get_next options opt = Some next /\
    match offered options with
    | [] => opt = 0 /\ next = 0
    | [only] => opt = only /\ next = 0
    | _ => next <> 0
    end.
Proof.
  intros H.
  assert (Hall : forallb (fun o =>
            match option_get_next o 0 with
            | Some opt =>
                match option_get_next o opt with
                | Some next =>
                    match offered o with
                    | [] => (opt =? 0) && (next =? 0)
                    | [only] => (opt =? only) && (next =? 0)
                    | _ => negb (next =? 0)
                    end
                | None => false
                end
            | None => false
            end) (map Z.of_nat (seq 0 128)) = true)
    by (vm_compute; reflexivity).
  pose proof (forall_below _ _ Hall options H) as Ho. cbv beta in Ho.
  destruct (option_get_next options 0) as [opt|] eqn:E0; [|discriminate].
  destruct (option_get_next options opt) as [next|] eqn:E1; [|discriminate].
  exists opt, next. split; [reflexivity|]. split; [exact E1|].
  destruct (offered options) as [|a [|b l]].
  - apply andb_prop in Ho. lia.
  - apply andb_prop in Ho. lia.
  - apply negb_true_iff in Ho. lia.
Qed.

Lemma ignore_cancel_offered (options : PedExceptionOption) :
  defined_options options ->
  (options = PED_EXCEPTION_IGNORE_CANCEL <->
   offered options = [PED_EXCEPTION_IGNORE; PED_EXCEPTION_CANCEL]).
Proof.
  intros H.
  assert (Hall : forallb (fun o =>
            Bool.eqb (o =? PED_EXCEPTION_IGNORE_CANCEL)
              (if list_eq_dec Z.eq_dec (offered o)
                    [PED_EXCEPTION_IGNORE; PED_EXCEPTION_CANCEL]
               then true else false)) (map Z.of_nat (seq 0 128)) = true)
    by (vm_compute; reflexivity).
  pose proof (forall_below _ _ Hall options H) as Ho. cbv beta in Ho.
  apply Bool.eqb_prop in Ho.
  destruct (list_eq_dec Z.eq_dec (offered options)
              [PED_EXCEPTION_IGNORE; PED_EXCEPTION_CANCEL]) as [e|n].
  - split; [intros _; exact e | intros _; apply Z.eqb_eq; exact Ho].
  - split; [intros ->; discriminate | intros e; contradiction].
Qed.

(** The forced branch of the handler, in terms of the offered options. *)
Lemma fatresize_handler_forced (force_yes : Z) (ex : PedException)
  (stdin : list string) :
  force_yes <> 0 ->
  info_or_warning (ex_type ex) = true ->
  defined_options (ex_options ex) ->
  fatresize_handler force_yes ex stdin =
  Some (if list_eq_dec Z.eq_dec (offered (ex_options ex))
              [PED_EXCEPTION_IGNORE; PED_EXCEPTION_CANCEL]
        then PED_EXCEPTION_IGNORE
        else match offered (ex_options ex) with
             | [only] => only
             | _ => PED_EXCEPTION_UNHANDLED
             end,
        stdin).
Proof.
  intros Hforce Htype Hopts.
  destruct (force_choice_table _ Hopts) as (opt & next & H0 & H1 & Hsel).
  pose proof (ignore_cancel_offered _ Hopts) as Hic.
  assert (Hf : negb (force_yes =? 0) = true)
    by (apply negb_true_iff, Z.eqb_neq; exact Hforce).
  assert (Hbody : (if negb (force_yes =? 0) then
      if ex_options ex =? PED_EXCEPTION_IGNORE_CANCEL
      then Some (PED_EXCEPTION_IGNORE, stdin)
      else
        match option_get_next (ex_options ex) 0 with
        | None => None
        | Some opt =>
            match option_get_next (ex_options ex) opt with
            | None => None
            | Some next =>
                if next =? 0 then Some (opt, stdin)
                else Some (PED_EXCEPTION_UNHANDLED, stdin)
            end
        end
    else ask_for_option ex stdin) =
    Some (if list_eq_dec Z.eq_dec (offered (ex_options ex))
              [PED_EXCEPTION_IGNORE; PED_EXCEPTION_CANCEL]
        then PED_EXCEPTION_IGNORE
        else match offered (ex_options ex) with
             | [only] => only
             | _ => PED_EXCEPTION_UNHANDLED
             end,
        stdin)).
  { rewrite Hf, H0, H1.
    destruct (Z.eqb_spec (ex_options ex) PED_EXCEPTION_IGNORE_CANCEL) as [e|n].
    - destruct (list_eq_dec Z.eq_dec (offered (ex_options ex))
                  [PED_EXCEPTION_IGNORE; PED_EXCEPTION_CANCEL]) as [_|n'];
        [reflexivity|]. exfalso. apply n', Hic, e.
    - destruct (list_eq_dec Z.eq_dec (offered (ex_options ex))
                  [PED_EXCEPTION_IGNORE; PED_EXCEPTION_CANCEL]) as [e'|_];
        [exfalso; apply n, Hic, e'|].
      destruct (offered (ex_options ex)) as [|a [|b l]].
      + destruct Hsel as [-> ->]. reflexivity.
      + destruct Hsel as [-> ->]. reflexivity.
      + destruct (Z.eqb_spec next 0); [contradiction | reflexivity]. }
  unfold fatresize_handler.
  destruct (ex_type ex); try discriminate; exact Hbody.
Qed.

(** C5. Under the force-accept policy an INFO or WARNING event is
    resolved without reading input (the input lines come back
    untouched): to IGNORE when the offered options are exactly IGNORE
    and CANCEL, else to the option offered when there is exactly one,
    else to UNHANDLED. *)
Theorem force_accept_resolution (force_yes : Z) (ex : PedException)
  (stdin : list string) :
  force_yes <> 0 ->
  info_or_warning (ex_type ex) = true ->
  defined_options (ex_options ex) ->
  fatresize_handler force_yes ex stdin =
  Some (if list_eq_dec Z.eq_dec (offered (ex_options ex))
              [PED_EXCEPTION_IGNORE; PED_EXCEPTION_CANCEL]
        then PED_EXCEPTION_IGNORE
        else match offered (ex_options ex) with
             | [only] => only
             | _ => PED_EXCEPTION_UNHANDLED
             end,
        stdin).
Proof. apply fatresize_handler_forced. Qed.

(** The witness of C5: a warning that offers IGNORE and CANCEL, with
    one line waiting on the input. *)
Lemma force_accept_resolution_witness :
  fatresize_handler 1
    (mkException "w" PED_EXCEPTION_WARNING PED_EXCEPTION_IGNORE_CANCEL)
    ["cancel" ++ String "010" ""] =
  Some (PED_EXCEPTION_IGNORE, ["cancel" ++ String "010" ""]).
Proof.
  apply (force_accept_resolution 1
           (mkException "w" PED_EXCEPTION_WARNING PED_EXCEPTION_IGNORE_CANCEL)).
  - discriminate.
  - reflexivity.
  - cbv. split; [intro; discriminate | reflexivity].
Defined.

(** The loops of [ask_for_option] visit the offered options, in
    ascending order. *)
Lemma enum_offered (options : PedExceptionOption) :
  defined_options options ->
  exists first : PedExceptionOption,
    option_get_next options 0 = Some first /\
    enum_from int_bits options first = Some (offered options).
Proof.
  intros H.
  assert (Hall : forallb (fun o =>
            match option_get_next o 0 with
            | Some first =>
                match enum_from int_bits o first with
                | Some l =>
                    if list_eq_dec Z.eq_dec l (offered o) then true else false
                | None => false
                end
            | None => false
            end) (map Z.of_nat (seq 0 128)) = true)
    by (vm_compute; reflexivity).
  pose proof (forall_below _ _ Hall options H) as Ho. cbv beta in Ho.
  destruct (option_get_next options 0) as [first|]; [|discriminate].
  exists first. split; [reflexivity|].
  destruct (enum_from int_bits options first) as [l|]; [|discriminate].
  destruct (list_eq_dec Z.eq_dec l (offered options)) as [->|];
    [reflexivity | discriminate].
Qed.

Lemma match_from_enum (buffer : string) (options : PedExceptionOption)
  (fuel : nat) :
  forall (opt : PedExceptionOption) (l : list PedExceptionOption),
    enum_from fuel options opt = Some l ->
    match_from fuel options opt buffer =
    Some (match find (names buffer) l with Some o => o | None => 0 end).
Proof.
  induction fuel as [|fuel IH]; intros opt l He; [discriminate|].
  cbn [enum_from match_from] in *.
  destruct (opt =? 0).
  - injection He as <-. reflexivity.
  - destruct (option_get_next options opt) as [opt'|]; [|discriminate].
    destruct (enum_from fuel options opt') as [l'|] eqn:El; [|discriminate].
    injection He as <-. cbn [find]. unfold names at 1.
    destruct (strcasecmp_eq buffer (ped_exception_get_option_string opt));
      [reflexivity | apply IH; exact El].
Qed.

Lemma prompt_from_enum (options : PedExceptionOption) (fuel : nat) :
  forall (opt i : Z) (l : list PedExceptionOption),
    enum_from fuel options opt = Some l ->
    exists text : string, prompt_from fuel options opt i = Some text.
Proof.
  induction fuel as [|fuel IH]; intros opt i l He; [discriminate|].
  cbn [enum_from prompt_from] in *.
  destruct (opt =? 0); [eexists; reflexivity|].
  destruct (option_get_next options opt) as [opt'|]; [|discriminate].
  destruct (enum_from fuel options opt') as [l'|] eqn:El; [|discriminate].
  destruct (IH opt' (i + 1) l' El) as [text Ht]. rewrite Ht.
  eexists; reflexivity.
Qed.

Lemma offered_nonzero (options opt : PedExceptionOption) :
  In opt (offered options) -> opt <> 0.
Proof.
  unfold offered. intros H. apply filter_In in H. destruct H as [H _].
  cbv in H. intuition (subst; discriminate).
Qed.

Lemma chosen_nonzero (options : PedExceptionOption) (line : string)
  (opt : PedExceptionOption) :
  chosen options line = Some opt -> opt <> 0.
Proof.
  unfold chosen. intros H. apply find_some in H.
  apply (offered_nonzero options), H.
Qed.

(** The prompt of the source does what the spec says of it, and ends
    for every input. *)
Lemma ask_for_option_outcome (ex : PedException) (stdin : list string) :
  defined_options (ex_options ex) ->
  ask_for_option ex stdin = Some (prompt_outcome (ex_options ex) stdin).
Proof.
  intros H. destruct (enum_offered _ H) as (first & H0 & He).
  destruct (prompt_from_enum _ _ _ 0 _ He) as [text Ht].
  induction stdin as [|line rest IH]; cbn [ask_for_option prompt_outcome].
  - rewrite H0, Ht. reflexivity.
  - rewrite H0, Ht, (match_from_enum (chop line) _ _ _ _ He).
    fold (chosen (ex_options ex) line).
    destruct (chosen (ex_options ex) line) as [opt|] eqn:Ec.
    + apply chosen_nonzero in Ec. destruct (Z.eqb_spec opt 0); [contradiction|].
      reflexivity.
    + exact IH.
Qed.

(** When the prompt ends on CANCEL. *)
Lemma prompt_outcome_cancel (options : PedExceptionOption)
  (stdin rest : list string) :
  prompt_outcome options stdin = (PED_EXCEPTION_CANCEL, rest) ->
  Forall (fun line => chosen options line = None) stdin \/
  exists (pre : list string) (line : string),
    stdin = (pre ++ line :: rest)%list /\
    Forall (fun line => chosen options line = None) pre /\
    chosen options line = Some PED_EXCEPTION_CANCEL.
Proof.
  induction stdin as [|line more IH]; cbn [prompt_outcome]; intros H.
  - left. constructor.
  - destruct (chosen options line) as [opt|] eqn:Ec.
    + injection H as -> ->. right. exists [], line. auto.
    + destruct (IH H) as [Hall | (pre & l & -> & Hpre & Hl)].
      * left. constructor; assumption.
      * right. exists (line :: pre), l. repeat split; auto.
Qed.

Lemma prompt_outcome_eof (options : PedExceptionOption) (stdin : list string) :
  Forall (fun line => chosen options line = None) stdin ->
  prompt_outcome options stdin = (PED_EXCEPTION_CANCEL, []).
Proof.
  induction 1 as [|line rest Hl _ IH]; cbn [prompt_outcome];
    [reflexivity|]. rewrite Hl. exact IH.
Qed.

(** C6, as amended.  The handler resolves to CANCEL for every event
    that is not an INFO or a WARNING (ERROR and FATAL among them),
    whatever is offered, and at the prompt for every input that ends
    before a line names an offered option.  These are not the only
    cases: it also resolves to CANCEL when CANCEL is the one option
    offered under the force-accept policy, and when the first line to
    name an offered option names CANCEL; there is no other case. *)
Theorem handler_cancel_cases (force_yes : Z) (ex : PedException)
  (stdin : list string) :
  (info_or_warning (ex_type ex) = false ->
   fatresize_handler force_yes ex stdin = Some (PED_EXCEPTION_CANCEL, stdin))
  /\
  (info_or_warning (ex_type ex) = true ->
   defined_options (ex_options ex) -> force_yes = 0 ->
   Forall (fun line => chosen (ex_options ex) line = None) stdin ->
   fatresize_handler force_yes ex stdin = Some (PED_EXCEPTION_CANCEL, []))
  /\
  (defined_options (ex_options ex) ->
   forall rest : list string,
     fatresize_handler force_yes ex stdin = Some (PED_EXCEPTION_CANCEL, rest) ->
     info_or_warning (ex_type ex) = false \/
     (force_yes <> 0 /\ offered (ex_options ex) = [PED_EXCEPTION_CANCEL]) \/
     (force_yes = 0 /\
      (Forall (fun line => chosen (ex_options ex) line = None) stdin \/
       exists (pre : list string) (line : string),
         stdin = (pre ++ line :: rest)%list /\
         Forall (fun line => chosen (ex_options ex) line = None) pre /\
         chosen (ex_options ex) line = Some PED_EXCEPTION_CANCEL))).
Proof.
  split; [|split].
  - intros Ht. unfold fatresize_handler.
    destruct (ex_type ex); try discriminate; reflexivity.
  - intros Ht Hopts -> Hall.
    assert (Hask : fatresize_handler 0 ex stdin = ask_for_option ex stdin)
      by (unfold fatresize_handler; destruct (ex_type ex);
          try discriminate; reflexivity).
    rewrite Hask, ask_for_option_outcome, prompt_outcome_eof by assumption.
    reflexivity.
  - intros Hopts rest Hres.
    destruct (info_or_warning (ex_type ex)) eqn:Ht; [right | left; reflexivity].
    destruct (Z.eq_dec force_yes 0) as [->|Hforce].
    + right. split; [reflexivity|].
      assert (Hask : fatresize_handler 0 ex stdin = ask_for_option ex stdin)
        by (unfold fatresize_handler; destruct (ex_type ex);
            try discriminate; reflexivity).
      rewrite Hask, ask_for_option_outcome in Hres by assumption.
      injection Hres as Hres. apply prompt_outcome_cancel, Hres.
    + left. split; [exact Hforce|].
      rewrite (fatresize_handler_forced force_yes ex stdin Hforce Ht Hopts)
        in Hres.
      injection Hres as Hres _.
      destruct (list_eq_dec Z.eq_dec (offered (ex_options ex))
                  [PED_EXCEPTION_IGNORE; PED_EXCEPTION_CANCEL]);
        [discriminate|].
      destruct (offered (ex_options ex)) as [|a [|b l]];
        try discriminate. rewrite Hres. reflexivity.
Qed.

(** The witness of C6: an interactive warning whose input ends after
    a line that names no offered option. *)
Lemma handler_cancel_cases_witness :
  fatresize_handler 0
    (mkException "w" PED_EXCEPTION_WARNING PED_EXCEPTION_IGNORE_CANCEL)
    ["maybe" ++ String "010" ""] = Some (PED_EXCEPTION_CANCEL, []).
Proof.
  apply (proj1 (proj2 (handler_cancel_cases 0
           (mkException "w" PED_EXCEPTION_WARNING PED_EXCEPTION_IGNORE_CANCEL)
           ["maybe" ++ String "010" ""]))).
  - reflexivity.
  - cbv. split; [intro; discriminate | reflexivity].
  - reflexivity.
  - repeat constructor.
Defined.

(** C6, the claim as it stands, fails: a WARNING that offers CANCEL
    alone resolves to CANCEL under the force-accept policy, with no
    prompt and no ERROR or FATAL severity; and at the prompt a line
    that names CANCEL resolves to CANCEL although the input has not
    ended and a matching line was read. *)
Lemma cancel_outside_claimed_cases :
  info_or_warning PED_EXCEPTION_WARNING = true /\
  fatresize_handler 1
    (mkException "w" PED_EXCEPTION_WARNING PED_EXCEPTION_CANCEL) [] =
  Some (PED_EXCEPTION_CANCEL, []) /\
  chosen PED_EXCEPTION_IGNORE_CANCEL ("Cancel" ++ String "010" "") =
  Some PED_EXCEPTION_CANCEL /\
  fatresize_handler 0
    (mkException "w" PED_EXCEPTION_WARNING PED_EXCEPTION_IGNORE_CANCEL)
    ["Cancel" ++ String "010" ""; "ignore" ++ String "010" ""] =
  Some (PED_EXCEPTION_CANCEL, ["ignore" ++ String "010" ""]).
Proof. repeat split. Qed.

(** ** Boundary snapper *)

Lemma inside_bounds (g : PedGeometry) (s : PedSector) :
  inside g s = true <-> geom_start g <= s <= geom_end g.
Proof.
  unfold ped_geometry_test_sector_inside. rewrite andb_true_iff. lia.
Qed.

(** [try_snap] adopts the first replacement that lies in the range; it
    asserts that the sector itself lies there as soon as there is a
    replacement to try. *)
Lemma try_snap_candidates (range : PedGeometry) (args : list PedSector)
  (sector : PedSector) :
  try_snap sector range args =
  match candidates args with
  | [] => Ret sector
  | _ :: _ =>
      if inside range sector
      then Ret (match find (inside range) (candidates args) with
                | Some c => c
                | None => sector
                end)
      else Abort
  end.
Proof.
  induction args as [|a more IH]; cbn [try_snap candidates]; [reflexivity|].
  destruct (a =? -1); [reflexivity|].
  unfold snap. destruct (inside range sector) eqn:Hs; cbn [negb]; [|reflexivity].
  cbn [find]. destruct (inside range a) eqn:Ha; cbn [negb].
  - reflexivity.
  - change (negb (0 =? 0)) with false. cbv iota. rewrite IH.
    destruct (candidates more); reflexivity.
Qed.

(** A sector offered to itself as the first replacement. *)
Lemma try_snap_first (range : PedGeometry) (more : list PedSector)
  (sector : PedSector) :
  sector <> -1 ->
  try_snap sector range (sector :: more) =
  if inside range sector then Ret sector else Abort.
Proof.
  intros H. rewrite try_snap_candidates. cbn [candidates].
  destruct (Z.eqb_spec sector (-1)); [contradiction|].
  cbn [find]. destruct (inside range sector); reflexivity.
Qed.

Lemma lookup_some (disk : PedDisk) (s : PedSector) (p : PedPartition) :
  ped_disk_get_partition_by_sector disk s = Some p ->
  In p disk /\ part_extended p = false /\ inside (part_geom p) s = true.
Proof.
  induction disk as [|walk rest IH]; cbn [ped_disk_get_partition_by_sector];
    [discriminate|].
  destruct (inside (part_geom walk) s && negb (part_extended walk)) eqn:E.
  - intros [= <-]. apply andb_prop in E. destruct E as [E1 E2].
    apply negb_true_iff in E2. repeat split; [left; reflexivity | | ]; assumption.
  - intros H. destruct (IH H) as (Hin & He & Hi).
    repeat split; [right|..]; assumption.
Qed.

(** A well-formed geometry rewritten with its own start and end. *)
Lemma ped_geometry_set_same (g new_geom : PedGeometry) :
  geom_ok g ->
  ped_geometry_set new_geom (geom_start g)
    (add64 (sub64 (geom_end g) (geom_start g)) 1) = Ret (1, g).
Proof.
  intros (Hs & Hl & He & Hm). unfold ped_geometry_set, add64, sub64.
  rewrite wrap64_add_l.
  replace (geom_end g - geom_start g + 1) with (geom_length g) by lia.
  rewrite (wrap64_id (geom_length g))
    by (unfold in_llong, LLONG_MIN, LLONG_MAX in *; lia).
  destruct (Z.ltb_spec (geom_start g) 0); [lia|].
  destruct (Z.ltb_spec (geom_length g) 1); [lia|].
  rewrite wrap64_sub_l, wrap64_id
    by (unfold in_llong, LLONG_MIN, LLONG_MAX in *; lia).
  rewrite <- He. destruct g; reflexivity.
Qed.

Lemma geom_ok_eq (g h : PedGeometry) :
  geom_ok g -> geom_ok h ->
  geom_start g = geom_start h -> geom_end g = geom_end h -> g = h.
Proof.
  intros (_ & _ & Eg & _) (_ & _ & Eh & _) Hs He.
  destruct g as [gs gl ge], h as [hs hl he]; cbn in *. f_equal; lia.
Qed.

(** C3. When the requested range has the start and the end of the old
    geometry, [snap_to_boundaries] leaves it equal to the old geometry,
    start, end and length: whatever the table and the two ranges, the
    range is the old geometry once the call is over, and the call
    returns it whenever the start lies in a partition of the table and,
    if the end does too, the start and the end lie in their ranges (the
    conditions the function asserts). *)
Theorem snap_to_boundaries_noop (new_geom old_geom : PedGeometry)
  (disk : PedDisk) (start_range end_range : PedGeometry) :
  geom_ok old_geom -> geom_ok new_geom ->
  geom_start new_geom = geom_start old_geom ->
  geom_end new_geom = geom_end old_geom ->
  range_after new_geom
    (snap_to_boundaries new_geom (Some old_geom) disk start_range end_range)
  = old_geom /\
  (ped_disk_get_partition_by_sector disk (geom_start old_geom) <> None ->
   (ped_disk_get_partition_by_sector disk (geom_end old_geom) <> None ->
    inside start_range (geom_start old_geom) = true /\
    inside end_range (geom_end old_geom) = true) ->
   snap_to_boundaries new_geom (Some old_geom) disk start_range end_range
   = Ret old_geom).
Proof.
  intros Hold Hnew Hs He.
  assert (new_geom = old_geom) as -> by (apply geom_ok_eq; assumption).
  clear Hnew Hs He.
  pose proof Hold as (Hs0 & Hl & Hend & Hmax).
  unfold snap_to_boundaries.
  destruct (ped_disk_get_partition_by_sector disk (geom_start old_geom))
    as [sp|]; [|split; [reflexivity | congruence]].
  destruct (ped_disk_get_partition_by_sector disk (geom_end old_geom))
    as [ep|]; [|split; reflexivity].
  cbn [start_args end_args]. rewrite !try_snap_first by lia.
  destruct (inside start_range (geom_start old_geom)) eqn:His.
  - destruct (inside end_range (geom_end old_geom)) eqn:Hie.
    + destruct (Z.leb_spec (geom_start old_geom) (geom_end old_geom)); [|lia].
      cbn [negb]. rewrite ped_geometry_set_same by assumption.
      split; reflexivity.
    + split; [reflexivity|]. intros _ H.
      destruct (H ltac:(discriminate)) as [_ ?]. discriminate.
  - split; [reflexivity|]. intros _ H.
    destruct (H ltac:(discriminate)) as [? _]. discriminate.
Qed.

(** The witness of C3: a partition on sectors 2048 to 3047, offered
    its own geometry, with one-sector ranges on its start and end. *)
Lemma snap_to_boundaries_noop_witness :
  snap_to_boundaries (mkGeom 2048 1000 3047) (Some (mkGeom 2048 1000 3047))
    [mkPart (mkGeom 2048 1000 3047) false 1 (Some "fat32")]
    (mkGeom 2048 1 2048) (mkGeom 3047 1 3047)
  = Ret (mkGeom 2048 1000 3047).
Proof.
  assert (Hok : geom_ok (mkGeom 2048 1000 3047))
    by (unfold geom_ok, LLONG_MAX; cbn; lia).
  apply (proj2 (snap_to_boundaries_noop (mkGeom 2048 1000 3047)
                  (mkGeom 2048 1000 3047)
                  [mkPart (mkGeom 2048 1000 3047) false 1 (Some "fat32")]
                  (mkGeom 2048 1 2048) (mkGeom 3047 1 3047)
                  Hok Hok eq_refl eq_refl)).
  - discriminate.
  - intros _. split; reflexivity.
Defined.

(** With the end range pinned on one sector, a requested end on
    another sector does not snap: the assertion of [snap] on the end
    stops the call (when both ends lie in partitions of the table and
    the start went through). *)
Lemma snap_pinned_end_aborts (new_geom old_geom : PedGeometry)
  (disk : PedDisk) (start_range : PedGeometry) (pinned : PedSector)
  (sp ep : PedPartition) (start' : PedSector) :
  geom_end new_geom <> pinned -> geom_end old_geom <> -1 ->
  ped_disk_get_partition_by_sector disk (geom_start new_geom) = Some sp ->
  ped_disk_get_partition_by_sector disk (geom_end new_geom) = Some ep ->
  try_snap (geom_start new_geom) start_range (start_args (Some old_geom) sp)
  = Ret start' ->
  snap_to_boundaries new_geom (Some old_geom) disk start_range
    (mkGeom pinned 1 pinned) = Abort.
Proof.
  intros Hne Hold Hsp Hep Hstart. unfold snap_to_boundaries.
  rewrite Hsp, Hep, Hstart. cbn [end_args try_snap].
  destruct (Z.eqb_spec (geom_end old_geom) (-1)); [contradiction|].
  unfold snap.
  assert (Hout : inside (mkGeom pinned 1 pinned) (geom_end new_geom) = false).
  { unfold ped_geometry_test_sector_inside. cbn [geom_start geom_end].
    apply andb_false_iff. lia. }
  rewrite Hout. reflexivity.
Qed.

(** *** Snapping twice *)

Lemma wrap64_add_r (a b : Z) : wrap64 (a + wrap64 b) = wrap64 (a + b).
Proof. rewrite (Z.add_comm a), wrap64_add_l. f_equal. lia. Qed.

(** The end [ped_geometry_set] computes from a start and the length
    of a range that ends at [e] is [e]. *)
Lemma geometry_end_back (s e : PedSector) :
  in_llong e -> sub64 (add64 s (add64 (sub64 e s) 1)) 1 = e.
Proof.
  intros H. unfold sub64, add64.
  rewrite wrap64_sub_l.
  replace (s + wrap64 (wrap64 (e - s) + 1) - 1)
    with (s - 1 + wrap64 (wrap64 (e - s) + 1)) by lia.
  rewrite wrap64_add_r.
  replace (s - 1 + (wrap64 (e - s) + 1)) with (s + wrap64 (e - s)) by lia.
  rewrite wrap64_add_r.
  replace (s + (e - s)) with e by lia. apply wrap64_id, H.
Qed.

Lemma try_snap_in_llong (range : PedGeometry) (args : list PedSector) :
  forall sector sector' : PedSector,
    try_snap sector range args = Ret sector' ->
    in_llong sector -> Forall in_llong args -> in_llong sector'.
Proof.
  induction args as [|a more IH]; intros sector sector' H Hs Ha;
    cbn [try_snap] in H.
  - injection H as <-. exact Hs.
  - inversion Ha as [|? ? Ha1 Ha2]; subst.
    destruct (a =? -1); [injection H as <-; exact Hs|].
    unfold snap in H.
    destruct (inside range sector); cbn [negb] in H; [|discriminate].
    destruct (inside range a); cbn [negb] in H.
    + injection H as <-. exact Ha1.
    + apply (IH sector sector'); assumption.
Qed.

(** In a table without overlap, the partition found at a sector is the
    one found at any other sector it holds. *)
Lemma same_partition (disk : PedDisk) (s t : PedSector)
  (p q : PedPartition) :
  disk_disjoint disk ->
  ped_disk_get_partition_by_sector disk s = Some p ->
  ped_disk_get_partition_by_sector disk t = Some q ->
  inside (part_geom p) t = true ->
  part_geom q = part_geom p.
Proof.
  intros Hd Hp Hq Hin.
  apply lookup_some in Hp, Hq.
  destruct Hp as (Hp1 & Hp2 & _), Hq as (Hq1 & Hq2 & Hq3).
  apply (Hd q p t); assumption.
Qed.

(** The partition found just after the end of another starts there. *)
Lemma next_partition_start (disk : PedDisk) (s : PedSector)
  (p q : PedPartition) :
  disk_disjoint disk -> disk_typed disk ->
  ped_disk_get_partition_by_sector disk s = Some p ->
  ped_disk_get_partition_by_sector disk (add64 (geom_end (part_geom p)) 1)
  = Some q ->
  geom_start (part_geom q) = add64 (geom_end (part_geom p)) 1.
Proof.
  intros Hd Ht Hp Hq.
  pose proof (lookup_some _ _ _ Hp) as (Hp1 & Hp2 & Hp3).
  pose proof (lookup_some _ _ _ Hq) as (Hq1 & Hq2 & Hq3).
  destruct (Ht p Hp1) as [_ Hpe]. destruct (Ht q Hq1) as [Hqs _].
  apply inside_bounds in Hp3, Hq3.
  unfold add64 in *.
  destruct (Z.eq_dec (geom_end (part_geom p)) LLONG_MAX) as [Hmax|Hmax].
  - rewrite Hmax in *.
    change (wrap64 (LLONG_MAX + 1)) with LLONG_MIN in *.
    unfold in_llong in Hqs. lia.
  - rewrite wrap64_id in *
      by (unfold in_llong, LLONG_MIN, LLONG_MAX in *; lia).
    destruct (Z.eq_dec (geom_start (part_geom q))
                (geom_end (part_geom p) + 1)) as [|Hne]; [assumption|].
    exfalso.
    assert (Hshare : inside (part_geom q) (geom_end (part_geom p)) = true)
      by (apply inside_bounds; lia).
    assert (Hown : inside (part_geom p) (geom_end (part_geom p)) = true)
      by (apply inside_bounds; lia).
    pose proof (Hd q p _ Hq1 Hp1 Hq2 Hp2 Hshare Hown) as Heq.
    rewrite Heq in Hq3. lia.
Qed.

(** The partition found just before the start of another ends there. *)
Lemma previous_partition_end (disk : PedDisk) (s : PedSector)
  (p q : PedPartition) :
  disk_disjoint disk -> disk_typed disk ->
  ped_disk_get_partition_by_sector disk s = Some p ->
  ped_disk_get_partition_by_sector disk (sub64 (geom_start (part_geom p)) 1)
  = Some q ->
  geom_end (part_geom q) = sub64 (geom_start (part_geom p)) 1.
Proof.
  intros Hd Ht Hp Hq.
  pose proof (lookup_some _ _ _ Hp) as (Hp1 & Hp2 & Hp3).
  pose proof (lookup_some _ _ _ Hq) as (Hq1 & Hq2 & Hq3).
  destruct (Ht p Hp1) as [Hps _]. destruct (Ht q Hq1) as [_ Hqe].
  apply inside_bounds in Hp3, Hq3.
  unfold sub64 in *.
  destruct (Z.eq_dec (geom_start (part_geom p)) LLONG_MIN) as [Hmin|Hmin].
  - rewrite Hmin in *.
    change (wrap64 (LLONG_MIN - 1)) with LLONG_MAX in *.
    unfold in_llong in Hqe. lia.
  - rewrite wrap64_id in *
      by (unfold in_llong, LLONG_MIN, LLONG_MAX in *; lia).
    destruct (Z.eq_dec (geom_end (part_geom q))
                (geom_start (part_geom p) - 1)) as [|Hne]; [assumption|].
    exfalso.
    assert (Hshare : inside (part_geom q) (geom_start (part_geom p)) = true)
      by (apply inside_bounds; lia).
    assert (Hown : inside (part_geom p) (geom_start (part_geom p)) = true)
      by (apply inside_bounds; lia).
    pose proof (Hd q p _ Hq1 Hp1 Hq2 Hp2 Hshare Hown) as Heq.
    rewrite Heq in Hq3. lia.
Qed.

(** A sector that [try_snap] found in the range stays in the range. *)
Lemma try_snap_inside (range : PedGeometry) (args : list PedSector) :
  forall sector sector' : PedSector,
    try_snap sector range args = Ret sector' ->
    inside range sector = true -> inside range sector' = true.
Proof.
  induction args as [|a more IH]; intros sector sector' H Hs;
    cbn [try_snap] in H.
  - injection H as <-. exact Hs.
  - destruct (a =? -1); [injection H as <-; exact Hs|].
    unfold snap in H. rewrite Hs in H. cbn [negb] in H.
    destruct (inside range a) eqn:Ha; cbn [negb] in H.
    + injection H as <-. exact Ha.
    + apply (IH sector sector'); assumption.
Qed.

(** One side of the snapping, run again on its own result.  [a], [b]
    are the boundaries tried the first time and [a'], [b'] the ones
    tried the second time; [head] is tried before them both times. *)
Lemma pair_stable (range : PedGeometry) (s s' a b a' b' : PedSector) :
  try_snap s range [a; b; -1] = Ret s' ->
  (s' = s -> a' = a /\ b' = b) ->
  (s' = a -> a' = a /\ b' = b) ->
  (s' = b -> a' = b) ->
  try_snap s' range [a'; b'; -1] = Ret s'.
Proof.
  intros H H0 Ha Hb. cbn [try_snap] in H. unfold snap in H.
  destruct (Z.eqb_spec a (-1)) as [Ea|Ea].
  - injection H as <-. destruct (H0 eq_refl) as [-> ->].
    cbn [try_snap]. destruct (Z.eqb_spec a (-1)); [reflexivity|contradiction].
  - destruct (inside range s) eqn:Hs; cbn [negb] in H; [|discriminate].
    destruct (inside range a) eqn:Hia; cbn [negb] in H.
    + injection H as <-. destruct (Ha eq_refl) as [-> ->].
      cbn [try_snap]. unfold snap.
      destruct (Z.eqb_spec a (-1)); [contradiction|].
      rewrite Hia. reflexivity.
    + change (negb (0 =? 0)) with false in H. cbv iota in H.
      destruct (Z.eqb_spec b (-1)) as [Eb|Eb].
      * injection H as <-. destruct (H0 eq_refl) as [-> ->].
        cbn [try_snap]. unfold snap.
        destruct (Z.eqb_spec a (-1)); [contradiction|].
        rewrite Hs, Hia. cbn [negb].
        change (negb (0 =? 0)) with false. cbv iota.
        destruct (Z.eqb_spec b (-1)); [reflexivity|contradiction].
      * rewrite Hs in H. cbn [negb] in H.
        destruct (inside range b) eqn:Hib; cbn [negb] in H.
        -- injection H as <-. rewrite (Hb eq_refl).
           cbn [try_snap]. unfold snap.
           destruct (Z.eqb_spec b (-1)); [contradiction|].
           rewrite Hib. reflexivity.
        -- change (negb (0 =? 0)) with false in H. cbv iota in H.
           change (-1 =? -1) with true in H. cbv iota in H.
           injection H as <-. destruct (H0 eq_refl) as [-> ->].
           cbn [try_snap]. unfold snap.
           destruct (Z.eqb_spec a (-1)); [contradiction|].
           rewrite Hs, Hia. cbn [negb].
           change (negb (0 =? 0)) with false. cbv iota.
           destruct (Z.eqb_spec b (-1)); [contradiction|].
           rewrite Hs, Hib. reflexivity.
Qed.

Lemma side_stable (range : PedGeometry) (head : list PedSector)
  (a b a' b' : PedSector) :
  forall s s' : PedSector,
    try_snap s range (head ++ [a; b; -1]) = Ret s' ->
    (s' = s -> a' = a /\ b' = b) ->
    (s' = a -> a' = a /\ b' = b) ->
    (s' = b -> a' = b) ->
    try_snap s' range (head ++ [a'; b'; -1]) = Ret s'.
Proof.
  induction head as [|o head IH]; intros s s' H H0 Ha Hb.
  - apply (pair_stable range s s' a b); assumption.
  - cbn [app try_snap] in H |- *.
    destruct (Z.eqb_spec o (-1)); [reflexivity|].
    unfold snap in H |- *.
    destruct (inside range s) eqn:Hs; cbn [negb] in H; [|discriminate].
    destruct (inside range o) eqn:Hio; cbn [negb] in H.
    + injection H as <-. rewrite Hio. reflexivity.
    + change (negb (0 =? 0)) with false in H. cbv iota in H.
      rewrite (try_snap_inside _ _ _ _ H Hs). cbn [negb].
      change (negb (0 =? 0)) with false. cbv iota.
      apply (IH s s'); assumption.
Qed.

Lemma start_args_split (old_geom : option PedGeometry) (p : PedPartition) :
  start_args old_geom p =
  (match old_geom with Some old => [geom_start old] | None => [] end
   ++ [geom_start (part_geom p); add64 (geom_end (part_geom p)) 1; -1])%list.
Proof. destruct old_geom; reflexivity. Qed.

Lemma end_args_split (old_geom : option PedGeometry) (p : PedPartition) :
  end_args old_geom p =
  (match old_geom with Some old => [geom_end old] | None => [] end
   ++ [geom_end (part_geom p); sub64 (geom_start (part_geom p)) 1; -1])%list.
Proof. destruct old_geom; reflexivity. Qed.

(** The start, snapped, snaps to itself. *)
Lemma start_side_stable (disk : PedDisk) (old_geom : option PedGeometry)
  (range : PedGeometry) (s s' : PedSector) (p p' : PedPartition) :
  disk_disjoint disk -> disk_typed disk ->
  ped_disk_get_partition_by_sector disk s = Some p ->
  ped_disk_get_partition_by_sector disk s' = Some p' ->
  try_snap s range (start_args old_geom p) = Ret s' ->
  try_snap s' range (start_args old_geom p') = Ret s'.
Proof.
  intros Hd Ht Hp Hp' H. rewrite start_args_split in H |- *.
  pose proof (lookup_some _ _ _ Hp) as (_ & _ & Hin).
  apply inside_bounds in Hin.
  apply (side_stable _ _ _ _ _ _ s s' H).
  - intros ->. rewrite Hp in Hp'. injection Hp' as <-. split; reflexivity.
  - intros ->.
    rewrite (same_partition disk s _ p p' Hd Hp Hp')
      by (apply inside_bounds; lia).
    split; reflexivity.
  - intros ->. apply (next_partition_start disk s); assumption.
Qed.

(** The end, snapped, snaps to itself. *)
Lemma end_side_stable (disk : PedDisk) (old_geom : option PedGeometry)
  (range : PedGeometry) (e e' : PedSector) (p p' : PedPartition) :
  disk_disjoint disk -> disk_typed disk ->
  ped_disk_get_partition_by_sector disk e = Some p ->
  ped_disk_get_partition_by_sector disk e' = Some p' ->
  try_snap e range (end_args old_geom p) = Ret e' ->
  try_snap e' range (end_args old_geom p') = Ret e'.
Proof.
  intros Hd Ht Hp Hp' H. rewrite end_args_split in H |- *.
  pose proof (lookup_some _ _ _ Hp) as (_ & _ & Hin).
  apply inside_bounds in Hin.
  apply (side_stable _ _ _ _ _ _ e e' H).
  - intros ->. rewrite Hp in Hp'. injection Hp' as <-. split; reflexivity.
  - intros ->.
    rewrite (same_partition disk e _ p p' Hd Hp Hp')
      by (apply inside_bounds; lia).
    split; reflexivity.
  - intros ->. apply (previous_partition_end disk e); assumption.
Qed.

Lemma end_args_in_llong (disk : PedDisk) (old_geom : option PedGeometry)
  (e : PedSector) (p : PedPartition) :
  disk_typed disk ->
  match old_geom with Some old => in_llong (geom_end old) | None => True end ->
  ped_disk_get_partition_by_sector disk e = Some p ->
  Forall in_llong (end_args old_geom p).
Proof.
  intros Ht Ho Hp. apply lookup_some in Hp. destruct Hp as (Hin & _).
  destruct (Ht p Hin) as [_ He].
  assert (in_llong (-1)) by (unfold in_llong, LLONG_MIN, LLONG_MAX; lia).
  destruct old_geom; cbn [end_args];
    repeat (apply Forall_cons; [assumption || apply wrap64_in_llong|]);
    apply Forall_nil.
Qed.

(** A second call on the range a first call returned: it returns the
    same range, unless the snapped start lies in no partition, where it
    stops on the assertion on the start partition. *)
Lemma snap_again (new_geom g : PedGeometry) (old_geom : option PedGeometry)
  (disk : PedDisk) (start_range end_range : PedGeometry) :
  disk_disjoint disk -> disk_typed disk ->
  in_llong (geom_end new_geom) ->
  match old_geom with Some old => in_llong (geom_end old) | None => True end ->
  snap_to_boundaries new_geom old_geom disk start_range end_range = Ret g ->
  snap_to_boundaries g old_geom disk start_range end_range =
  match ped_disk_get_partition_by_sector disk (geom_start g) with
  | Some _ => Ret g
  | None => Abort
  end.
Proof.
  intros Hd Ht Hne Hoe H. pose proof H as Hfirst.
  unfold snap_to_boundaries in H.
  destruct (ped_disk_get_partition_by_sector disk (geom_start new_geom))
    as [sp|] eqn:Hsp; [|discriminate].
  destruct (ped_disk_get_partition_by_sector disk (geom_end new_geom))
    as [ep|] eqn:Hep.
  2: { injection H as <-. rewrite Hsp. exact Hfirst. }
  destruct (try_snap (geom_start new_geom) start_range
              (start_args old_geom sp)) as [s'| |] eqn:Hs'; try discriminate.
  destruct (try_snap (geom_end new_geom) end_range
              (end_args old_geom ep)) as [e'| |] eqn:He'; try discriminate.
  destruct (s' <=? e') eqn:Hle; cbn [negb] in H; [|discriminate].
  unfold ped_geometry_set in H.
  destruct (s' <? 0) eqn:Hneg; [discriminate|].
  destruct (add64 (sub64 e' s') 1 <? 1) eqn:Hlen; injection H as <-.
  - rewrite Hsp. exact Hfirst.
  - assert (He'in : in_llong e').
    { apply (try_snap_in_llong _ _ _ _ He' Hne).
      apply (end_args_in_llong disk _ (geom_end new_geom)); assumption. }
    pose proof (geometry_end_back s' e' He'in) as Hback.
    set (g := mkGeom s' (add64 (sub64 e' s') 1)
                (sub64 (add64 s' (add64 (sub64 e' s') 1)) 1)) in *.
    assert (Hgs : geom_start g = s') by reflexivity.
    assert (Hge : geom_end g = e') by exact Hback.
    unfold snap_to_boundaries. rewrite Hgs, Hge.
    destruct (ped_disk_get_partition_by_sector disk s') as [sp'|] eqn:Hsp';
      [|reflexivity].
    destruct (ped_disk_get_partition_by_sector disk e') as [ep'|] eqn:Hep';
      [|reflexivity].
    rewrite (start_side_stable disk old_geom start_range _ s' sp sp'
               Hd Ht Hsp Hsp' Hs').
    rewrite (end_side_stable disk old_geom end_range _ e' ep ep'
               Hd Ht Hep Hep' He').
    rewrite Hle. cbn [negb]. unfold ped_geometry_set.
    rewrite Hneg, Hlen. reflexivity.
Qed.

(** C4.  [snap_to_boundaries] is idempotent on the partition tables
    of libparted, whose partitions do not overlap: applied to the range
    a first application left, with the same old geometry, table and
    ranges, it leaves that range unchanged; and it returns it whenever
    the first call returned and the snapped start lies in a partition
    of the table. *)
Theorem snap_to_boundaries_idempotent (new_geom : PedGeometry)
  (old_geom : option PedGeometry) (disk : PedDisk)
  (start_range end_range : PedGeometry) :
  disk_disjoint disk -> disk_typed disk ->
  in_llong (geom_end new_geom) ->
  match old_geom with Some old => in_llong (geom_end old) | None => True end ->
  let snapped :=
    range_after new_geom
      (snap_to_boundaries new_geom old_geom disk start_range end_range) in
  range_after snapped
    (snap_to_boundaries snapped old_geom disk start_range end_range)
  = snapped /\
  (snap_to_boundaries new_geom old_geom disk start_range end_range
   = Ret snapped ->
   ped_disk_get_partition_by_sector disk (geom_start snapped) <> None ->
   snap_to_boundaries snapped old_geom disk start_range end_range
   = Ret snapped).
Proof.
  intros Hd Ht Hne Hoe snapped. subst snapped.
  destruct (snap_to_boundaries new_geom old_geom disk start_range end_range)
    as [g| |] eqn:H; cbn [range_after].
  - pose proof (snap_again _ _ _ _ _ _ Hd Ht Hne Hoe H) as H2.
    rewrite H2.
    destruct (ped_disk_get_partition_by_sector disk (geom_start g));
      split; try reflexivity; congruence.
  - rewrite H. split; [reflexivity | discriminate].
  - rewrite H. split; [reflexivity | discriminate].
Qed.

(** The witness of C4: two adjoining partitions, the first one asked
    to grow into the second; the end snaps back to the old end. *)
Lemma snap_to_boundaries_idempotent_witness :
  snap_to_boundaries (mkGeom 0 151 150) (Some (mkGeom 0 100 99))
    [mkPart (mkGeom 0 100 99) false 1 None;
     mkPart (mkGeom 100 100 199) false 2 None]
    (mkGeom 0 1 0) (mkGeom 99 52 150)
  = Ret (mkGeom 0 100 99) /\
  snap_to_boundaries (mkGeom 0 100 99) (Some (mkGeom 0 100 99))
    [mkPart (mkGeom 0 100 99) false 1 None;
     mkPart (mkGeom 100 100 199) false 2 None]
    (mkGeom 0 1 0) (mkGeom 99 52 150)
  = Ret (mkGeom 0 100 99).
Proof.
  split; [reflexivity|].
  refine (proj2 (snap_to_boundaries_idempotent (mkGeom 0 151 150)
           (Some (mkGeom 0 100 99))
           [mkPart (mkGeom 0 100 99) false 1 None;
            mkPart (mkGeom 100 100 199) false 2 None]
           (mkGeom 0 1 0) (mkGeom 99 52 150) _ _ _ _) eq_refl _).
  - intros p q s Hp Hq _ _ Hps Hqs.
    apply inside_bounds in Hps, Hqs. cbn [In] in Hp, Hq.
    destruct Hp as [<-|[<-|[]]], Hq as [<-|[<-|[]]]; cbn in *;
      try reflexivity; lia.
  - intros p Hp. cbn [In] in Hp.
    destruct Hp as [<-|[<-|[]]];
      unfold geom_typed, in_llong, LLONG_MIN, LLONG_MAX; cbn; lia.
  - unfold in_llong, LLONG_MIN, LLONG_MAX; cbn; lia.
  - unfold in_llong, LLONG_MIN, LLONG_MAX; cbn; lia.
  - discriminate.
Defined.


(** ** Device name analysis *)

Lemma wrap32_id (z : Z) : INT_MIN <= z <= INT_MAX -> wrap32 z = z.
Proof.
  unfold INT_MIN, INT_MAX, wrap32. intros H. rewrite Z.mod_small; lia.
Qed.


Lemma get_all_digits (ds : string) (i : nat) :
  all_digits ds = true -> (i < String.length ds)%nat ->
  exists d : ascii, String.get i ds = Some d /\ isdigit d = true.
Proof.
  revert i. induction ds as [|c ds IH]; intros i Hd Hi; cbn in Hi; [lia|].
  cbn [all_digits] in Hd. apply andb_prop in Hd. destruct Hd as [Hc Hd].
  destruct i as [|i]; cbn [String.get].
  - exists c. split; [reflexivity | exact Hc].
  - apply IH; [exact Hd | lia].
Qed.

Lemma length_append (a b : string) :
  String.length (a ++ b) = (String.length a + String.length b)%nat.
Proof. induction a as [|c a IH]; cbn; [reflexivity | now rewrite IH]. Qed.

(** The characters of a path made of [pre], a character [c] and the
    digits [ds]. *)
Lemma char_at_separator (pre ds : string) (c : ascii) :
  char_at (pre ++ String c ds) (strlen pre) = Some c.
Proof.
  unfold char_at, strlen.
  destruct (Z.ltb_spec (Z.of_nat (String.length pre)) 0); [lia|].
  rewrite Nat2Z.id.
  pose proof (append_correct2 pre (String c ds) 0) as H0.
  cbn [String.get Nat.add] in H0. rewrite <- H0. reflexivity.
Qed.

Lemma char_at_digit (pre ds : string) (c : ascii) (k : nat) :
  all_digits ds = true -> (k < String.length ds)%nat ->
  exists d : ascii,
    char_at (pre ++ String c ds) (strlen pre + Z.of_nat (S k)) = Some d /\
    isdigit d = true.
Proof.
  intros Hd Hk. destruct (get_all_digits ds k Hd Hk) as (d & Hg & Hdig).
  exists d. split; [|exact Hdig].
  unfold char_at, strlen.
  destruct (Z.ltb_spec (Z.of_nat (String.length pre) + Z.of_nat (S k)) 0);
    [lia|].
  replace (Z.to_nat (Z.of_nat (String.length pre) + Z.of_nat (S k)))
    with (S k + String.length pre)%nat by lia.
  rewrite <- (append_correct2 pre (String c ds) (S k)).
  cbn [String.get]. rewrite Hg. reflexivity.
Qed.

(** The backward scan stops on the character before the trailing
    digits. *)
Lemma scan_back_digits (pre ds : string) (c : ascii) :
  isdigit c = false -> all_digits ds = true ->
  forall (k fuel : nat),
    (k <= String.length ds)%nat -> (k < fuel)%nat ->
    scan_back fuel (pre ++ String c ds) (strlen pre + Z.of_nat k)
    = Some (strlen pre).
Proof.
  intros Hc Hd. induction k as [|k IH]; intros fuel Hk Hf;
    (destruct fuel as [|fuel]; [lia|]); cbn [scan_back].
  - rewrite Z.add_0_r, char_at_separator, Hc, andb_false_r. reflexivity.
  - destruct (char_at_digit pre ds c k Hd ltac:(lia)) as (d & -> & Hdig).
    rewrite Hdig.
    pose proof (isdigit_code d Hdig) as Hcode.
    rewrite (eqb_code_neq d NUL) by (change (code NUL) with 0; lia).
    rewrite (eqb_code_neq d "/") by (change (code "/") with 47; lia).
    cbn [negb andb].
    replace (strlen pre + Z.of_nat (S k) - 1) with (strlen pre + Z.of_nat k)
      by lia.
    apply IH; lia.
Qed.

Lemma scan_back_path (pre ds : string) (c : ascii) :
  isdigit c = false -> all_digits ds = true ->
  scan_back (S (String.length (pre ++ String c ds))) (pre ++ String c ds)
    (strlen (pre ++ String c ds) - 1)
  = Some (strlen pre).
Proof.
  intros Hc Hd.
  replace (strlen (pre ++ String c ds) - 1)
    with (strlen pre + Z.of_nat (String.length ds))
    by (unfold strlen; rewrite length_append; cbn [String.length]; lia).
  apply scan_back_digits; try assumption;
    rewrite ?length_append; cbn [String.length]; lia.
Qed.

Lemma string_from_append (pre rest : string) :
  string_from (String.length pre) (pre ++ rest) = rest.
Proof. induction pre as [|c pre IH]; cbn; [reflexivity | exact IH]. Qed.

Lemma get_partnum_path (pre ds : string) (c : ascii) :
  isdigit c = false -> all_digits ds = true ->
  get_partnum (pre ++ String c ds)
  = Some (if negb (atoi ds =? 0) then atoi ds else 1).
Proof.
  intros Hc Hd. unfold get_partnum. rewrite scan_back_path by assumption.
  replace (Z.to_nat (strlen pre + 1)) with (String.length (pre ++ String c ""))
    by (rewrite length_append; unfold strlen; cbn [String.length]; lia).
  replace (pre ++ String c ds)%string with ((pre ++ String c "") ++ ds)%string.
  - rewrite string_from_append. reflexivity.
  - clear. induction pre as [|x pre IH]; cbn; [reflexivity | now rewrite IH].
Qed.

Lemma char_at_inside (dev : string) (k : nat) (c : ascii) :
  String.get k dev = Some c -> char_at dev (Z.of_nat k) = Some c.
Proof.
  intros H. unfold char_at.
  destruct (Z.ltb_spec (Z.of_nat k) 0); [lia|].
  rewrite Nat2Z.id, H. reflexivity.
Qed.

Lemma get_inside (s : string) (k : nat) :
  (k < String.length s)%nat -> exists c : ascii, String.get k s = Some c.
Proof.
  revert k. induction s as [|x s IH]; intros k Hk; cbn in Hk; [lia|].
  destruct k as [|k]; cbn [String.get]; [eauto|]. apply IH. lia.
Qed.

Lemma string_take_append (a b : string) :
  string_take (String.length a) (a ++ b) = a.
Proof. induction a as [|c a IH]; cbn; [reflexivity | now rewrite IH]. Qed.

Lemma append_assoc_char (pre : string) (c : ascii) (rest : string) :
  (pre ++ String c rest)%string = ((pre ++ String c "") ++ rest)%string.
Proof. induction pre as [|x pre IH]; cbn; [reflexivity | now rewrite IH]. Qed.

(** The buffer after lines 192-198 for a path that ends with a
    character that is not a digit and then digits. *)
Lemma strip_partition_path (pre ds : string) (c : ascii) :
  strip_partition (pre ++ String c ds) (strlen pre) =
  if (2 <? strlen pre) && Ascii.eqb c "p"
     && match String.get (String.length pre - 1) pre with
        | Some d => isdigit d
        | None => false
        end
  then mkBuffer pre true
  else mkBuffer (pre ++ String c "") (0 <? strlen ds).
Proof.
  unfold strip_partition. cbn [buf_text].
  assert (Hterm : (strlen pre + 1 <? strlen (pre ++ String c ds))
                  = (0 <? strlen ds)).
  { unfold strlen. rewrite length_append. cbn [String.length].
    destruct (Z.ltb_spec 0 (Z.of_nat (String.length ds)));
      [apply Z.ltb_lt | apply Z.ltb_ge]; lia. }
  rewrite Hterm.
  assert (Htake : string_take (Z.to_nat (strlen pre + 1))
                    (pre ++ String c ds) = (pre ++ String c "")%string).
  { rewrite append_assoc_char.
    replace (Z.to_nat (strlen pre + 1))
      with (String.length (pre ++ String c ""))
      by (rewrite length_append; unfold strlen; cbn [String.length]; lia).
    apply string_take_append. }
  rewrite Htake.
  assert (Hc : char_at (pre ++ String c "") (strlen pre) = Some c)
    by apply char_at_separator.
  rewrite Hc.
  assert (Hd : (2 <? strlen pre) = true ->
               char_at (pre ++ String c "") (strlen pre - 1)
               = String.get (String.length pre - 1) pre).
  { intros H2. apply Z.ltb_lt in H2. unfold strlen in *.
    assert (Hlt : (String.length pre - 1 < String.length pre)%nat) by lia.
    replace (Z.of_nat (String.length pre) - 1)
      with (Z.of_nat (String.length pre - 1)) by lia.
    destruct (get_inside pre _ Hlt) as [d Hg]. rewrite Hg.
    apply char_at_inside.
    rewrite <- (append_correct1 pre (String c "") _ Hlt). exact Hg. }
  destruct (2 <? strlen pre) eqn:H2; cbn [andb]; [|reflexivity].
  rewrite (Hd eq_refl).
  destruct (Ascii.eqb c "p"); cbn [andb]; [|reflexivity].
  destruct (String.get (String.length pre - 1) pre) as [d|];
    [|reflexivity].
  destruct (isdigit d); [|reflexivity].
  replace (Z.to_nat (strlen pre)) with (String.length pre)
    by (unfold strlen; lia).
  rewrite string_take_append. reflexivity.
Qed.

(** With trailing digits the NUL of line 194 is inside the buffer, and
    every read of the name gives the text written. *)
Lemma strip_partition_terminated (beyond : Z -> string) (pre ds : string)
  (c : ascii) (line : Z) :
  ds <> "" ->
  c_string beyond (strip_partition (pre ++ String c ds) (strlen pre)) line
  = buf_text (strip_partition (pre ++ String c ds) (strlen pre)).
Proof.
  intros Hds. rewrite strip_partition_path. unfold c_string.
  assert (H0 : (0 <? strlen ds) = true).
  { destruct ds as [|d ds]; [congruence|].
    apply Z.ltb_lt. unfold strlen. cbn [String.length]. lia. }
  rewrite H0.
  destruct ((2 <? strlen pre) && Ascii.eqb c "p"
            && match String.get (String.length pre - 1) pre with
               | Some d => isdigit d
               | None => false
               end); reflexivity.
Qed.



(** ** The resize sequence *)

Section RunProperties.

Context {World Disk Part Fs Constraint : Type}.
Variable lib : Services World Disk Part Fs Constraint.

(** *** Which calls a step makes *)

Lemma emits_ret {A} (P : event -> bool) (a : A) :
  emits_only P (ret a : @M World A).
Proof. intros w. reflexivity. Qed.

Lemma emits_halt {A} (P : event -> bool) (code : Z) :
  emits_only P (halt code : @M World A).
Proof. intros w. reflexivity. Qed.

Lemma emits_stop {A} (P : event -> bool) (s : status) :
  emits_only P (stop s : @M World A).
Proof. intros w. reflexivity. Qed.

Lemma emits_read {A} (P : event -> bool) (f : World -> A) :
  emits_only P (read f).
Proof. intros w. reflexivity. Qed.

Lemma emits_pure {A} (P : event -> bool) (o : outcome A) :
  emits_only P (pure o : @M World A).
Proof. intros w. destruct o; reflexivity. Qed.

Lemma emits_deref {A} (P : event -> bool) (p : option A) :
  emits_only P (deref p : @M World A).
Proof. intros w. destruct p; reflexivity. Qed.

Lemma emits_call {A} (P : event -> bool) (f : World -> A * World)
  (ev : A -> event) :
  (forall a, P (ev a) = true) -> emits_only P (call f ev).
Proof.
  intros H w. unfold call. destruct (f w) as [a w1]. cbn. now rewrite H.
Qed.

Lemma emits_call_ (P : event -> bool) (f : World -> World) (ev : event) :
  P ev = true -> emits_only P (call_ f ev).
Proof. intros H w. cbn. now rewrite H. Qed.

Lemma emits_bind {A B} (P : event -> bool) (m : @M World A)
  (k : A -> @M World B) :
  emits_only P m -> (forall a, emits_only P (k a)) ->
  emits_only P (bind m k).
Proof.
  intros Hm Hk w. unfold bind. specialize (Hm w).
  destruct (m w) as [[[a|s] w1] t1]; cbn in *; [|exact Hm].
  specialize (Hk a w1). destruct (k a w1) as [[r w2] t2]. cbn in *.
  rewrite forallb_app, Hm, Hk. reflexivity.
Qed.

End RunProperties.

Ltac emits_step :=
  match goal with
  | |- emits_only _ (bind _ _) => apply emits_bind; [|intros]
  | |- emits_only _ (ret _) => apply emits_ret
  | |- emits_only _ (halt _) => apply emits_halt
  | |- emits_only _ (stop _) => apply emits_stop
  | |- emits_only _ (read _) => apply emits_read
  | |- emits_only _ (pure _) => apply emits_pure
  | |- emits_only _ (deref _) => apply emits_deref
  | |- emits_only _ (call _ _) => apply emits_call; intros; reflexivity
  | |- emits_only _ (call_ _ _) => apply emits_call_; reflexivity
  | |- emits_only _ (match ?x with _ => _ end) => destruct x
  end.

Section RunTheorems.

Context {World Disk Part Fs Constraint : Type}.
Variable lib : Services World Disk Part Fs Constraint.

(** Nothing before [apply_resize] changes the table or the file
    system. *)
Lemma open_target_quiet (opts : options) :
  emits_only quiet (open_target lib opts).
Proof. unfold open_target, partition_warn_busy. repeat emits_step. Qed.

Lemma query_size_quiet (opts : options) (dev : PedDevice) (g : PedGeometry) :
  emits_only quiet (query_size lib opts dev g).
Proof. unfold query_size. repeat emits_step. Qed.

Lemma end_range_quiet (dev : PedDevice) (g : PedGeometry) (size : PedSector) :
  emits_only quiet (end_range lib dev g size).
Proof. unfold end_range. repeat emits_step. Qed.

Lemma plan_geometry_quiet (disk : option Disk) (g : PedGeometry)
  (start end_ : PedSector) (range_start range_end : PedGeometry) :
  emits_only quiet
    (plan_geometry lib disk g start end_ range_start range_end).
Proof. unfold plan_geometry. repeat emits_step. Qed.

Lemma build_constraint_quiet (dev : PedDevice) (part : option Part)
  (range_start range_end : PedGeometry) :
  emits_only quiet (build_constraint lib dev part range_start range_end).
Proof.
  unfold build_constraint, constraint_from_start_end,
    constraint_intersect_and_destroy.
  repeat emits_step.
Qed.

Lemma resize_plan_quiet (opts : options) :
  emits_only quiet (resize_plan lib opts).
Proof.
  unfold resize_plan.
  repeat (emits_step
          || apply open_target_quiet || apply query_size_quiet
          || apply end_range_quiet || apply plan_geometry_quiet
          || apply build_constraint_quiet).
Qed.

End RunTheorems.

(** *** Commit comes after a resize that succeeded *)

Lemma quiet_trace (tr : list event) :
  forallb quiet tr = true ->
  existsb is_commit tr = false /\ existsb is_resize_ok tr = false /\
  existsb is_set_geom_ok tr = false.
Proof.
  induction tr as [|e tr IH]; cbn [forallb existsb]; intros H;
    [repeat split|].
  apply andb_prop in H. destruct H as [He Ht].
  destruct (IH Ht) as (H1 & H2 & H3). rewrite H1, H2, H3.
  unfold quiet in He. apply negb_true_iff in He.
  apply orb_false_iff in He. destruct He as [He H6].
  apply orb_false_iff in He. destruct He as [H4 H5].
  rewrite H4, H5, H6. repeat split.
Qed.

Lemma commit_guarded_after_quiet (resized : bool) (t1 t2 : list event) :
  forallb quiet t1 = true ->
  commit_guarded resized (t1 ++ t2) = commit_guarded resized t2.
Proof.
  induction t1 as [|e t1 IH]; cbn [forallb app commit_guarded]; intros H;
    [reflexivity|].
  apply andb_prop in H. destruct H as [He Ht].
  unfold quiet in He. apply negb_true_iff in He.
  apply orb_false_iff in He. destruct He as [He _].
  apply orb_false_iff in He. destruct He as [H4 H5].
  rewrite H4, H5, orb_false_r. cbn [andb]. apply IH, Ht.
Qed.

Lemma commit_guarded_before (tr : list event) :
  forall resized : bool,
    commit_guarded resized tr = true ->
    forall (pre : list event) (e : event) (post : list event),
      tr = (pre ++ e :: post)%list -> is_commit e = true ->
      resized || existsb is_resize_ok pre = true.
Proof.
  induction tr as [|x tr IH]; intros resized H pre e post Heq He.
  - destruct pre; discriminate.
  - cbn [commit_guarded] in H. apply andb_prop in H. destruct H as [Hx Ht].
    destruct pre as [|y pre]; cbn [app] in Heq; injection Heq as -> ->.
    + rewrite He in Hx. rewrite Hx. reflexivity.
    + cbn [existsb]. rewrite orb_assoc. apply (IH _ Ht pre e post eq_refl He).
Qed.

(** Splits a goal on the results of the calls it mentions, innermost
    first. *)
Ltac run_paths :=
  repeat (progress cbn [fst snd app negb andb]
          || match goal with
             | |- context [match ?x with _ => _ end] =>
                 lazymatch x with
                 | context [match _ with _ => _ end] => fail
                 | negb ?b => destruct b
                 | _ => destruct x
                 end
             end).

Section CommitOrder.

Context {World Disk Part Fs Constraint : Type}.
Variable lib : Services World Disk Part Fs Constraint.

(** The last part of [main], path by path. *)
Lemma apply_resize_guarded (opts : options) (dev : PedDevice)
  (disk : option Disk) (part : option Part) (fs : Fs) (c : Constraint)
  (g : PedGeometry) (w : World) :
  commit_guarded false (snd (apply_resize lib opts dev disk part fs c g w))
  = true /\
  (existsb is_set_geom_ok
     (snd (apply_resize lib opts dev disk part fs c g w)) = true ->
   existsb is_resize_ok
     (snd (apply_resize lib opts dev disk part fs c g w)) = false ->
   fst (fst (apply_resize lib opts dev disk part fs c g w))
   = Halt (Exited 1) /\
   existsb is_commit
     (snd (apply_resize lib opts dev disk part fs c g w)) = false).
Proof.
  unfold apply_resize, deref, bind, call, call_, read, halt, stop, ret.
  run_paths; cbn; run_paths; cbn;
    (split; [reflexivity | intros; try discriminate; split; reflexivity]).
Qed.

(** C1. In every run, the partition table is committed only after the
    file system resize returned success; and a run that changed the
    partition geometry without a resize that succeeded ends with exit
    code 1 and never calls [ped_disk_commit]. *)
Theorem commit_only_after_resize (opts : options) (w : World) :
  (forall (pre : list event) (e : event) (post : list event),
     run_trace lib opts w = (pre ++ e :: post)%list ->
     is_commit e = true -> existsb is_resize_ok pre = true) /\
  (existsb is_set_geom_ok (run_trace lib opts w) = true ->
   existsb is_resize_ok (run_trace lib opts w) = false ->
   run_status lib opts w = Halt (Exited 1) /\
   existsb is_commit (run_trace lib opts w) = false).
Proof.
  unfold run_trace, run_status, main, bind.
  pose proof (resize_plan_quiet lib opts w) as Hq.
  destruct (resize_plan lib opts w) as [[[ctx|s] w1] t1]; cbn [snd] in Hq.
  - destruct ctx as [[[[[dev disk] part] fs] c] g].
    pose proof (apply_resize_guarded opts dev disk part fs c g w1)
      as [Hg Hfail].
    destruct (apply_resize lib opts dev disk part fs c g w1) as [[r w2] t2].
    cbn [fst snd] in *.
    destruct (quiet_trace t1 Hq) as (Hc & Hr & Hs).
    split.
    + intros pre e post Heq He.
      apply (commit_guarded_before (t1 ++ t2) false) with (e := e)
        (post := post); try assumption.
      rewrite commit_guarded_after_quiet by assumption. exact Hg.
    + rewrite !existsb_app, Hc, Hr, Hs. cbn [orb]. exact Hfail.
  - cbn [fst snd]. destruct (quiet_trace t1 Hq) as (Hc & Hr & Hs). split.
    + intros pre e post Heq He. exfalso.
      rewrite Heq, existsb_app in Hc. cbn [existsb] in Hc.
      rewrite He, orb_true_r in Hc. discriminate.
    + rewrite Hs. discriminate.
Qed.

End CommitOrder.

(** *** The range of the new end *)




Section EndRange.

Context {World Disk Part Fs Constraint : Type}.
Variable lib : Services World Disk Part Fs Constraint.












End EndRange.



(** The witness of C1: a run on the stand-in device halves its
    partition and commits after the resize. *)
Lemma commit_only_after_resize_witness :
  run_status mock_services (mock_opts 268435456) mock_table
  = Halt (Exited 0) /\
  existsb is_resize_ok
    [ev_exception_set_handler; ev_device_get "/dev/sdz" true;
     ev_device_open true; ev_disk_new true; ev_disk_get_partition 1 true;
     ev_partition_is_busy false; ev_unit_format 1048575 "#######";
     ev_unit_format 526336 "####"; ev_unit_parse "####" true;
     ev_file_system_open (mkGeom 2048 1046528 1048575) true;
     ev_file_system_get_resize_constraint true;
     ev_constraint_new (mkGeom 2048 1 2048) (mkGeom 458752 131072 589823);
     ev_constraint_intersect true; ev_constraint_destroy;
     ev_constraint_destroy; ev_disk_set_partition_geom 2048 524288 true;
     ev_file_system_resize (mkGeom 2048 522241 524288) true;
     ev_partition_set_system; ev_file_system_close; ev_constraint_destroy]
  = true.
Proof.
  split; [reflexivity|].
  apply (proj1 (commit_only_after_resize mock_services
                  (mock_opts 268435456) mock_table)
           _ (ev_disk_commit true) [ev_disk_destroy; ev_device_close]);
    reflexivity.
Defined.

(* ================================================================== *)
(** * Further properties *)

(** ** Size parser *)

Lemma get_size_accepts_unit (errno : Z) (ds suffix : string) :
  errno <> ERANGE ->
  all_digits ds = true -> 0 < decimal_value 0 ds <= LLONG_MAX ->
  suffix = "" \/ unit_suffix suffix = true ->
  exists n : Z, get_size errno (ds ++ suffix) = Ret n.
Proof.
  intros He Hd Hv [-> | Hu].
  - rewrite get_size_digits by (assumption || reflexivity). eexists; reflexivity.
  - unfold unit_suffix in Hu. cbn [existsb] in Hu.
    repeat (apply orb_prop in Hu; destruct Hu as [Hu | Hu]);
      try discriminate; apply String.eqb_eq in Hu; subst suffix;
      rewrite get_size_digits by (assumption || reflexivity);
      eexists; reflexivity.
Qed.

(** X1. After a positive integer that fits, [get_size] returns a size
    exactly for the empty suffix and the six suffixes k, M, G, ki, Mi,
    Gi; with any other suffix it leaves through [usage (1)]. *)
Theorem size_suffix_grammar (errno : Z) (ds suffix : string) :
  errno <> ERANGE ->
  all_digits ds = true -> starts_with_digit suffix = false ->
  0 < decimal_value 0 ds <= LLONG_MAX ->
  ((exists n : Z, get_size errno (ds ++ suffix) = Ret n) <->
   suffix = "" \/ unit_suffix suffix = true) /\
  (suffix <> "" -> unit_suffix suffix = false ->
   get_size errno (ds ++ suffix) = Exit 1).
Proof.
  intros He Hd Hs Hv. split; [split|].
  - intros [n Hn]. destruct suffix as [|c r]; [left; reflexivity|].
    right. destruct (unit_suffix (String c r)) eqn:Hu; [reflexivity|].
    rewrite get_size_rejects_suffix in Hn by (assumption || discriminate).
    discriminate.
  - apply get_size_accepts_unit; assumption.
  - intros Hne Hu. apply get_size_rejects_suffix; assumption.
Qed.

Lemma size_suffix_grammar_witness :
  get_size 0 ("10" ++ "kB") = Exit 1.
Proof.
  apply (proj2 (size_suffix_grammar 0 "10" "kB" ltac:(discriminate)
                  eq_refl eq_refl ltac:(cbv; split; congruence)));
    [discriminate | reflexivity].
Defined.

(** X2. An integer beyond [LLONG_MAX] is refused whatever follows it
    and whatever [errno] held. *)
Theorem size_integer_overflow_refused (errno : Z) (ds suffix : string) :
  all_digits ds = true -> starts_with_digit suffix = false ->
  LLONG_MAX < decimal_value 0 ds ->
  get_size errno (ds ++ suffix) = Exit 1.
Proof. apply get_size_rejects_overflow. Qed.

Lemma size_integer_overflow_refused_witness :
  get_size 0 ("9223372036854775808" ++ "") = Exit 1.
Proof.
  apply (size_integer_overflow_refused 0 "9223372036854775808" "");
    reflexivity.
Defined.

(** X3. A magnitude of zero and a magnitude with a minus sign are
    refused, whatever the suffix. *)
Theorem size_nonpositive_refused (errno : Z) (ds suffix : string) :
  all_digits ds = true -> ds <> "" -> starts_with_digit suffix = false ->
  (decimal_value 0 ds = 0 -> get_size errno (ds ++ suffix) = Exit 1) /\
  get_size errno (String "-" ds ++ suffix) = Exit 1.
Proof.
  intros Hd Hne Hs. split.
  - apply get_size_rejects_zero; assumption.
  - apply get_size_rejects_negative; assumption.
Qed.

Lemma size_nonpositive_refused_witness :
  get_size 0 ("000" ++ "M") = Exit 1 /\ get_size 0 ("-12" ++ "M") = Exit 1.
Proof.
  split.
  - apply (proj1 (size_nonpositive_refused 0 "000" "M" eq_refl
                    ltac:(discriminate) eq_refl)). reflexivity.
  - apply (proj2 (size_nonpositive_refused 0 "12" "M" eq_refl
                    ltac:(discriminate) eq_refl)).
Defined.

(** X4. Entered with [errno] not at ERANGE, on a positive integer
    followed by a unit letter that is not a digit (and an [i] for the
    binary units): when the product fits in a [long long], the size is
    the integer times 1000 (k), 1000000 (M) or 1000000000 (G), or times
    1024, 1024 * 1024 or 1024 * 1024 * 1024 for ki, Mi, Gi, and
    [get_size] leaves through [usage (1)] for any other letter; a size
    it returns is positive. *)
Theorem size_exact_product (errno : Z) (ds : string) (c : ascii)
  (binary : bool) :
  errno <> ERANGE ->
  all_digits ds = true -> 0 < decimal_value 0 ds -> isdigit c = false ->
  let n := decimal_value 0 ds in
  let k := if binary then 1024 else 1000 in
  let suffix := String c (if binary then "i" else "") in
  n * k * k * k <= LLONG_MAX ->
  get_size errno (ds ++ suffix) =
  (if Ascii.eqb c "G" then Ret (n * k * k * k)
   else if Ascii.eqb c "M" then Ret (n * k * k)
   else if Ascii.eqb c "k" then Ret (n * k)
   else Exit 1) /\
  forall r : Z, get_size errno (ds ++ suffix) = Ret r -> 0 < r.
Proof.
  intros He Hd Hpos Hc n k suffix Hfit.
  assert (Hk : 0 < k) by (subst k; destruct binary; lia).
  assert (Hn : 0 < n <= LLONG_MAX)
    by (subst n k; destruct binary; lia).
  assert (Hsize : get_size errno (ds ++ suffix) = scale c n k).
  { subst suffix k. destruct binary.
    - rewrite get_size_digits by (assumption || exact Hn).
      reflexivity.
    - rewrite get_size_digits by (assumption || exact Hn).
      reflexivity. }
  rewrite Hsize, scale_exact by assumption.
  split; [reflexivity|].
  intros r Hr.
  destruct (Ascii.eqb c "G"); [injection Hr as <-; nia|].
  destruct (Ascii.eqb c "M"); [injection Hr as <-; nia|].
  destruct (Ascii.eqb c "k"); [injection Hr as <-; nia|].
  discriminate.
Qed.

Lemma size_exact_product_witness :
  get_size 0 ("3" ++ "Gi") = Ret (3 * 1024 * 1024 * 1024).
Proof.
  apply (proj1 (size_exact_product 0 "3" "G" true ltac:(discriminate)
                  eq_refl ltac:(cbv; reflexivity) eq_refl
                  ltac:(cbv; congruence))).
Defined.

Lemma strtoll_keeps_range_error (s : string) :
  snd (strtoll ERANGE s) = ERANGE.
Proof.
  unfold strtoll. destruct (scan_integer s) as [[v rest]|]; [|reflexivity].
  destruct (LLONG_MAX <? v); [reflexivity|].
  destruct (v <? LLONG_MIN); reflexivity.
Qed.

(** X5. [get_size] does not clear [errno] before [strtoll]: entered
    with [errno] at ERANGE it refuses every text that does not begin
    with ["max"], valid sizes included. *)
Theorem size_stale_errno_refused (s : string) :
  strncmp_eq s MAX_SIZE_STR (String.length MAX_SIZE_STR) = false ->
  get_size ERANGE s = Exit 1.
Proof.
  intros Hmax. unfold get_size. rewrite Hmax.
  pose proof (strtoll_keeps_range_error s) as He.
  destruct (strtoll ERANGE s) as [[v suffix] errno']. cbn [snd] in He.
  rewrite He. change (ERANGE =? ERANGE) with true.
  rewrite orb_true_r. reflexivity.
Qed.

Lemma size_stale_errno_refused_witness : get_size ERANGE "10k" = Exit 1.
Proof. apply (size_stale_errno_refused "10k"). reflexivity. Defined.

(** Texts made of blanks only. *)
Lemma skip_space_blanks (blanks rest : string) :
  forallb isspace (list_ascii_of_string blanks) = true ->
  skip_space (blanks ++ rest) = skip_space rest.
Proof.
  induction blanks as [|c blanks IH]; cbn [list_ascii_of_string forallb];
    intros H; [reflexivity|].
  apply andb_prop in H. destruct H as [Hc Hb].
  cbn [append skip_space]. rewrite Hc. apply IH, Hb.
Qed.

(** X6. Blanks and a plus sign before the integer are skipped: the
    size is the one of the text without them. *)
Theorem size_leading_blanks_and_plus (errno : Z) (blanks ds suffix : string)
  (plus : bool) :
  forallb isspace (list_ascii_of_string blanks) = true ->
  all_digits ds = true -> ds <> "" -> starts_with_digit suffix = false ->
  get_size errno (blanks ++ (if plus then "+" else "") ++ ds ++ suffix)
  = get_size errno (ds ++ suffix).
Proof.
  intros Hb Hd Hne Hs.
  destruct ds as [|d ds]; [congruence|].
  pose proof Hd as Hd'. cbn [all_digits] in Hd'. apply andb_prop in Hd'.
  destruct Hd' as [Hdig _].
  assert (Hscan : forall t,
            skip_space t = skip_space (String d ds ++ suffix)
            \/ skip_space t = String "+" (String d ds ++ suffix) ->
            scan_integer t = scan_integer (String d ds ++ suffix)).
  { intros t Ht. unfold scan_integer.
    assert (Hown : skip_space (String d ds ++ suffix)
                   = String d (ds ++ suffix))
      by (cbn [append skip_space]; rewrite (isdigit_not_space d Hdig);
          reflexivity).
    destruct Ht as [-> | ->]; [reflexivity|].
    rewrite Hown.
    assert (Hsign :
      match String d (ds ++ suffix) with
      | String "-" r => (true, r)
      | String "+" r => (false, r)
      | _ => (false, String d (ds ++ suffix))
      end = (false, String d (ds ++ suffix))).
    { pose proof (isdigit_code d Hdig) as Hcode.
      assert (d <> "-"%char)
        by (intros ->; change (code "-") with 45 in Hcode; lia).
      assert (d <> "+"%char)
        by (intros ->; change (code "+") with 43 in Hcode; lia).
      destruct d as [[] [] [] [] [] [] [] []]; try reflexivity; congruence. }
    rewrite Hsign. reflexivity. }
  assert (Hmax : forall t,
            (exists c r, t = String c r /\ (isspace c = true \/ c = "+"%char))
            \/ t = (String d ds ++ suffix)%string ->
            strncmp_eq t MAX_SIZE_STR (String.length MAX_SIZE_STR) = false).
  { intros t [(c & r & -> & Hc) | ->].
    - cbn. rewrite eqb_code_neq; [reflexivity|].
      change (code "m") with 109. destruct Hc as [Hc | ->].
      + unfold isspace in Hc. apply orb_prop in Hc.
        destruct Hc as [Hc | Hc]; [lia|].
        apply andb_prop in Hc. lia.
      + cbv. congruence.
    - apply not_max_digits; [exact Hd | discriminate]. }
  assert (Hsame : forall t,
            strncmp_eq t MAX_SIZE_STR (String.length MAX_SIZE_STR) = false ->
            scan_integer t = scan_integer (String d ds ++ suffix) ->
            get_size errno t = get_size errno (String d ds ++ suffix)).
  { intros t Hm Hsc. unfold get_size.
    rewrite Hm, (Hmax (String d ds ++ suffix)%string (or_intror eq_refl)).
    unfold strtoll. rewrite Hsc.
    rewrite scan_integer_digits by (assumption || discriminate).
    reflexivity. }
  destruct blanks as [|b blanks].
  - destruct plus; [|reflexivity]. cbn [append].
    apply Hsame.
    + apply Hmax. left. exists "+"%char, (String d ds ++ suffix)%string.
      split; [reflexivity | right; reflexivity].
    + apply Hscan. right. reflexivity.
  - pose proof Hb as Hb'. cbn [list_ascii_of_string forallb] in Hb'.
    apply andb_prop in Hb'. destruct Hb' as [Hbc _].
    apply Hsame.
    + apply Hmax. left. eexists b, _. split; [reflexivity | left; exact Hbc].
    + apply Hscan. rewrite skip_space_blanks by exact Hb.
      destruct plus; [right | left]; reflexivity.
Qed.

Lemma size_leading_blanks_and_plus_witness :
  get_size 0 (" " ++ "+" ++ "10" ++ "k") = get_size 0 ("10" ++ "k").
Proof.
  apply (size_leading_blanks_and_plus 0 " " "10" "k" true);
    reflexivity || discriminate.
Defined.

(** ** Exception handler *)

Lemma enum_from_head (options : PedExceptionOption) (fuel : nat) :
  forall (opt : PedExceptionOption) (l : list PedExceptionOption),
    enum_from fuel options opt = Some l -> hd 0 l = opt.
Proof.
  destruct fuel as [|fuel]; intros opt l H; [discriminate|].
  cbn [enum_from] in H. destruct (Z.eqb_spec opt 0) as [->|].
  - injection H as <-. reflexivity.
  - destruct (option_get_next options opt) as [opt'|]; [|discriminate].
    destruct (enum_from fuel options opt') as [l'|]; [|discriminate].
    injection H as <-. reflexivity.
Qed.

Lemma enum_from_next (options : PedExceptionOption) (fuel : nat) :
  forall (opt : PedExceptionOption)
         (pre : list PedExceptionOption) (a : PedExceptionOption)
         (rest l : list PedExceptionOption),
    enum_from fuel options opt = Some l -> l = (pre ++ a :: rest)%list ->
    option_get_next options a = Some (hd 0 rest).
Proof.
  induction fuel as [|fuel IH]; intros opt pre a rest l H Hl; [discriminate|].
  cbn [enum_from] in H. destruct (opt =? 0).
  - injection H as <-. destruct pre; discriminate.
  - destruct (option_get_next options opt) as [opt'|] eqn:Hn; [|discriminate].
    destruct (enum_from fuel options opt') as [l'|] eqn:El; [|discriminate].
    injection H as <-.
    destruct pre as [|p pre]; cbn [app] in Hl; injection Hl as -> ->.
    + rewrite Hn. f_equal. symmetry. apply (enum_from_head _ _ _ _ El).
    + apply (IH opt' pre a rest _ El eq_refl).
Qed.

(** X7. On a mask of defined flags, [option_get_next] walks the
    offered options in ascending order: from 0 it gives the lowest
    offered flag, from an offered flag the next offered one, and 0
    after the highest (or when nothing is offered). *)
Theorem option_get_next_walk (options : PedExceptionOption) :
  defined_options options ->
  option_get_next options 0 = Some (hd 0 (offered options)) /\
  forall (pre : list PedExceptionOption) (a : PedExceptionOption)
         (rest : list PedExceptionOption),
    offered options = (pre ++ a :: rest)%list ->
    option_get_next options a = Some (hd 0 rest).
Proof.
  intros H. destruct (enum_offered options H) as (first & H0 & He). split.
  - rewrite H0. f_equal. symmetry. apply (enum_from_head _ _ _ _ He).
  - intros pre a rest Hl. apply (enum_from_next _ _ _ pre a rest _ He Hl).
Qed.

Lemma option_get_next_walk_witness :
  option_get_next (PED_EXCEPTION_YES + PED_EXCEPTION_NO + PED_EXCEPTION_CANCEL)
    PED_EXCEPTION_NO = Some PED_EXCEPTION_CANCEL.
Proof.
  apply (proj2 (option_get_next_walk
                  (PED_EXCEPTION_YES + PED_EXCEPTION_NO + PED_EXCEPTION_CANCEL)
                  ltac:(cbv; split; [intro; discriminate | reflexivity]))
           [PED_EXCEPTION_YES] PED_EXCEPTION_NO [PED_EXCEPTION_CANCEL]).
  reflexivity.
Defined.

Lemma prompt_outcome_first (options : PedExceptionOption)
  (pre : list string) (line : string) (rest : list string)
  (opt : PedExceptionOption) :
  Forall (fun l => chosen options l = None) pre ->
  chosen options line = Some opt ->
  prompt_outcome options (pre ++ line :: rest) = (opt, rest).
Proof.
  induction 1 as [|l pre Hl _ IH]; intros Hc; cbn [app prompt_outcome].
  - rewrite Hc. reflexivity.
  - rewrite Hl. apply IH, Hc.
Qed.

(** X8. The prompt returns the option named by the first line that
    names an offered option, and leaves the lines after it unread. *)
Theorem prompt_takes_first_named (ex : PedException) (pre : list string)
  (line : string) (rest : list string) (opt : PedExceptionOption) :
  defined_options (ex_options ex) ->
  Forall (fun l => chosen (ex_options ex) l = None) pre ->
  chosen (ex_options ex) line = Some opt ->
  ask_for_option ex (pre ++ line :: rest) = Some (opt, rest) /\
  fatresize_handler 0
    (mkException (ex_message ex) PED_EXCEPTION_WARNING (ex_options ex))
    (pre ++ line :: rest) = Some (opt, rest).
Proof.
  intros Hopts Hpre Hline.
  assert (Hask : forall ex', ex_options ex' = ex_options ex ->
            ask_for_option ex' (pre ++ line :: rest) = Some (opt, rest)).
  { intros ex' Ho. rewrite ask_for_option_outcome by (rewrite Ho; exact Hopts).
    rewrite Ho, (prompt_outcome_first _ _ _ _ _ Hpre Hline). reflexivity. }
  split; [apply Hask; reflexivity|].
  unfold fatresize_handler. cbn [ex_type]. change (negb (0 =? 0)) with false.
  cbv iota. apply Hask. reflexivity.
Qed.

Lemma prompt_takes_first_named_witness :
  ask_for_option
    (mkException "w" PED_EXCEPTION_WARNING
       (PED_EXCEPTION_YES + PED_EXCEPTION_NO))
    ["what?" ++ String "010" ""; "NO" ++ String "010" "";
     "yes" ++ String "010" ""]
  = Some (PED_EXCEPTION_NO, ["yes" ++ String "010" ""]).
Proof.
  apply (proj1 (prompt_takes_first_named
                  (mkException "w" PED_EXCEPTION_WARNING
                     (PED_EXCEPTION_YES + PED_EXCEPTION_NO))
                  ["what?" ++ String "010" ""] ("NO" ++ String "010" "")
                  ["yes" ++ String "010" ""] PED_EXCEPTION_NO
                  ltac:(cbv; split; [intro; discriminate | reflexivity])
                  ltac:(repeat constructor) eq_refl)).
Defined.

(** X9. A last line that ends without a newline loses its last
    character before the comparison: the bare name of an option, as
    the last thing on the input, names no option, and the prompt
    resolves to CANCEL. *)
Theorem prompt_unterminated_name_cancels (ex : PedException)
  (pre : list string) (opt : PedExceptionOption) :
  defined_options (ex_options ex) ->
  In opt all_options ->
  Forall (fun l => chosen (ex_options ex) l = None) pre ->
  chosen (ex_options ex) (ped_exception_get_option_string opt) = None /\
  ask_for_option ex (pre ++ [ped_exception_get_option_string opt])
  = Some (PED_EXCEPTION_CANCEL, []).
Proof.
  intros Hopts Hin Hpre.
  assert (Hall : forallb (fun o =>
            forallb (fun x =>
              match chosen o (ped_exception_get_option_string x) with
              | None => true
              | Some _ => false
              end) all_options) (map Z.of_nat (seq 0 128)) = true)
    by (vm_compute; reflexivity).
  pose proof (forall_below _ _ Hall (ex_options ex) Hopts) as Ho.
  cbv beta in Ho. rewrite forallb_forall in Ho. specialize (Ho opt Hin).
  assert (Hnone : chosen (ex_options ex) (ped_exception_get_option_string opt)
                  = None)
    by (destruct (chosen (ex_options ex)
                    (ped_exception_get_option_string opt));
        [discriminate | reflexivity]).
  split; [exact Hnone|].
  rewrite ask_for_option_outcome by exact Hopts.
  f_equal. apply prompt_outcome_eof. apply Forall_app. split; [exact Hpre|].
  constructor; [exact Hnone | constructor].
Qed.

Lemma prompt_unterminated_name_cancels_witness :
  ask_for_option
    (mkException "w" PED_EXCEPTION_WARNING PED_EXCEPTION_IGNORE_CANCEL)
    ["Ignore"] = Some (PED_EXCEPTION_CANCEL, []).
Proof.
  apply (proj2 (prompt_unterminated_name_cancels
                  (mkException "w" PED_EXCEPTION_WARNING
                     PED_EXCEPTION_IGNORE_CANCEL)
                  [] PED_EXCEPTION_IGNORE
                  ltac:(cbv; split; [intro; discriminate | reflexivity])
                  ltac:(cbn; tauto) ltac:(constructor))).
Defined.

Lemma chop_last (buffer : string) (c : ascii) :
  chop (buffer ++ String c "") = buffer.
Proof.
  induction buffer as [|x r IH]; [reflexivity|].
  cbn [append]. destruct r as [|y r]; [reflexivity|].
  cbn [append] in *. cbn [chop]. cbn [chop] in IH. rewrite IH. reflexivity.
Qed.

Lemma strcasecmp_eq_common (b : string) :
  forall x y : string,
    strcasecmp_eq b x = true -> strcasecmp_eq b y = true ->
    strcasecmp_eq x y = true.
Proof.
  induction b as [|c b IH]; intros [|cx x] [|cy y] Hx Hy;
    cbn [strcasecmp_eq] in *; try discriminate; [reflexivity|].
  destruct (Ascii.eqb_spec (tolower c) (tolower cx)) as [Ex|]; [|discriminate].
  destruct (Ascii.eqb_spec (tolower c) (tolower cy)) as [Ey|]; [|discriminate].
  rewrite <- Ex, <- Ey, Ascii.eqb_refl. apply (IH x y); assumption.
Qed.

Lemma option_names_differ (a b : PedExceptionOption) :
  In a all_options -> In b all_options ->
  strcasecmp_eq (ped_exception_get_option_string a)
    (ped_exception_get_option_string b) = true ->
  a = b.
Proof.
  intros Ha Hb. cbn in Ha, Hb.
  repeat (destruct Ha as [<- | Ha]; [|]);
    try contradiction;
    repeat (destruct Hb as [<- | Hb]; [|]);
    try contradiction; intros H; try reflexivity; discriminate H.
Qed.

Lemma find_the_one {A} (p : A -> bool) (l : list A) (a : A) :
  In a l -> p a = true -> (forall x, In x l -> p x = true -> x = a) ->
  find p l = Some a.
Proof.
  induction l as [|x l IH]; intros Hin Hp Huniq; [contradiction|].
  cbn [find]. destruct (p x) eqn:Hx.
  - f_equal. apply Huniq; [left; reflexivity | exact Hx].
  - destruct Hin as [-> | Hin]; [congruence|].
    apply IH; try assumption. intros y Hy. apply Huniq. right. exact Hy.
Qed.

Lemma chosen_ignores_case (options opt : PedExceptionOption)
  (buffer : string) :
  In opt (offered options) ->
  strcasecmp_eq buffer (ped_exception_get_option_string opt) = true ->
  chosen options (buffer ++ String "010" "") = Some opt.
Proof.
  intros Hin Hname. unfold chosen. rewrite chop_last.
  apply find_the_one; [exact Hin | exact Hname |].
  intros x Hx Hxname.
  unfold offered in Hin, Hx. apply filter_In in Hin, Hx.
  apply option_names_differ; [apply Hx | apply Hin |].
  apply (strcasecmp_eq_common buffer); assumption.
Qed.

(** X10. The prompt compares without regard to the case of letters:
    when the first line of the input is a text that [strcasecmp]
    equates with the name of an offered option, followed by a newline,
    [ask_for_option] returns that option and leaves the rest of the
    input unread. *)
Theorem prompt_ignores_case (ex : PedException) (opt : PedExceptionOption)
  (buffer : string) (rest : list string) :
  defined_options (ex_options ex) ->
  In opt (offered (ex_options ex)) ->
  strcasecmp_eq buffer (ped_exception_get_option_string opt) = true ->
  ask_for_option ex ((buffer ++ String "010" "")%string :: rest)
  = Some (opt, rest).
Proof.
  intros Hopts Hin Hname.
  rewrite ask_for_option_outcome by exact Hopts. f_equal.
  apply (prompt_outcome_first (ex_options ex) []); [constructor|].
  apply chosen_ignores_case; assumption.
Qed.

Lemma prompt_ignores_case_witness :
  ask_for_option
    (mkException "w" PED_EXCEPTION_WARNING PED_EXCEPTION_IGNORE_CANCEL)
    [("iGnOrE" ++ String "010" "")%string; "Cancel"]
  = Some (PED_EXCEPTION_IGNORE, ["Cancel"]).
Proof.
  apply (prompt_ignores_case
           (mkException "w" PED_EXCEPTION_WARNING PED_EXCEPTION_IGNORE_CANCEL)
           PED_EXCEPTION_IGNORE "iGnOrE" ["Cancel"]).
  - cbv. split; [intro; discriminate | reflexivity].
  - cbn. tauto.
  - reflexivity.
Defined.

Lemma prompt_outcome_domain (options : PedExceptionOption)
  (stdin : list string) :
  (In (fst (prompt_outcome options stdin)) (offered options)
   \/ fst (prompt_outcome options stdin) = PED_EXCEPTION_CANCEL) /\
  exists read : list string,
    stdin = (read ++ snd (prompt_outcome options stdin))%list.
Proof.
  induction stdin as [|line rest IH]; cbn [prompt_outcome].
  - split; [right; reflexivity | exists []; reflexivity].
  - destruct (chosen options line) as [opt|] eqn:Hc.
    + split; [left | exists [line]; reflexivity].
      unfold chosen in Hc. apply find_some in Hc. apply Hc.
    + destruct IH as [Hd [read Hr]]. split; [exact Hd|].
      exists (line :: read). cbn [app]. f_equal. exact Hr.
Qed.

(** X11. On an event that offers defined options the handler always
    comes to a result; the result is an option the event offers, or
    CANCEL, or UNHANDLED, and the input left is what followed the
    lines read. *)
Theorem handler_result_domain (force_yes : Z) (ex : PedException)
  (stdin : list string) :
  defined_options (ex_options ex) ->
  exists (r : PedExceptionOption) (rest : list string),
    fatresize_handler force_yes ex stdin = Some (r, rest) /\
    (In r (offered (ex_options ex)) \/ r = PED_EXCEPTION_CANCEL
     \/ r = PED_EXCEPTION_UNHANDLED) /\
    exists read : list string, stdin = (read ++ rest)%list.
Proof.
  intros Hopts.
  destruct (info_or_warning (ex_type ex)) eqn:Ht.
  - destruct (Z.eq_dec force_yes 0) as [->|Hforce].
    + assert (Hask : fatresize_handler 0 ex stdin = ask_for_option ex stdin)
        by (unfold fatresize_handler; destruct (ex_type ex);
            try discriminate; reflexivity).
      rewrite Hask, ask_for_option_outcome by exact Hopts.
      destruct (prompt_outcome_domain (ex_options ex) stdin) as [Hd Hr].
      destruct (prompt_outcome (ex_options ex) stdin) as [r rest].
      exists r, rest. split; [reflexivity|]. cbn [fst snd] in *.
      split; [tauto | exact Hr].
    + rewrite (fatresize_handler_forced force_yes ex stdin Hforce Ht Hopts).
      eexists _, stdin. split; [reflexivity|].
      split; [|exists []; reflexivity].
      destruct (list_eq_dec Z.eq_dec (offered (ex_options ex))
                  [PED_EXCEPTION_IGNORE; PED_EXCEPTION_CANCEL]) as [e|_].
      * left. rewrite e. left. reflexivity.
      * destruct (offered (ex_options ex)) as [|a [|b l]]; auto.
        left. left. reflexivity.
  - exists PED_EXCEPTION_CANCEL, stdin.
    split; [|split; [auto | exists []; reflexivity]].
    unfold fatresize_handler.
    destruct (ex_type ex); try discriminate; reflexivity.
Qed.

Lemma handler_result_domain_witness :
  exists (r : PedExceptionOption) (rest : list string),
    fatresize_handler 1
      (mkException "w" PED_EXCEPTION_WARNING
         (PED_EXCEPTION_YES + PED_EXCEPTION_NO)) [] = Some (r, rest) /\
    r = PED_EXCEPTION_UNHANDLED.
Proof.
  destruct (handler_result_domain 1
              (mkException "w" PED_EXCEPTION_WARNING
                 (PED_EXCEPTION_YES + PED_EXCEPTION_NO)) []
              ltac:(cbv; split; [intro; discriminate | reflexivity]))
    as (r & rest & Hrun & _ & _).
  exists r, rest. split; [exact Hrun|].
  cbv in Hrun. injection Hrun as <- _. reflexivity.
Defined.

(** ** Boundary snapper *)

(** X12. [try_snap] looks at its arguments up to the first -1 only.
    With none to look at it leaves the sector; otherwise it stops on an
    assertion when the sector is outside the range, and else adopts
    the first argument that lies in the range, or leaves the sector
    when none does. *)
Theorem try_snap_adopts_first (range : PedGeometry) (args : list PedSector)
  (sector : PedSector) :
  try_snap sector range args =
  match candidates args with
  | [] => Ret sector
  | _ :: _ =>
      if inside range sector
      then Ret (match find (inside range) (candidates args) with
                | Some c => c
                | None => sector
                end)
      else Abort
  end.
Proof. apply try_snap_candidates. Qed.

Lemma try_snap_checked (range : PedGeometry) (first : PedSector)
  (more : list PedSector) (sector sector' : PedSector) :
  first <> -1 ->
  try_snap sector range (first :: more) = Ret sector' ->
  inside range sector' = true.
Proof.
  intros Hf H. pose proof H as H'. cbn [try_snap] in H.
  destruct (Z.eqb_spec first (-1)); [contradiction|].
  unfold snap in H. destruct (inside range sector) eqn:Hs;
    cbn [negb] in H; [|discriminate].
  apply (try_snap_inside _ _ _ _ H' Hs).
Qed.

(** X13. With a valid old geometry and a requested end that lies in a
    partition, a call of [snap_to_boundaries] that returns leaves a
    start inside the start range and an end inside the end range; the
    range is the requested one untouched, or a geometry that is
    well formed. *)
Theorem snap_result_within_ranges (new_geom old_geom g : PedGeometry)
  (disk : PedDisk) (start_range end_range : PedGeometry) :
  geom_ok old_geom -> disk_typed disk ->
  in_llong (geom_end new_geom) ->
  ped_disk_get_partition_by_sector disk (geom_end new_geom) <> None ->
  snap_to_boundaries new_geom (Some old_geom) disk start_range end_range
  = Ret g ->
  inside start_range (geom_start g) = true /\
  inside end_range (geom_end g) = true /\
  (g = new_geom \/ geom_ok g).
Proof.
  intros (Hos & Hol & Hoe & Hom) Ht Hne Hend H.
  unfold snap_to_boundaries in H.
  destruct (ped_disk_get_partition_by_sector disk (geom_start new_geom))
    as [sp|] eqn:Hsp; [|discriminate].
  destruct (ped_disk_get_partition_by_sector disk (geom_end new_geom))
    as [ep|] eqn:Hep; [|contradiction].
  destruct (try_snap (geom_start new_geom) start_range
              (start_args (Some old_geom) sp)) as [s'| |] eqn:Hs';
    try discriminate.
  destruct (try_snap (geom_end new_geom) end_range
              (end_args (Some old_geom) ep)) as [e'| |] eqn:He';
    try discriminate.
  assert (Hsin : inside start_range s' = true)
    by (cbn [start_args] in Hs';
        eapply try_snap_checked; [|exact Hs']; lia).
  assert (Hein : inside end_range e' = true)
    by (cbn [end_args] in He';
        eapply try_snap_checked; [|exact He']; lia).
  assert (Hsin0 : inside start_range (geom_start new_geom) = true).
  { cbn [start_args try_snap] in Hs'.
    destruct (Z.eqb_spec (geom_start old_geom) (-1)); [lia|].
    unfold snap in Hs'.
    destruct (inside start_range (geom_start new_geom));
      [reflexivity | discriminate]. }
  assert (Hein0 : inside end_range (geom_end new_geom) = true).
  { cbn [end_args try_snap] in He'.
    destruct (Z.eqb_spec (geom_end old_geom) (-1)); [lia|].
    unfold snap in He'.
    destruct (inside end_range (geom_end new_geom));
      [reflexivity | discriminate]. }
  assert (He'in : in_llong e').
  { apply (try_snap_in_llong _ _ _ _ He' Hne).
    apply (end_args_in_llong disk _ (geom_end new_geom)); try assumption.
    unfold in_llong, LLONG_MIN. lia. }
  destruct (Z.leb_spec s' e') as [Hle|]; cbn [negb] in H; [|discriminate].
  unfold ped_geometry_set in H.
  destruct (Z.ltb_spec s' 0) as [|Hs0]; [discriminate|].
  destruct (Z.ltb_spec (add64 (sub64 e' s') 1) 1) as [|Hlen];
    injection H as <-.
  - repeat split; try assumption. left. reflexivity.
  - cbn [geom_start geom_end]. rewrite (geometry_end_back s' e' He'in).
    repeat split; try assumption. right.
    unfold geom_ok. cbn [geom_start geom_length geom_end].
    rewrite ?(geometry_end_back s' e' He'in).
    pose proof (wrap64_in_llong (wrap64 (e' - s') + 1)) as Hw.
    unfold add64, sub64 in *. rewrite wrap64_add_l in *.
    unfold in_llong, LLONG_MIN, LLONG_MAX in *.
    assert (Hfit : e' - s' + 1 <= 9223372036854775807).
    { destruct (Z.le_gt_cases (e' - s' + 1) 9223372036854775807);
        [assumption|].
      exfalso. assert (e' - s' + 1 = 2 ^ 63) as Heq by lia.
      rewrite Heq in Hlen. change (wrap64 (2 ^ 63)) with (- 2 ^ 63) in Hlen.
      lia. }
    rewrite wrap64_id in * by (unfold in_llong, LLONG_MIN, LLONG_MAX; lia).
    lia.
Qed.

Lemma snap_result_within_ranges_witness :
  inside (mkGeom 0 1 0) 0 = true /\ inside (mkGeom 99 52 150) 99 = true.
Proof.
  assert (Hok : geom_ok (mkGeom 0 100 99))
    by (unfold geom_ok, LLONG_MAX; cbn; lia).
  assert (Ht : disk_typed [mkPart (mkGeom 0 100 99) false 1 None;
                           mkPart (mkGeom 100 100 199) false 2 None]).
  { intros p Hp. cbn [In] in Hp.
    destruct Hp as [<-|[<-|[]]];
      unfold geom_typed, in_llong, LLONG_MIN, LLONG_MAX; cbn; lia. }
  destruct (snap_result_within_ranges (mkGeom 0 151 150) (mkGeom 0 100 99)
              (mkGeom 0 100 99)
              [mkPart (mkGeom 0 100 99) false 1 None;
               mkPart (mkGeom 100 100 199) false 2 None]
              (mkGeom 0 1 0) (mkGeom 99 52 150) Hok Ht
              ltac:(unfold in_llong, LLONG_MIN, LLONG_MAX; cbn; lia)
              ltac:(discriminate) eq_refl) as (H1 & H2 & _).
  split; assumption.
Defined.

(** X14. The end range pinned on the old end, as [main] makes it when
    the new end is displayed like the old one, does not bring a
    different requested end back to the old end: with the start on the
    old start and both ends in partitions of the table, the call stops
    on the assertion of [snap] on the end. *)
Theorem snap_with_pinned_end_asserts (new_geom old_geom : PedGeometry)
  (disk : PedDisk) :
  geom_ok old_geom ->
  geom_start new_geom = geom_start old_geom ->
  geom_end new_geom <> geom_end old_geom ->
  ped_disk_get_partition_by_sector disk (geom_start new_geom) <> None ->
  ped_disk_get_partition_by_sector disk (geom_end new_geom) <> None ->
  snap_to_boundaries new_geom (Some old_geom) disk
    (mkGeom (geom_start old_geom) 1 (geom_start old_geom))
    (mkGeom (geom_end old_geom) 1 (geom_end old_geom)) = Abort.
Proof.
  intros (Hos & Hol & Hoe & Hom) Hs Hne Hsp Hep.
  destruct (ped_disk_get_partition_by_sector disk (geom_start new_geom))
    as [sp|] eqn:Esp; [|contradiction].
  destruct (ped_disk_get_partition_by_sector disk (geom_end new_geom))
    as [ep|] eqn:Eep; [|contradiction].
  apply (snap_pinned_end_aborts new_geom old_geom disk _ _ sp ep
           (geom_start old_geom)); try assumption; [lia|].
  cbn [start_args]. rewrite Hs. rewrite try_snap_first by lia.
  unfold ped_geometry_test_sector_inside. cbn [geom_start geom_end].
  rewrite !Z.leb_refl. reflexivity.
Qed.

Lemma snap_with_pinned_end_asserts_witness :
  snap_to_boundaries (mkGeom 2048 1000001 1002048)
    (Some (mkGeom 2048 1046528 1048575)) mock_table
    (mkGeom 2048 1 2048) (mkGeom 1048575 1 1048575) = Abort.
Proof.
  apply (snap_with_pinned_end_asserts (mkGeom 2048 1000001 1002048)
           (mkGeom 2048 1046528 1048575) mock_table).
  - unfold geom_ok, LLONG_MAX; cbn; lia.
  - reflexivity.
  - discriminate.
  - discriminate.
  - discriminate.
Defined.

(** X15. With a valid old geometry, a request whose start and end lie
    in partitions of the table and in their ranges snaps back to the
    old geometry whenever the old start and the old end lie in those
    ranges too: the change is taken as no change, whatever the
    partition boundaries around. *)
Theorem snap_back_to_old (new_geom old_geom : PedGeometry) (disk : PedDisk)
  (start_range end_range : PedGeometry) :
  geom_ok old_geom ->
  ped_disk_get_partition_by_sector disk (geom_start new_geom) <> None ->
  ped_disk_get_partition_by_sector disk (geom_end new_geom) <> None ->
  inside start_range (geom_start new_geom) = true ->
  inside end_range (geom_end new_geom) = true ->
  inside start_range (geom_start old_geom) = true ->
  inside end_range (geom_end old_geom) = true ->
  snap_to_boundaries new_geom (Some old_geom) disk start_range end_range
  = Ret old_geom.
Proof.
  intros Hok Hsp Hep Hs He Hos Hoe.
  pose proof Hok as (Hs0 & Hl & Hend & Hmax).
  unfold snap_to_boundaries.
  destruct (ped_disk_get_partition_by_sector disk (geom_start new_geom))
    as [sp|]; [|contradiction].
  destruct (ped_disk_get_partition_by_sector disk (geom_end new_geom))
    as [ep|]; [|contradiction].
  rewrite !try_snap_candidates. cbn [start_args end_args candidates].
  destruct (Z.eqb_spec (geom_start old_geom) (-1)); [lia|].
  destruct (Z.eqb_spec (geom_end old_geom) (-1)); [lia|].
  rewrite Hs, He. cbn [find]. rewrite Hos, Hoe.
  destruct (Z.leb_spec (geom_start old_geom) (geom_end old_geom)); [|lia].
  cbn [negb]. rewrite ped_geometry_set_same by assumption. reflexivity.
Qed.

Lemma snap_back_to_old_witness :
  snap_to_boundaries (mkGeom 0 151 150) (Some (mkGeom 0 100 99))
    [mkPart (mkGeom 0 100 99) false 1 None;
     mkPart (mkGeom 100 100 199) false 2 None]
    (mkGeom 0 1 0) (mkGeom 99 52 150)
  = Ret (mkGeom 0 100 99).
Proof.
  apply (snap_back_to_old (mkGeom 0 151 150) (mkGeom 0 100 99));
    try reflexivity; try discriminate.
  unfold geom_ok, LLONG_MAX; cbn; lia.
Defined.

(** ** Device name analysis *)

(** On a text of digits the backward scan runs off its start. *)
Lemma scan_back_off_start (dev : string) :
  all_digits dev = true ->
  forall (k fuel : nat),
    (k <= String.length dev)%nat -> (k < fuel)%nat ->
    scan_back fuel dev (Z.of_nat k - 1) = None.
Proof.
  intros Hd. induction k as [|k IH]; intros fuel Hk Hf;
    (destruct fuel as [|fuel]; [lia|]); cbn [scan_back].
  - reflexivity.
  - replace (Z.of_nat (S k) - 1) with (Z.of_nat k) by lia.
    destruct (get_all_digits dev k Hd ltac:(lia)) as (d & Hg & Hdig).
    rewrite (char_at_inside _ _ _ Hg), Hdig.
    pose proof (isdigit_code d Hdig) as Hcode.
    rewrite (eqb_code_neq d NUL) by (change (code NUL) with 0; lia).
    rewrite (eqb_code_neq d "/") by (change (code "/") with 47; lia).
    cbn [negb andb]. apply IH; lia.
Qed.

(** A text that is not made of digits only ends with a character that
    is not a digit, followed by digits. *)
Lemma last_non_digit (dev : string) :
  all_digits dev = false ->
  exists (pre : string) (c : ascii) (ds : string),
    dev = (pre ++ String c ds)%string /\ isdigit c = false /\
    all_digits ds = true.
Proof.
  induction dev as [|x r IH]; cbn [all_digits]; intros H; [discriminate|].
  destruct (all_digits r) eqn:Hr.
  - rewrite andb_true_r in H. exists "", x, r. repeat split; assumption.
  - destruct (IH eq_refl) as (pre & c & ds & -> & Hc & Hd).
    exists (String x pre), c, ds. repeat split; assumption.
Qed.

Lemma get_partnum_nonzero (dev : string) (n : Z) :
  get_partnum dev = Some n -> n <> 0.
Proof.
  unfold get_partnum.
  destruct (scan_back (S (String.length dev)) dev (strlen dev - 1)) as [p|];
    [|discriminate].
  intros [= <-].
  destruct (Z.eqb_spec (atoi (string_from (Z.to_nat (p + 1)) dev)) 0);
    cbn [negb]; lia.
Qed.

(** X16. [get_partnum] reads before the start of the path exactly when
    the path is made of digits only (the empty path included); on any
    other path it returns a number that is never 0. *)
Theorem get_partnum_defined (dev : string) :
  (get_partnum dev = None <-> all_digits dev = true) /\
  (forall n : Z, get_partnum dev = Some n -> n <> 0).
Proof.
  destruct (all_digits dev) eqn:Hd.
  - assert (Hnone : get_partnum dev = None).
    { unfold get_partnum, strlen.
      rewrite (scan_back_off_start dev Hd (String.length dev)
                 (S (String.length dev))) by lia.
      reflexivity. }
    rewrite Hnone. split; [tauto | discriminate].
  - destruct (last_non_digit dev Hd) as (pre & c & ds & -> & Hc & Hds).
    rewrite (get_partnum_path pre ds c Hc Hds). split.
    + split; discriminate.
    + intros n [= <-]. destruct (Z.eqb_spec (atoi ds) 0); cbn [negb]; lia.
Qed.

(** X17. [get_device] records the path it was given as the full
    path.  It returns 0 with the device unset, or 1 with the device
    set to a buffer that [probe_device] accepted when it read it; for
    a path that is not a block device that buffer is the copy of the
    path and the device is the probed name itself.  For a block device
    the NUL of the buffer may lie outside its allocation, and the name
    [main] reads later need not be the name that was probed. *)
Theorem get_device_records_probed_name (stat : string -> option file_type)
  (probe : string -> bool) (beyond : Z -> string) (dev : string)
  (o o' : options) (r : Z) :
  get_device stat probe beyond dev o = Some (r, o') ->
  fullpath o' = Some dev /\
  ((r = 1 /\
    exists (b : buffer) (line : Z),
      device o' = Some (c_string beyond b 554) /\
      probe (c_string beyond b line) = true /\
      (stat dev <> Some S_IFBLK -> b = mkBuffer dev true) /\
      (buf_terminated b = true ->
       device o' = Some (buf_text b) /\ probe (buf_text b) = true))
   \/ (r = 0 /\ device o' = None)).
Proof.
  unfold get_device. cbv zeta. intros H.
  destruct (stat dev) as [st|]; [|injection H as <- <-; auto].
  destruct st; cbn [S_ISBLK S_ISCHR negb andb] in H;
    try (destruct (probe dev) eqn:Hp; cbn [negb] in H; injection H as <- <-;
         cbn [fullpath device set_device]; [|auto];
         split; [reflexivity|]; left; split; [reflexivity|];
         exists (mkBuffer dev true), 0; unfold c_string; cbn;
         repeat split; solve [reflexivity | exact Hp]).
  destruct (scan_back (S (String.length dev)) dev (strlen dev - 1))
    as [p|]; [|discriminate].
  destruct (probe (c_string beyond (strip_partition dev p) 201)) eqn:Hp;
    cbn [negb] in H.
  - assert (Hdev : o' = set_device o' (Some dev)
                     (Some (c_string beyond (strip_partition dev p) 554))
                   /\ r = 1).
    { cbn [pnum set_device] in H. destruct (pnum o <? 0).
      - destruct (get_partnum dev) as [n|]; [|discriminate].
        injection H as <- <-. split; reflexivity.
      - injection H as <- <-. split; reflexivity. }
    destruct Hdev as [-> ->]. cbn [fullpath device set_device].
    split; [reflexivity|]. left. split; [reflexivity|].
    exists (strip_partition dev p), 201.
    split; [reflexivity|]. split; [exact Hp|].
    split; [intros Hne; congruence|].
    intros Ht. unfold c_string in *. rewrite Ht in *. auto.
  - destruct (probe (c_string beyond (mkBuffer dev false) 204)) eqn:Hp';
      cbn [negb] in H; injection H as <- <-;
      cbn [fullpath device set_device]; [|auto].
    split; [reflexivity|]. left. split; [reflexivity|].
    exists (mkBuffer dev false), 204.
    split; [reflexivity|]. split; [exact Hp'|].
    split; [intros Hne; congruence|].
    cbn [buf_terminated]. discriminate.
Qed.

(** The witness of X17: a block device that is probed under its full
    name only, with a byte [a] after the buffer when [main] reads the
    name. *)
Lemma get_device_records_probed_name_witness :
  fullpath (set_device (mkOpts None None 2 0 0 0 0 0)
              (Some "/dev/DATA1") (Some "/dev/DATA1a")) = Some "/dev/DATA1" /\
  ((1 = 1 /\
    exists (b : buffer) (line : Z),
      Some "/dev/DATA1a"
      = Some (c_string (fun l => if l =? 554 then "a" else "") b 554) /\
      String.eqb
        (c_string (fun l => if l =? 554 then "a" else "") b line)
        "/dev/DATA1" = true /\
      (Some S_IFBLK <> Some S_IFBLK -> b = mkBuffer "/dev/DATA1" true) /\
      (buf_terminated b = true ->
       Some "/dev/DATA1a" = Some (buf_text b) /\
       String.eqb (buf_text b) "/dev/DATA1" = true))
   \/ (1 = 0 /\ Some "/dev/DATA1a" = None)).
Proof.
  apply (get_device_records_probed_name (fun _ => Some S_IFBLK)
           (fun path => String.eqb path "/dev/DATA1")
           (fun l => if l =? 554 then "a" else "")
           "/dev/DATA1" (mkOpts None None 2 0 0 0 0 0)
           (set_device (mkOpts None None 2 0 0 0 0 0)
              (Some "/dev/DATA1") (Some "/dev/DATA1a")) 1 eq_refl).
Defined.

(** X18. [get_device] changes the partition number in one case only:
    none was set yet (it is below zero), the path is a block device
    and its name without the partition part probes; the number is then
    the one [get_partnum] reads, never 0.  A number given before the
    device and a path that is not a block device leave it as it was. *)
Theorem get_device_keeps_partition_number
  (stat : string -> option file_type) (probe : string -> bool)
  (beyond : Z -> string) (dev : string) (o o' : options) (r : Z) :
  get_device stat probe beyond dev o = Some (r, o') ->
  (0 <= pnum o -> pnum o' = pnum o) /\
  (stat dev <> Some S_IFBLK -> pnum o' = pnum o) /\
  (pnum o' <> pnum o ->
   r = 1 /\ get_partnum dev = Some (pnum o') /\ pnum o' <> 0).
Proof.
  unfold get_device. cbv zeta. intros H.
  destruct (stat dev) as [st|];
    [|injection H as <- <-; cbn; repeat split; congruence].
  destruct st; cbn [S_ISBLK S_ISCHR negb andb] in H;
    try (destruct (probe dev); cbn [negb] in H; injection H as <- <-; cbn;
         repeat split; congruence).
  destruct (scan_back (S (String.length dev)) dev (strlen dev - 1))
    as [p|] eqn:Hscan; [|discriminate].
  destruct (probe (c_string beyond (strip_partition dev p) 201)) eqn:Hp;
    cbn [negb] in H.
  - cbn [pnum set_device] in H. destruct (Z.ltb_spec (pnum o) 0).
    + destruct (get_partnum dev) as [n|] eqn:Hn; [|discriminate].
      injection H as <- <-. cbn. split; [lia|]. split; [congruence|].
      intros _. split; [reflexivity|]. split; [reflexivity|].
      apply (get_partnum_nonzero dev), Hn.
    + injection H as <- <-. cbn. repeat split; congruence.
  - destruct (probe (c_string beyond (mkBuffer dev false) 204));
      cbn [negb] in H; injection H as <- <-; cbn;
      repeat split; congruence.
Qed.

Lemma get_device_keeps_partition_number_witness :
  pnum (set_device (mkOpts None None 2 0 0 0 0 0)
          (Some "/dev/sda1") (Some "/dev/sda")) = 2.
Proof.
  apply (proj1 (get_device_keeps_partition_number (fun _ => Some S_IFBLK)
                  (fun _ => true) (fun _ => "") "/dev/sda1"
                  (mkOpts None None 2 0 0 0 0 0)
                  _ 1 eq_refl)).
  cbn. lia.
Defined.

Lemma get_partnum_defined_witness :
  get_partnum "/dev/sdb0" = Some 1 /\ 1 <> 0.
Proof.
  split; [reflexivity|].
  apply (proj2 (get_partnum_defined "/dev/sdb0") 1). reflexivity.
Defined.

(** X19. For a block device path made of a name, a character that is
    not a digit and at least one partition digit, the name
    [get_device] probes first is the path without the digits; when
    that character is a [p] that follows a digit more than two
    characters into the path, the [p] goes too (the scheme of nvme0n1p3
    and mmcblk0p1).  When that name probes it becomes the device; when
    it does not, the whole path is probed instead, through a copy whose
    NUL lies outside the buffer. *)
Theorem get_device_probes_stripped_name (stat : string -> option file_type)
  (probe : string -> bool) (beyond : Z -> string) (pre ds : string)
  (c : ascii) (o : options) :
  isdigit c = false -> all_digits ds = true -> ds <> "" ->
  stat (pre ++ String c ds) = Some S_IFBLK ->
  let dev := (pre ++ String c ds)%string in
  let name :=
    if (2 <? strlen pre) && Ascii.eqb c "p"
       && match String.get (String.length pre - 1) pre with
          | Some d => isdigit d
          | None => false
          end
    then pre
    else (pre ++ String c "")%string in
  (probe name = true ->
   exists o' : options,
     get_device stat probe beyond dev o = Some (1, o') /\
     device o' = Some name) /\
  (probe name = false ->
   get_device stat probe beyond dev o
   = if probe (dev ++ beyond 204)
     then Some (1, set_device o (Some dev) (Some (dev ++ beyond 554)%string))
     else Some (0, set_device o (Some dev) None)).
Proof.
  intros Hc Hd Hds Hstat dev name.
  assert (Hname : forall line : Z,
            c_string beyond (strip_partition dev (strlen pre)) line = name).
  { intros line. subst dev name.
    rewrite strip_partition_terminated by exact Hds.
    rewrite strip_partition_path.
    destruct ((2 <? strlen pre) && Ascii.eqb c "p"
              && match String.get (String.length pre - 1) pre with
                 | Some d => isdigit d
                 | None => false
                 end); reflexivity. }
  assert (Hrun : get_device stat probe beyond dev o
    = if negb (probe name) then
        if negb (probe (dev ++ beyond 204)) then
          Some (0, set_device o (Some dev) None)
        else Some (1, set_device (set_device o (Some dev) None) (Some dev)
                        (Some (dev ++ beyond 554)%string))
      else if pnum o <? 0 then
        match get_partnum dev with
        | None => None
        | Some n =>
            Some (1, set_device (set_pnum (set_device o (Some dev) None) n)
                       (Some dev) (Some name))
        end
      else Some (1, set_device (set_device o (Some dev) None) (Some dev)
                      (Some name))).
  { unfold get_device. subst dev. rewrite Hstat.
    cbn [S_ISBLK S_ISCHR negb andb].
    rewrite scan_back_path by assumption. cbv zeta.
    rewrite !Hname. unfold c_string. cbn [buf_terminated buf_text pnum
      set_device]. reflexivity. }
  rewrite Hrun. split; intros Hp; rewrite Hp; cbn [negb].
  - destruct (pnum o <? 0).
    + subst dev. rewrite get_partnum_path by assumption.
      eexists. split; reflexivity.
    + eexists. split; reflexivity.
  - destruct (probe (dev ++ beyond 204)); reflexivity.
Qed.

(** The witness of X19: the first partition of an SD card. *)
Lemma get_device_probes_stripped_name_witness :
  exists o' : options,
    get_device (fun _ => Some S_IFBLK)
      (fun path => String.eqb path "/dev/mmcblk0") (fun _ => "a")
      "/dev/mmcblk0p1" (mkOpts None None (-1) 0 0 0 0 0) = Some (1, o') /\
    device o' = Some "/dev/mmcblk0".
Proof.
  apply (proj1 (get_device_probes_stripped_name (fun _ => Some S_IFBLK)
                  (fun path => String.eqb path "/dev/mmcblk0") (fun _ => "a")
                  "/dev/mmcblk0" "1" "p" (mkOpts None None (-1) 0 0 0 0 0)
                  eq_refl eq_refl ltac:(discriminate) eq_refl)).
  reflexivity.
Defined.

(** ** Progress display *)

(** X20. [resize_handler] keeps its context below verbosity 3 (and
    writes nothing when quiet).  At verbosity 3 and more it writes a
    line whose minutes and seconds add up to the time left of the
    context; it changes the context only on a tick whose second is a
    new one, past the start of the operation, and then to that second
    and to the predicted end minus it.  Called again on the same tick
    it changes nothing and writes the same. *)
Theorem resize_handler_steady (verbose : Z) (timer : PedTimer)
  (tctx : TimerContext) :
  let r := resize_handler verbose timer tctx in
  resize_handler verbose timer (fst r) = r /\
  (verbose < 3 -> fst r = tctx) /\
  (verbose = -1 -> snd r = draw_nothing) /\
  (3 <= verbose ->
   exists m s : Z,
     snd r = draw_line (timer_state_name timer) m s /\
     60 * m + s = predicted_time_left (fst r) /\ -60 < s < 60) /\
  (fst r <> tctx ->
   3 <= verbose /\ timer_start timer < timer_now timer /\
   last_update tctx <> timer_now timer /\
   fst r = mkTimerContext (timer_now timer)
             (sub64 (timer_predicted_end timer) (timer_now timer))).
Proof.
  unfold resize_handler.
  destruct (Z.eqb_spec verbose (-1)) as [Hq|Hq].
  { cbn [fst snd]. rewrite Hq. cbn.
    repeat split; try reflexivity; try lia; congruence. }
  destruct (Z.ltb_spec verbose 3) as [Hv|Hv].
  { cbn [fst snd]. destruct (Z.eqb_spec verbose (-1)); [contradiction|].
    destruct (Z.ltb_spec verbose 3); [|lia].
    repeat split; try reflexivity; try lia; congruence. }
  cbn [fst snd].
  assert (Hline : forall t : TimerContext,
            exists m s : Z,
              draw_line (timer_state_name timer)
                (Z.quot (predicted_time_left t) 60)
                (Z.rem (predicted_time_left t) 60)
              = draw_line (timer_state_name timer) m s /\
              60 * m + s = predicted_time_left t /\ -60 < s < 60).
  { intros t. eexists _, _. split; [reflexivity|].
    pose proof (Z.quot_rem' (predicted_time_left t) 60).
    pose proof (Z.rem_bound_abs (predicted_time_left t) 60 ltac:(lia)).
    lia. }
  destruct (negb (last_update tctx =? timer_now timer)
            && (timer_start timer <? timer_now timer)) eqn:Hb;
    cbn [fst snd].
  - apply andb_prop in Hb. destruct Hb as [Hl Hs].
    apply negb_true_iff, Z.eqb_neq in Hl. apply Z.ltb_lt in Hs.
    cbn [last_update]. rewrite Z.eqb_refl. cbn [negb andb].
    repeat match goal with
           | |- _ /\ _ => split
           | |- _ -> _ => intro
           end;
      try reflexivity; try lia; try assumption; apply Hline.
  - rewrite Hb.
    repeat match goal with
           | |- _ /\ _ => split
           | |- _ -> _ => intro
           end;
      try reflexivity; try lia; try congruence; apply Hline.
Qed.

Lemma resize_handler_steady_witness :
  exists m s : Z,
    snd (resize_handler 3 (mkTimer 100 175 300 (Some "copying"))
           (mkTimerContext 0 0))
    = draw_line (Some "copying") m s /\ 60 * m + s = 125.
Proof.
  destruct (proj1 (proj2 (proj2 (proj2
              (resize_handler_steady 3 (mkTimer 100 175 300 (Some "copying"))
                 (mkTimerContext 0 0))))) ltac:(lia))
    as (m & s & Hline & Hsum & _).
  exists m, s. split; [exact Hline | exact Hsum].
Defined.

(* ================================================================== *)
(** ** The whole run *)

Lemma ped_geometry_init_zero (l : PedSector) :
  ped_geometry_init 0 l
  = Ret (if l <? 1 then None else Some (mkGeom 0 l (sub64 (add64 0 l) 1))).
Proof.
  unfold ped_geometry_init, ped_geometry_set. cbn [Z.ltb Z.compare].
  destruct (l <? 1); reflexivity.
Qed.

(** The functions of libparted modelled here return or abort; they
    never leave the process through [exit]. *)
Lemma ped_geometry_set_returns (g : PedGeometry) (start length : PedSector)
  (c : Z) : ped_geometry_set g start length <> Exit c.
Proof.
  unfold ped_geometry_set.
  destruct (start <? 0); [discriminate|].
  destruct (length <? 1); discriminate.
Qed.

Lemma ped_geometry_init_returns (start length : PedSector) (c : Z) :
  ped_geometry_init start length <> Exit c.
Proof.
  unfold ped_geometry_init.
  destruct (ped_geometry_set (mkGeom 0 0 0) start length) as [[r g]|c'|] eqn:E.
  - destruct r; discriminate.
  - destruct (ped_geometry_set_returns _ _ _ _ E).
  - discriminate.
Qed.

Lemma try_snap_returns (range : PedGeometry) (args : list PedSector)
  (sector : PedSector) (c : Z) : try_snap sector range args <> Exit c.
Proof.
  revert sector.
  induction args as [|a more IH]; intros sector; cbn [try_snap];
    [discriminate|].
  destruct (a =? -1); [discriminate|].
  unfold snap.
  destruct (negb (inside range sector)); [discriminate|].
  destruct (negb (inside range a)).
  - change (negb (0 =? 0)) with false. cbv iota. apply IH.
  - change (negb (1 =? 0)) with true. cbv iota. discriminate.
Qed.

Lemma snap_to_boundaries_returns (new_geom : PedGeometry)
  (old_geom : option PedGeometry) (disk : PedDisk)
  (start_range end_range : PedGeometry) (c : Z) :
  snap_to_boundaries new_geom old_geom disk start_range end_range <> Exit c.
Proof.
  unfold snap_to_boundaries. cbv zeta.
  destruct (ped_disk_get_partition_by_sector disk (geom_start new_geom))
    as [sp|]; [|discriminate].
  destruct (ped_disk_get_partition_by_sector disk (geom_end new_geom))
    as [ep|]; [|discriminate].
  destruct (try_snap (geom_start new_geom) start_range
              (start_args old_geom sp)) as [s'|c'|] eqn:Es;
    [|destruct (try_snap_returns _ _ _ _ Es)|discriminate].
  destruct (try_snap (geom_end new_geom) end_range (end_args old_geom ep))
    as [e'|c'|] eqn:Ee;
    [|destruct (try_snap_returns _ _ _ _ Ee)|discriminate].
  destruct (negb (s' <=? e')); [discriminate|].
  destruct (ped_geometry_set new_geom s' (add64 (sub64 e' s') 1))
    as [[r g]|c'|] eqn:Eg;
    [discriminate|destruct (ped_geometry_set_returns _ _ _ _ Eg)|discriminate].
Qed.

Lemma preceded_before (guard target : event -> bool) (pre : list event) :
  forall (tr : list event) (seen : bool) (e : event) (post : list event),
    preceded guard target seen tr = true ->
    tr = (pre ++ e :: post)%list -> target e = true ->
    seen || existsb guard pre = true.
Proof.
  induction pre as [|x pre IH]; intros tr seen e post H -> He;
    cbn [app preceded existsb] in *; apply andb_prop in H; destruct H as [Hx Ht].
  - rewrite He in Hx. rewrite Hx. reflexivity.
  - rewrite orb_assoc. exact (IH _ _ e post Ht eq_refl He).
Qed.

Lemma exited_0_or_1_cases (s : status) :
  exited_0_or_1 s = true -> s = Exited 0 \/ s = Exited 1.
Proof.
  destruct s as [c| |]; try discriminate.
  destruct c as [|c|c]; try discriminate; [left; reflexivity|].
  destruct c; try discriminate. right; reflexivity.
Qed.

Lemma exited_0_only (s : status) : exited_0 s = true -> s = Exited 0.
Proof.
  destruct s as [c| |]; try discriminate.
  destruct c; try discriminate. reflexivity.
Qed.

(** The innermost condition of a test. *)
Ltac atom x :=
  lazymatch x with
  | negb ?b => atom b
  | andb ?a _ => atom a
  | orb ?a _ => atom a
  | _ => x
  end.

(** Follows every path of a run: a test is split on its innermost
    condition, the modelled functions of libparted on the ways they
    can end. *)
Ltac all_paths :=
  repeat (progress cbn [fst snd app negb andb orb]
          || (progress change (0 =? 0) with true)
          || (progress change (1 =? 0) with false)
          || match goal with
             | |- context [ped_geometry_init 0 ?l] =>
                 rewrite (ped_geometry_init_zero l)
             | |- context [match ?x with _ => _ end] =>
                 lazymatch x with
                 | context [match _ with _ => _ end] => fail
                 | ped_geometry_init _ _ =>
                     let E := fresh "E" in
                     destruct x eqn:E;
                     [|destruct (ped_geometry_init_returns _ _ _ E)|]
                 | snap_to_boundaries _ _ _ _ _ =>
                     let E := fresh "E" in
                     destruct x eqn:E;
                     [|destruct (snap_to_boundaries_returns _ _ _ _ _ _ E)|]
                 | _ => let a := atom x in destruct a
                 end
             end).

Section WholeRun.

Context {World Disk Part Fs Constraint : Type}.
Variable lib : Services World Disk Part Fs Constraint.

Lemma main_paths (opts : options) (w : World) :
  run_check opts (run_status lib opts w) (run_trace lib opts w) = true.
Proof.
  unfold run_status, run_trace, main, resize_plan, apply_resize,
    build_constraint, plan_geometry, end_range, query_size, open_target,
    partition_warn_busy, constraint_from_start_end,
    constraint_intersect_and_destroy,
    deref, pure, bind, call, call_, read, halt, stop, ret,
    ped_geometry_duplicate, ped_geometry_new.
  destruct (info opts =? 0) eqn:Hi, (0 <? pnum opts) eqn:Hp.
  all: all_paths.
  all: unfold run_check; rewrite ?Hi, ?Hp.
  all: reflexivity.
Qed.

(** The parts of [run_check], with the end of the run named. *)
Lemma run_facts (opts : options) (w : World) :
  exists s : status,
    run_status lib opts w = Halt s /\
    (if info opts =? 0 then
       (if exited_0 s then
          existsb is_resize_ok (run_trace lib opts w)
          && existsb is_device_close (run_trace lib opts w)
          && (if 0 <? pnum opts
              then existsb is_set_geom_ok (run_trace lib opts w)
                   && existsb is_commit_ok (run_trace lib opts w)
              else true)
        else true)
       && (if 0 <? pnum opts then true
           else negb (existsb mutating (run_trace lib opts w))
                && failed_or_undefined s)
     else exited_0_or_1 s && negb (existsb mutating (run_trace lib opts w)))
    = true /\
    (if existsb is_device_close (run_trace lib opts w)
     then exited_0 s && existsb is_resize_ok (run_trace lib opts w)
     else true) = true /\
    preceded is_intersect_ok mutating false (run_trace lib opts w) = true /\
    (if 0 <? pnum opts
     then preceded is_free is_fs_open false (run_trace lib opts w)
     else true) = true.
Proof.
  pose proof (main_paths opts w) as H. unfold run_check in H.
  destruct (run_status lib opts w) as [[]|s]; [discriminate|].
  exists s. split; [reflexivity|].
  apply andb_prop in H. destruct H as [H H4].
  apply andb_prop in H. destruct H as [H H3].
  apply andb_prop in H. destruct H as [H1 H2].
  auto.
Qed.

(** X21. With [-i] the run is read-only and ends with [return 0] or
    [return 1]: it makes no call that changes the partition table, the
    file system or the partition type, and no assertion of the modelled
    functions can fail on the way. *)
Theorem info_mode_read_only (opts : options) (w : World) :
  info opts <> 0 ->
  exists s : status,
    run_status lib opts w = Halt s /\
    (s = Exited 0 \/ s = Exited 1) /\
    existsb mutating (run_trace lib opts w) = false.
Proof.
  intros Hi. destruct (run_facts opts w) as (s & Hs & H & _).
  apply Z.eqb_neq in Hi. rewrite Hi in H.
  apply andb_prop in H. destruct H as [H0 Hm].
  exists s. split; [exact Hs|]. split.
  - apply exited_0_or_1_cases, H0.
  - apply negb_true_iff, Hm.
Qed.

(** X22. Without [-i], a run that ends with [return 0] resized the
    file system successfully and closed the device; when a partition
    number is set it also changed the partition geometry and committed
    the table, both successfully. *)
Theorem success_means_resized (opts : options) (w : World) :
  info opts = 0 ->
  run_status lib opts w = Halt (Exited 0) ->
  existsb is_resize_ok (run_trace lib opts w) = true /\
  existsb is_device_close (run_trace lib opts w) = true /\
  (0 < pnum opts ->
   existsb is_set_geom_ok (run_trace lib opts w) = true /\
   existsb is_commit_ok (run_trace lib opts w) = true).
Proof.
  intros Hi Hrun. destruct (run_facts opts w) as (s & Hs & H & _).
  rewrite Hrun in Hs. injection Hs as <-.
  apply Z.eqb_eq in Hi. rewrite Hi in H. cbn [exited_0] in H.
  apply andb_prop in H. destruct H as [H _].
  apply andb_prop in H. destruct H as [H Hp].
  apply andb_prop in H. destruct H as [Hr Hc].
  split; [exact Hr|]. split; [exact Hc|].
  intros Hn. apply Z.ltb_lt in Hn. rewrite Hn in Hp.
  apply andb_prop in Hp. exact Hp.
Qed.

(** X23. [ped_device_close] is called on the way to [return 0] only:
    a run that closes the device ends with 0 and has resized the file
    system, so every failing run and every run with [-i] leaves the
    device open when the process ends. *)
Theorem device_closed_on_success_only (opts : options) (w : World) :
  existsb is_device_close (run_trace lib opts w) = true ->
  run_status lib opts w = Halt (Exited 0) /\
  existsb is_resize_ok (run_trace lib opts w) = true /\
  info opts = 0.
Proof.
  intros Hc. destruct (run_facts opts w) as (s & Hs & Hi & H & _).
  rewrite Hc in H. apply andb_prop in H. destruct H as [H0 Hr].
  apply exited_0_only in H0. subst s.
  split; [exact Hs|]. split; [exact Hr|].
  destruct (Z.eqb_spec (info opts) 0) as [E|E]; [exact E|].
  apply andb_prop in Hi. destruct Hi as [_ Hm].
  apply negb_true_iff in Hm.
  assert (Hmut : existsb mutating (run_trace lib opts w) = true).
  { apply existsb_exists in Hr. destruct Hr as (e & Hin & He).
    apply existsb_exists. exists e. split; [exact Hin|].
    destruct e; try discriminate. reflexivity. }
  congruence.
Qed.

(** X24. Nothing is changed before the resize constraint is known:
    every call that changes the partition table, the file system or the
    partition type comes after a [ped_constraint_intersect] that
    returned a constraint. *)
Theorem change_after_constraint (opts : options) (w : World)
  (pre : list event) (e : event) (post : list event) :
  run_trace lib opts w = (pre ++ e :: post)%list ->
  mutating e = true ->
  existsb is_intersect_ok pre = true.
Proof.
  intros Heq He. destruct (run_facts opts w) as (s & _ & _ & _ & H & _).
  exact (preceded_before _ _ pre _ false e post H Heq He).
Qed.

(** X25. With a partition number, the file system is opened only
    after [ped_partition_is_busy] said that the partition is not in
    use. *)
Theorem open_after_busy_test (opts : options) (w : World)
  (pre : list event) (e : event) (post : list event) :
  0 < pnum opts ->
  run_trace lib opts w = (pre ++ e :: post)%list ->
  is_fs_open e = true ->
  existsb is_free pre = true.
Proof.
  intros Hn Heq He. destruct (run_facts opts w) as (s & _ & _ & _ & _ & H).
  apply Z.ltb_lt in Hn. rewrite Hn in H.
  exact (preceded_before _ _ pre _ false e post H Heq He).
Qed.

(** X26. Without a partition number and without [-i] no run gets
    through the plan of the resize: it returns 1 or stops on an
    assertion, or it reaches line 659, where [snap_to_boundaries] is
    handed the local [disk] that only the branch for a partition
    number assigns; reading it is undefined in C, and the run ends
    there as [Undefined].  No changing call comes before that point. *)
Theorem whole_device_plan_undefined (opts : options) (w : World) :
  pnum opts <= 0 -> info opts = 0 ->
  exists s : status,
    run_status lib opts w = Halt s /\
    (s = Exited 1 \/ s = Aborted \/ s = Undefined) /\
    existsb mutating (run_trace lib opts w) = false.
Proof.
  intros Hn Hi. destruct (run_facts opts w) as (s & Hs & H & _).
  apply Z.eqb_eq in Hi. rewrite Hi in H.
  apply andb_prop in H. destruct H as [_ H].
  destruct (Z.ltb_spec 0 (pnum opts)) as [Hlt|_]; [lia|].
  apply andb_prop in H. destruct H as [Hm H0].
  exists s. split; [exact Hs|]. split.
  - destruct s as [c| |]; [|auto|auto].
    destruct c as [|c|c]; try discriminate.
    destruct c; try discriminate. auto.
  - apply negb_true_iff, Hm.
Qed.

End WholeRun.

Lemma info_mode_read_only_witness :
  exists s : status,
    run_status mock_services mock_info_opts mock_table = Halt s /\
    (s = Exited 0 \/ s = Exited 1) /\
    existsb mutating (run_trace mock_services mock_info_opts mock_table)
    = false.
Proof.
  apply (info_mode_read_only mock_services mock_info_opts mock_table).
  cbn. lia.
Defined.

Lemma success_means_resized_witness :
  existsb is_resize_ok
    (run_trace mock_services (mock_opts 268435456) mock_table) = true /\
  existsb is_device_close
    (run_trace mock_services (mock_opts 268435456) mock_table) = true /\
  (0 < 1 ->
   existsb is_set_geom_ok
     (run_trace mock_services (mock_opts 268435456) mock_table) = true /\
   existsb is_commit_ok
     (run_trace mock_services (mock_opts 268435456) mock_table) = true).
Proof.
  apply (success_means_resized mock_services (mock_opts 268435456)
           mock_table); reflexivity.
Defined.

Lemma device_closed_on_success_only_witness :
  run_status mock_services (mock_opts 268435456) mock_table
  = Halt (Exited 0) /\
  existsb is_resize_ok
    (run_trace mock_services (mock_opts 268435456) mock_table) = true /\
  info (mock_opts 268435456) = 0.
Proof.
  apply (device_closed_on_success_only mock_services (mock_opts 268435456)
           mock_table).
  reflexivity.
Defined.

Lemma change_after_constraint_witness :
  existsb is_intersect_ok
    [ev_exception_set_handler; ev_device_get "/dev/sdz" true;
     ev_device_open true; ev_disk_new true; ev_disk_get_partition 1 true;
     ev_partition_is_busy false; ev_unit_format 1048575 "#######";
     ev_unit_format 526336 "####"; ev_unit_parse "####" true;
     ev_file_system_open (mkGeom 2048 1046528 1048575) true;
     ev_file_system_get_resize_constraint true;
     ev_constraint_new (mkGeom 2048 1 2048) (mkGeom 458752 131072 589823);
     ev_constraint_intersect true; ev_constraint_destroy;
     ev_constraint_destroy]
  = true.
Proof.
  apply (change_after_constraint mock_services (mock_opts 268435456)
           mock_table _ (ev_disk_set_partition_geom 2048 524288 true)
           [ev_file_system_resize (mkGeom 2048 522241 524288) true;
            ev_partition_set_system; ev_file_system_close;
            ev_constraint_destroy; ev_disk_commit true; ev_disk_destroy;
            ev_device_close]);
    reflexivity.
Defined.

Lemma open_after_busy_test_witness :
  existsb is_free
    [ev_exception_set_handler; ev_device_get "/dev/sdz" true;
     ev_device_open true; ev_disk_new true; ev_disk_get_partition 1 true;
     ev_partition_is_busy false; ev_unit_format 1048575 "#######";
     ev_unit_format 526336 "####"; ev_unit_parse "####" true]
  = true.
Proof.
  apply (open_after_busy_test mock_services (mock_opts 268435456)
           mock_table _
           (ev_file_system_open (mkGeom 2048 1046528 1048575) true)
           [ev_file_system_get_resize_constraint true;
            ev_constraint_new (mkGeom 2048 1 2048)
              (mkGeom 458752 131072 589823);
            ev_constraint_intersect true; ev_constraint_destroy;
            ev_constraint_destroy;
            ev_disk_set_partition_geom 2048 524288 true;
            ev_file_system_resize (mkGeom 2048 522241 524288) true;
            ev_partition_set_system; ev_file_system_close;
            ev_constraint_destroy; ev_disk_commit true; ev_disk_destroy;
            ev_device_close]);
    [cbn; lia | reflexivity | reflexivity].
Defined.

(** The witness of X26: the stand-in device as a whole; the run stops
    at the read of [disk]. *)
Lemma whole_device_plan_undefined_witness :
  exists s : status,
    run_status mock_services mock_whole_opts mock_table = Halt s /\
    (s = Exited 1 \/ s = Aborted \/ s = Undefined) /\
    existsb mutating (run_trace mock_services mock_whole_opts mock_table)
    = false.
Proof.
  apply (whole_device_plan_undefined mock_services mock_whole_opts
           mock_table); [cbn; lia | reflexivity].
Defined.

(* ================================================================== *)
(** ** The option loop *)

Lemma verbose_tail_bounds (items : list getopt_result) :
  0 <= fst (verbose_tail items) <= Z.of_nat (List.length items).
Proof.
  induction items as [|item rest IH]; cbn [verbose_tail List.length];
    [cbn; lia|].
  rewrite Nat2Z.inj_succ.
  destruct (verbose_tail rest) as [n q]. cbn [fst] in *.
  destruct q; [cbn; lia|].
  destruct (is_got_q item); [cbn; lia|].
  destruct (is_got_v item); cbn; lia.
Qed.

Ltac flag_fields :=
  cbn [verbose set_verbose set_info set_progress set_force_yes]; lia.

Section OptionLoopProperties.

Variable stat : string -> option file_type.
Variable probe : string -> bool.
Variable beyond : Z -> string.
Variables after_device after_atoi : string -> Z -> Z.

Lemma option_loop_app (pre post : list getopt_result) :
  forall st : options * Z,
    option_loop stat probe beyond after_device after_atoi (pre ++ post)%list st
    = match option_loop stat probe beyond after_device after_atoi pre st with
      | Val st' => option_loop stat probe beyond after_device after_atoi post st'
      | Halt s => Halt s
      end.
Proof.
  induction pre as [|item pre IH]; intros st; cbn [app option_loop];
    [reflexivity|].
  destruct (option_case stat probe beyond after_device after_atoi item st);
    [apply IH | reflexivity].
Qed.

(** X27. On a command line of flags only ([-f], [-i], [-p], [-v],
    [-q]) the loop ends without touching the device, the partition
    number, the size or [errno], and the verbosity is the number of
    [-v] after the last [-q], counted from -1 when there is a [-q] and
    from the verbosity before otherwise: a [-v] after [-q] makes the
    program speak again. *)
Theorem flags_only_compose (items : list getopt_result) (o : options)
  (errno : Z) :
  forallb is_flag items = true ->
  -1 <= verbose o ->
  verbose o + Z.of_nat (List.length items) <= INT_MAX ->
  exists o' : options,
    option_loop stat probe beyond after_device after_atoi items (o, errno)
    = Val (o', errno) /\
    fullpath o' = fullpath o /\ device o' = device o /\
    pnum o' = pnum o /\ size o' = size o /\
    verbose o'
    = (if snd (verbose_tail items) then -1 else verbose o)
      + fst (verbose_tail items).
Proof.
  revert o errno.
  induction items as [|item rest IH]; intros o errno Hf Hv Hmax.
  - exists o. cbn. repeat split; lia.
  - cbn [forallb] in Hf. apply andb_prop in Hf. destruct Hf as [Hitem Hrest].
    cbn [List.length] in Hmax. rewrite Nat2Z.inj_succ in Hmax.
    pose proof (verbose_tail_bounds rest) as Hb.
    cbn [option_loop verbose_tail].
    destruct (verbose_tail rest) as [n q] eqn:Et. cbn [fst snd] in *.
    unfold INT_MAX in *.
    destruct item; try discriminate; cbn [option_case is_got_q is_got_v].
    + destruct (IH (set_force_yes o 1) errno Hrest) as (o' & Hl & Hx);
        [flag_fields | flag_fields |].
      exists o'. split; [exact Hl|]. cbn in Hx. destruct q; exact Hx.
    + destruct (IH (set_info o 1) errno Hrest) as (o' & Hl & Hx);
        [flag_fields | flag_fields |].
      exists o'. split; [exact Hl|]. cbn in Hx. destruct q; exact Hx.
    + destruct (IH (set_progress o 1) errno Hrest) as (o' & Hl & Hx);
        [flag_fields | flag_fields |].
      exists o'. split; [exact Hl|]. cbn in Hx. destruct q; exact Hx.
    + assert (Hw : wrap32 (verbose o + 1) = verbose o + 1)
        by (apply wrap32_id; unfold INT_MIN, INT_MAX; lia).
      rewrite Hw.
      destruct (IH (set_verbose o (verbose o + 1)) errno Hrest)
        as (o' & Hl & Hfp & Hd & Hp & Hs & Hvb);
        [flag_fields | flag_fields |].
      exists o'. split; [exact Hl|]. cbn in Hfp, Hd, Hp, Hs, Hvb.
      repeat split; try assumption.
      destruct q; cbn [fst snd]; lia.
    + destruct (IH (set_verbose o (-1)) errno Hrest)
        as (o' & Hl & Hfp & Hd & Hp & Hs & Hvb);
        [flag_fields | flag_fields |].
      exists o'. split; [exact Hl|]. cbn in Hfp, Hd, Hp, Hs, Hvb.
      repeat split; try assumption.
      destruct q; cbn [fst snd]; lia.
Qed.

(** X28. The loop stops at the first element that ends the process
    and never looks at what follows: after a prefix that it accepted,
    [-h] or an unknown option exits with 0, a second device argument
    exits with 1 once a device is set, and a size that [get_size]
    refuses exits with the code of [get_size]. *)
Theorem command_line_stops (argc : Z) (pre post : list getopt_result)
  (errno : Z) (o : options) (errno' : Z) :
  parse_command_line stat probe beyond after_device after_atoi argc pre errno
  = Val (o, errno') ->
  (forall item : getopt_result,
     item = got_h \/ item = got_other ->
     parse_command_line stat probe beyond after_device after_atoi argc
       (pre ++ item :: post)%list errno
     = Halt (Exited 0)) /\
  (forall name : string,
     device o <> None ->
     parse_command_line stat probe beyond after_device after_atoi argc
       (pre ++ got_argument name :: post)%list errno
     = Halt (Exited 1)) /\
  (forall (text : string) (c : Z),
     get_size errno' text = Exit c ->
     parse_command_line stat probe beyond after_device after_atoi argc
       (pre ++ got_s text :: post)%list errno
     = Halt (Exited c)).
Proof.
  unfold parse_command_line. destruct (argc <? 2); [discriminate|].
  intros Hpre. repeat split.
  - intros item [-> | ->]; rewrite option_loop_app, Hpre; reflexivity.
  - intros name Hd. rewrite option_loop_app, Hpre.
    cbn [option_loop option_case]. destruct (device o); [reflexivity|].
    destruct Hd; reflexivity.
  - intros text c Hg. rewrite option_loop_app, Hpre.
    cbn [option_loop option_case]. rewrite Hg. reflexivity.
Qed.

End OptionLoopProperties.

Lemma flags_only_compose_witness :
  exists o' : options,
    option_loop (fun _ => None) (fun _ => false) (fun _ => "")
      (fun _ e => e) (fun _ e => e) [got_v; got_q; got_p; got_v] (initial_opts, 0)
    = Val (o', 0) /\
    fullpath o' = None /\ device o' = None /\ pnum o' = -1 /\ size o' = 0 /\
    verbose o' = 0.
Proof.
  apply (flags_only_compose (fun _ => None) (fun _ => false) (fun _ => "")
           (fun _ e => e) (fun _ e => e) [got_v; got_q; got_p; got_v] initial_opts 0);
    [reflexivity | cbn; lia | cbn; unfold INT_MAX; lia].
Defined.

Lemma command_line_stops_witness :
  parse_command_line (fun _ => Some S_IFREG) (fun _ => true) (fun _ => "")
    (fun _ e => e) (fun _ e => e) 3
    [got_argument "disk.img"; got_argument "other.img"; got_h] 0
  = Halt (Exited 1).
Proof.
  apply (proj1 (proj2 (command_line_stops (fun _ => Some S_IFREG)
                         (fun _ => true) (fun _ => "")
                         (fun _ e => e) (fun _ e => e)
                         3 [got_argument "disk.img"] [got_h] 0
                         (set_device initial_opts (Some "disk.img")
                            (Some "disk.img")) 0 eq_refl))
           "other.img").
  cbn. discriminate.
Defined.
